(** * Session hook dispatcher and branch summarisation

    A shallow embedding of the branch-summarisation subsystem
    ([collectEntriesForBranchSummary], [prepareBranchEntries],
    [formatFileOperations], [generateBranchSummary]) and of the hook
    runner ([HookRunner.emit], [emitToolCall], [emitContext]) together
    with the properties the specification states about them.

    Conventions of the embedding:
    - JavaScript strings are Rocq strings; [undefined]/[null] are [None].
    - Token counts and budgets are integers ([Z]); the estimator is an
      external function returning an integer.
    - [Set<string>] is a [gset string]; wherever the source enumerates a
      set it sorts the result, so the enumeration order is immaterial.
    - Asynchronous code is written in a small state-and-exception monad
      ([Async]) whose state carries the observable trace. *)

From Stdlib Require Import ZArith Ascii String.
From stdpp Require Import gmap strings list sorting pretty.

Local Open Scope Z_scope.

(** ** Loops with [break] *)

Inductive LoopStep (S : Type) : Type :=
| Continue (s : S)
| Break (s : S).
Arguments Continue {S} s.
Arguments Break {S} s.

(** [for (const e of es) { s = body(e, s) }] where the body may [break]. *)
Fixpoint for_each {E S : Type} (body : E → S → LoopStep S) (es : list E) (s : S) : S :=
  match es with
  | [] => s
  | e :: es' =>
      match body e s with
      | Continue s' => for_each body es' s'
      | Break s' => s'
      end
  end.

(** The state reached when every iteration over [es] falls through. *)
Fixpoint run_all {E S : Type} (body : E → S → LoopStep S) (es : list E) (s : S) : option S :=
  match es with
  | [] => Some s
  | e :: es' =>
      match body e s with
      | Continue s' => run_all body es' s'
      | Break _ => None
      end
  end.

(** ** Messages and session entries *)

Inductive JsValue : Type :=
| JsUndefined
| JsNull
| JsBool (b : bool)
| JsNumber (n : Z)
| JsString (s : string).

Inductive ContentBlock : Type :=
| TextContent (text : string)
| ImageContent (data : string)
| ThinkingContent (thinking : string)
| ToolCall (callId : string) (name : string) (arguments : option (gmap string JsValue)).

(** [string | (TextContent | ImageContent)[]] *)
Inductive MessageContent : Type :=
| ContentString (s : string)
| ContentBlocks (bs : list ContentBlock).

Inductive AgentMessage : Type :=
| UserMessage (content : MessageContent) (timestamp : Z)
| AssistantMessage (content : list ContentBlock) (timestamp : Z)
| ToolResultMessage (toolCallId : string) (content : list ContentBlock) (timestamp : Z)
| BranchSummaryMessage (summary : string) (fromId : string) (timestamp : Z)
| CompactionSummaryMessage (summary : string) (tokensBefore : Z) (timestamp : Z)
| HookMessage (customType : string) (content : MessageContent) (display : bool)
    (details : option string) (timestamp : Z)
| BashExecutionMessage (command output : string) (exitCode : option Z)
    (cancelled truncated : bool) (fullOutputPath : option string) (timestamp : Z).

Definition role (m : AgentMessage) : string :=
  match m with
  | UserMessage _ _ => "user"
  | AssistantMessage _ _ => "assistant"
  | ToolResultMessage _ _ _ => "toolResult"
  | BranchSummaryMessage _ _ _ => "branchSummary"
  | CompactionSummaryMessage _ _ _ => "compactionSummary"
  | HookMessage _ _ _ _ _ => "hookMessage"
  | BashExecutionMessage _ _ _ _ _ _ _ => "bashExecution"
  end.

Inductive EntryPayload : Type :=
| MessageEntry (message : AgentMessage)
| CustomMessageEntry (customType : string) (content : MessageContent) (display : bool)
    (details : option string)
| BranchSummaryEntry (summary : string) (fromId : string)
| CompactionEntry (summary : string) (tokensBefore : Z)
| ThinkingLevelChangeEntry (level : string)
| ModelChangeEntry (modelId : string)
| CustomEntry (customType : string)
| LabelEntry (label : string).

Record SessionEntry : Type := {
  entry_id : string;
  entry_parentId : option string;
  entry_timestamp : Z;
  entry_payload : EntryPayload;
}.

Definition entry_type (e : SessionEntry) : string :=
  match entry_payload e with
  | MessageEntry _ => "message"
  | CustomMessageEntry _ _ _ _ => "custom_message"
  | BranchSummaryEntry _ _ => "branch_summary"
  | CompactionEntry _ _ => "compaction"
  | ThinkingLevelChangeEntry _ => "thinking_level_change"
  | ModelChangeEntry _ => "model_change"
  | CustomEntry _ => "custom"
  | LabelEntry _ => "label"
  end.

(** Modelled from the spec: the message constructors [createHookMessage],
    [createBranchSummaryMessage] and [createCompactionSummaryMessage] are
    imported from a module that is not part of the sources; the spec says
    they build a [hookMessage], [branchSummary] and [compactionSummary]
    message from the fields they are given. *)
Definition createHookMessage (customType : string) (content : MessageContent)
    (display : bool) (details : option string) (timestamp : Z) : AgentMessage :=
  HookMessage customType content display details timestamp.
Definition createBranchSummaryMessage (summary fromId : string) (timestamp : Z) : AgentMessage :=
  BranchSummaryMessage summary fromId timestamp.
Definition createCompactionSummaryMessage (summary : string) (tokensBefore timestamp : Z)
    : AgentMessage :=
  CompactionSummaryMessage summary tokensBefore timestamp.

Definition getMessageFromEntry (entry : SessionEntry) : option AgentMessage :=
  match entry_payload entry with
  | MessageEntry message =>
      if String.eqb (role message) "toolResult" then None else Some message
  | CustomMessageEntry customType content display details =>
      Some (createHookMessage customType content display details (entry_timestamp entry))
  | BranchSummaryEntry summary fromId =>
      Some (createBranchSummaryMessage summary fromId (entry_timestamp entry))
  | CompactionEntry summary tokensBefore =>
      Some (createCompactionSummaryMessage summary tokensBefore (entry_timestamp entry))
  | ThinkingLevelChangeEntry _ | ModelChangeEntry _ | CustomEntry _ | LabelEntry _ => None
  end.

(** ** File operations *)

Record FileOperations : Type := {
  read : gset string;
  written : gset string;
  edited : gset string;
}.

Definition noFileOps : FileOperations :=
  {| read := ∅; written := ∅; edited := ∅ |}.

(** One iteration of the loop over the content blocks of an assistant
    message.  A block is skipped unless it is a tool call whose arguments
    carry a non-empty string [path]. *)
Definition recordToolCall (fileOps : FileOperations) (block : ContentBlock) : FileOperations :=
  match block with
  | ToolCall _ name (Some args) =>
      match args !! "path" with
      | Some (JsString path) =>
          if String.eqb path EmptyString then fileOps
          else if String.eqb name "read" then
            {| read := {[path]} ∪ read fileOps; written := written fileOps;
               edited := edited fileOps |}
          else if String.eqb name "write" then
            {| read := read fileOps; written := {[path]} ∪ written fileOps;
               edited := edited fileOps |}
          else if String.eqb name "edit" then
            {| read := read fileOps; written := written fileOps;
               edited := {[path]} ∪ edited fileOps |}
          else fileOps
      | _ => fileOps
      end
  | _ => fileOps
  end.

Definition extractFileOpsFromMessage (message : AgentMessage) (fileOps : FileOperations)
    : FileOperations :=
  match message with
  | AssistantMessage content _ => foldl recordToolCall fileOps content
  | _ => fileOps
  end.

(** ** Budgeted preparation *)

Record BranchPreparation : Type := {
  messages : list AgentMessage;
  fileOps : FileOperations;
  totalTokens : Z;
}.

Definition sum_tokens (ts : list Z) : Z := foldr Z.add 0 ts.

Section Prepare.
(** The token estimator is imported from the compaction module. *)
Variable estimateTokens : AgentMessage → Z.

(** The body of the newest-to-oldest loop.  The test
    [totalTokens < tokenBudget * 0.9] compares an integer with the
    product of an integer and the double nearest to 9/10; on integer
    operands below 2^49 it holds exactly when
    [10 * totalTokens < 9 * tokenBudget]. *)
Definition prepare_step (tokenBudget : Z) (entry : SessionEntry) (st : BranchPreparation)
    : LoopStep BranchPreparation :=
  match getMessageFromEntry entry with
  | None => Continue st
  | Some message =>
      let fileOps' := extractFileOpsFromMessage message (fileOps st) in
      let tokens := estimateTokens message in
      if (0 <? tokenBudget) && (tokenBudget <? totalTokens st + tokens) then
        if (String.eqb (entry_type entry) "compaction"
            || String.eqb (entry_type entry) "branch_summary")
           && (10 * totalTokens st <? 9 * tokenBudget)
        then Break {| messages := message :: messages st; fileOps := fileOps';
                      totalTokens := totalTokens st + tokens |}
        else Break {| messages := messages st; fileOps := fileOps';
                      totalTokens := totalTokens st |}
      else Continue {| messages := message :: messages st; fileOps := fileOps';
                       totalTokens := totalTokens st + tokens |}
  end.

Definition prepareBranchEntries (entries : list SessionEntry) (tokenBudget : Z)
    : BranchPreparation :=
  for_each (prepare_step tokenBudget) (reverse entries)
    {| messages := []; fileOps := noFileOps; totalTokens := 0 |}.
End Prepare.

(** ** The file-operations report *)

Definition LF : string := String "010"%char EmptyString.

(** [Array.prototype.join]. *)
Definition join (sep : string) (parts : list string) : string := String.concat sep parts.

(** [Array.prototype.sort] without a comparator orders strings by their
    code units; any correct sort yields the same array. *)
Definition sort (paths : list string) : list string := merge_sort String.le paths.

(** [new Set([...fileOps.edited, ...fileOps.written])] *)
Definition modifiedSet (fileOps : FileOperations) : gset string :=
  list_to_set (elements (edited fileOps) ++ elements (written fileOps)).

(** [[...fileOps.read].filter((f) => !modified.has(f)).sort()] *)
Definition readOnlyFiles (fileOps : FileOperations) : list string :=
  sort (filter (λ f, f ∉ modifiedSet fileOps) (elements (read fileOps))).

(** [[...modified].sort()] *)
Definition modifiedFiles (fileOps : FileOperations) : list string :=
  sort (elements (modifiedSet fileOps)).

Definition readFilesSection (readOnly : list string) : string :=
  "<read-files>" +:+ LF +:+ join LF readOnly +:+ LF +:+ "</read-files>".

Definition modifiedFilesSection (files : list string) : string :=
  "<modified-files>" +:+ LF +:+ join LF files +:+ LF +:+ "</modified-files>".

Definition formatFileOperations (fileOps : FileOperations) : string :=
  let modified := modifiedSet fileOps in
  let readOnly := readOnlyFiles fileOps in
  let sections : list string := [] in
  let sections :=
    if (0 <? length readOnly)%nat then sections ++ [readFilesSection readOnly] else sections in
  let sections :=
    if (0 <? size modified)%nat
    then sections ++ [modifiedFilesSection (modifiedFiles fileOps)] else sections in
  if (length sections =? 0)%nat then EmptyString
  else LF +:+ LF +:+ join (LF +:+ LF) sections.

(** ** Summary generation *)

Definition BRANCH_SUMMARY_PROMPT : string :=
  "Summarize this conversation branch concisely for context when returning later:" +:+ LF +:+
  "- Key decisions made and actions taken" +:+ LF +:+
  "- Important context, constraints, or preferences discovered" +:+ LF +:+
  "- Current state and any pending work" +:+ LF +:+
  "- Critical information needed to continue from a different point" +:+ LF +:+ LF +:+
  "Be brief and focused on what matters for future reference.".

(** [.filter((c) => c.type === "text").map((c) => c.text)] *)
Definition textParts (blocks : list ContentBlock) : list string :=
  omap (λ c, match c with TextContent text => Some text | _ => None end) blocks.

Definition messageText (msg : AgentMessage) : string :=
  match msg with
  | UserMessage (ContentString s) _ => s
  | UserMessage (ContentBlocks bs) _ => join EmptyString (textParts bs)
  | AssistantMessage bs _ => join EmptyString (textParts bs)
  | BranchSummaryMessage summary _ _ => "[Branch summary: " +:+ summary +:+ "]"
  | CompactionSummaryMessage summary _ _ => "[Session summary: " +:+ summary +:+ "]"
  | HookMessage _ (ContentString s) _ _ _ => s
  | HookMessage _ (ContentBlocks bs) _ _ _ => join EmptyString (textParts bs)
  | _ => EmptyString
  end.

Definition messagesToText (msgs : list AgentMessage) : string :=
  join (LF +:+ LF)
    (omap (λ msg,
       let text := messageText msg in
       if String.eqb text EmptyString then None else Some (role msg +:+ ": " +:+ text))
     msgs).

Record Model : Type := {
  model_id : string;
  contextWindow : option Z;
}.

Record GenerateBranchSummaryOptions : Type := {
  opt_model : Model;
  opt_apiKey : string;
  opt_signal : nat;
  opt_customInstructions : option string;
  opt_reserveTokens : option Z;
}.

Record CompleteRequest : Type := {
  req_model : Model;
  req_messages : list AgentMessage;
  req_apiKey : string;
  req_signal : nat;
  req_maxTokens : Z;
}.

Record AssistantResponse : Type := {
  stopReason : string;
  response_content : list ContentBlock;
  errorMessage : option string;
}.

Record BranchSummaryResult : Type := {
  summary : option string;
  aborted : option bool;
  error : option string;
}.

(** The generator talks to the outside world twice: it reads the clock and
    it awaits the completion function.  A computation is a tree of these
    requests. *)
Inductive Effectful (A : Type) : Type :=
| Pure (a : A)
| DateNow (k : Z → Effectful A)
| Complete (request : CompleteRequest) (k : AssistantResponse → Effectful A).
Arguments Pure {A} a.
Arguments DateNow {A} k.
Arguments Complete {A} request k.

(** Running a computation against a clock and a completion function; the
    second component lists the completion requests in the order made. *)
Fixpoint run {A : Type} (now : Z) (complete : CompleteRequest → AssistantResponse)
    (c : Effectful A) : A * list CompleteRequest :=
  match c with
  | Pure a => (a, [])
  | DateNow k => run now complete (k now)
  | Complete request k =>
      let '(a, requests) := run now complete (k (complete request)) in
      (a, request :: requests)
  end.

(** [x || fallback] on an optional number: [undefined] and [0] are falsy. *)
Definition number_or (x : option Z) (fallback : Z) : Z :=
  match x with
  | Some v => if v =? 0 then fallback else v
  | None => fallback
  end.

(** [x || fallback] on an optional string: [undefined] and the empty
    string are falsy. *)
Definition string_or (x : option string) (fallback : string) : string :=
  match x with
  | Some s => if String.eqb s EmptyString then fallback else s
  | None => fallback
  end.

(** Token budget = context window minus reserved space. *)
Definition tokenBudgetOf (options : GenerateBranchSummaryOptions) : Z :=
  let reserveTokens := default 16384 (opt_reserveTokens options) in
  let contextWindow := number_or (contextWindow (opt_model options)) 128000 in
  contextWindow - reserveTokens.

Definition generateBranchSummary (estimateTokens : AgentMessage → Z)
    (entries : list SessionEntry) (options : GenerateBranchSummaryOptions)
    : Effectful BranchSummaryResult :=
  let tokenBudget := tokenBudgetOf options in
  let prep := prepareBranchEntries estimateTokens entries tokenBudget in
  if (length (messages prep) =? 0)%nat then
    Pure {| summary := Some "No content to summarize"; aborted := None; error := None |}
  else
    let conversationText := messagesToText (messages prep) in
    let instructions := string_or (opt_customInstructions options) BRANCH_SUMMARY_PROMPT in
    let prompt := instructions +:+ LF +:+ LF +:+ "Conversation:" +:+ LF +:+ conversationText in
    DateNow (λ now,
      Complete
        {| req_model := opt_model options;
           req_messages := [UserMessage (ContentBlocks [TextContent prompt]) now];
           req_apiKey := opt_apiKey options;
           req_signal := opt_signal options;
           req_maxTokens := 2048 |}
        (λ response,
           if String.eqb (stopReason response) "aborted" then
             Pure {| summary := None; aborted := Some true; error := None |}
           else if String.eqb (stopReason response) "error" then
             Pure {| summary := None; aborted := None;
                     error := Some (string_or (errorMessage response) "Summarization failed") |}
           else
             let text := join LF (textParts (response_content response)) in
             let text := text +:+ formatFileOperations (fileOps prep) in
             Pure {| summary := Some (string_or (Some text) "No summary generated");
                     aborted := None; error := None |})).

(** ** Entry collection *)

(** The read-only view of the session store that the collector is given. *)
Record ReadonlySessionManager : Type := {
  getEntry : string → option SessionEntry;
  getPath : string → list SessionEntry;
}.

Record CollectEntriesResult : Type := {
  entries : list SessionEntry;
  commonAncestorId : option string;
}.

(** Truthiness of a [string | null]: [null] and the empty string are falsy. *)
Definition truthy (x : option string) : bool :=
  match x with
  | Some s => negb (String.eqb s EmptyString)
  | None => false
  end.

(** The scan of the target path for the first id that is on the old path. *)
Definition findCommonAncestor (oldPath : gset string) (targetPath : list SessionEntry)
    : option string :=
  for_each
    (λ entry commonAncestorId,
       if bool_decide (entry_id entry ∈ oldPath)
       then Break (Some (entry_id entry))
       else Continue commonAncestorId)
    targetPath None.

(** [while (current && current !== commonAncestorId) { ... }].  The loop
    follows parent links of the store, so it is run on fuel; [None] means
    the fuel ran out before the loop ended. *)
Fixpoint collectWalk (fuel : nat) (session : ReadonlySessionManager)
    (commonAncestorId current : option string) (entries : list SessionEntry)
    : option (list SessionEntry) :=
  match fuel with
  | O => None
  | S fuel' =>
      if truthy current && negb (bool_decide (current = commonAncestorId)) then
        match current ≫= getEntry session with
        | None => Some entries
        | Some entry =>
            collectWalk fuel' session commonAncestorId (entry_parentId entry)
              (entries ++ [entry])
        end
      else Some entries
  end.

(** The collector.  [if (!oldLeafId)] takes the early exit for [null] and
    for the empty string. *)
Definition collectEntriesForBranchSummary (fuel : nat) (session : ReadonlySessionManager)
    (oldLeafId : option string) (targetId : string) : option CollectEntriesResult :=
  match oldLeafId with
  | Some oldLeaf =>
      if negb (truthy oldLeafId) then Some {| entries := []; commonAncestorId := None |}
      else
        let oldPath : gset string := list_to_set (entry_id <$> getPath session oldLeaf) in
        let targetPath := getPath session targetId in
        let commonAncestorId := findCommonAncestor oldPath targetPath in
        entries ← collectWalk fuel session commonAncestorId oldLeafId [];
        Some {| entries := reverse entries; commonAncestorId := commonAncestorId |}
  | None => Some {| entries := []; commonAncestorId := None |}
  end.

(** Modelled from the spec: the Session Tree Accessor is not part of the
    sources.  The spec gives [getEntry(id)] as the lookup of an entry by its
    id and [getPath(id)] as the ordered sequence of entries from the given
    id to the root; [ancestor_path session start p] says that [p] is that
    sequence: it starts at [start], each entry is followed by its parent,
    and it ends at an absent parent or at an id the store cannot resolve. *)
Inductive ancestor_path (session : ReadonlySessionManager)
    : option string → list SessionEntry → Prop :=
| ancestor_path_root : ancestor_path session None []
| ancestor_path_missing id :
    getEntry session id = None → ancestor_path session (Some id) []
| ancestor_path_step id entry p :
    getEntry session id = Some entry →
    ancestor_path session (entry_parentId entry) p →
    ancestor_path session (Some id) (entry :: p).

(** Modelled from the spec: a store that keeps the entries of the session
    file, resolves an id to the entry carrying it, and computes the path to
    the root by following parent links. *)
Fixpoint walkToRoot (lookup : string → option SessionEntry) (fuel : nat)
    (current : option string) : list SessionEntry :=
  match fuel, current with
  | S fuel', Some id =>
      match lookup id with
      | Some entry => entry :: walkToRoot lookup fuel' (entry_parentId entry)
      | None => []
      end
  | _, _ => []
  end.

Definition sessionOf (file : list SessionEntry) : ReadonlySessionManager :=
  let lookup := λ id, List.find (λ e, String.eqb (entry_id e) id) file in
  {| getEntry := lookup;
     getPath := λ id, walkToRoot lookup (length file) (Some id) |}.

(** ** Hook runner *)

(** A thrown value: an [Error] with its message, or any other value with
    its [String(...)] rendering. *)
Inductive Thrown : Type :=
| ThrownError (message : string)
| ThrownValue (text : string).

(** [err instanceof Error ? err.message : String(err)] *)
Definition thrownMessage (err : Thrown) : string :=
  match err with
  | ThrownError message => message
  | ThrownValue text => text
  end.

(** What a handler hands back when it returns an object; a returned
    [undefined] (or any falsy value) is [None]. *)
Record HookResult : Type := {
  cancel : bool;
  block : bool;
  result_messages : option (list AgentMessage);
  result_payload : string;
}.

Record HookEvent : Type := {
  event_type : string;
  event_reason : option string;
  event_messages : option (list AgentMessage);
}.

Record HookEventContext : Type := {
  ctx_hasUI : bool;
  ctx_cwd : string;
}.

Record HookError : Type := {
  hookPath : string;
  event : string;
  error_message : string;
}.

Inductive Settlement : Type :=
| Fulfilled (value : option HookResult)
| Rejected (err : Thrown).

(** How one call of a handler behaves relative to the per-call timer: it
    settles before the timer would fire, or it is still pending at that
    moment and settles later or never. *)
Inductive Behaviour : Type :=
| Prompt (s : Settlement)
| Late (s : option Settlement).

(** The outcome of a handler call as the runner observes it. *)
Inductive Outcome : Type :=
| Returned (value : option HookResult)
| Threw (err : Thrown)
| Hung.

Record Invocation : Type := {
  inv_hook : nat;
  inv_path : string;
  inv_handler : nat;
  inv_event : HookEvent;
  inv_behaviour : Behaviour;
  inv_outcome : Outcome;
}.

(** The observable trace of a runner: a handler was called, a timer was
    set or cleared, a timer fired and settled the race of its call, an
    error listener was called with an error. *)
Inductive Obs : Type :=
| ObsInvoke (inv : Invocation)
| ObsTimerSet (timer : nat) (ms : N)
| ObsTimerCleared (timer : nat)
| ObsTimerFired (timer : nat)
| ObsError (listener : nat) (err : HookError).

Definition invocations (tr : list Obs) : list Invocation :=
  omap (λ o, match o with ObsInvoke inv => Some inv | _ => None end) tr.

(** The errors delivered to the listener registered at position [l]. *)
Definition deliveries (l : nat) (tr : list Obs) : list HookError :=
  omap (λ o, match o with
             | ObsError l' err => if decide (l' = l) then Some err else None
             | _ => None
             end) tr.

(** The [HookError] a failed invocation is reported as. *)
Definition hookErrorOf (inv : Invocation) : option HookError :=
  match inv_outcome inv with
  | Threw err => Some {| hookPath := inv_path inv; event := event_type (inv_event inv);
                        error_message := thrownMessage err |}
  | _ => None
  end.

Inductive Completion (A : Type) : Type :=
| Normal (a : A)
| Abrupt (err : Thrown)
| Never.
Arguments Normal {A} a.
Arguments Abrupt {A} err.
Arguments Never {A}.

(** Loop bodies either go on with the next handler or return from the
    enclosing method. *)
Inductive Flow (S R : Type) : Type :=
| Proceed (s : S)
| Return (r : R).
Arguments Proceed {S R} s.
Arguments Return {S R} r.

Section HookRunner.
(** The state the handlers and listeners close over. *)
Context {W : Type}.

Definition Handler : Type := HookEvent → HookEventContext → W → Behaviour * W.

Record LoadedHook : Type := {
  hook_path : string;
  hook_handlers : gmap string (list Handler);
}.

(** An error listener is called for its effect on the world; it returns,
    or it throws the value it hands back. *)
Definition Listener : Type := HookError → W → option Thrown * W.

Record HookRunner : Type := {
  hooks : list LoadedHook;
  hasUI : bool;
  cwd : string;
  timeout : N;
  errorListeners : list Listener;
}.

(** The state an emission runs in: the world of the handlers, the timers
    that are scheduled (set, and neither cleared nor fired) with the delay
    each timer was set with, and the trace of what has been observed so
    far. *)
Record RunnerState : Type := {
  world : W;
  nextTimer : nat;
  scheduled : list nat;
  timerDelay : nat → N;
  trace : list Obs;
}.

(** Asynchronous code: a state transformer that completes normally,
    throws, or never completes. *)
Definition Async (A : Type) : Type := RunnerState → Completion A * RunnerState.

Definition ret {A : Type} (a : A) : Async A := λ st, (Normal a, st).

Definition bind {A B : Type} (m : Async A) (f : A → Async B) : Async B :=
  λ st,
    match m st with
    | (Normal a, st') => f a st'
    | (Abrupt err, st') => (Abrupt err, st')
    | (Never, st') => (Never, st')
    end.

(** [try { body } catch (err) { handler }] *)
Definition try_catch {A : Type} (body : Async A) (handler : Thrown → Async A) : Async A :=
  λ st,
    match body st with
    | (Abrupt err, st') => handler err st'
    | r => r
    end.

Local Notation "x <- m ;; k" := (bind m (λ x, k))
  (at level 100, m at next level, right associativity).
Local Notation "m ;;; k" := (bind m (λ _, k))
  (at level 100, right associativity).

Definition observe (o : Obs) (st : RunnerState) : RunnerState :=
  {| world := world st; nextTimer := nextTimer st; scheduled := scheduled st;
     timerDelay := timerDelay st; trace := trace st ++ [o] |}.

(** [createTimeout(ms)]: schedules a timer whose firing rejects with
    [Hook timed out after <ms>ms]. *)
Definition createTimeout (ms : N) : Async nat :=
  λ st,
    let id := nextTimer st in
    (Normal id,
     {| world := world st; nextTimer := S id; scheduled := id :: scheduled st;
        timerDelay := λ t, if decide (t = id) then ms else timerDelay st t;
        trace := trace st ++ [ObsTimerSet id ms] |}).

Definition timeoutError (ms : N) : Thrown :=
  ThrownError ("Hook timed out after " +:+ pretty ms +:+ "ms").

Definition unschedule (timer : nat) (st : RunnerState) : RunnerState :=
  {| world := world st; nextTimer := nextTimer st;
     scheduled := filter (λ t, t ≠ timer) (scheduled st);
     timerDelay := timerDelay st; trace := trace st |}.

(** [timeout.clear()], that is [clearTimeout(timeoutId)]. *)
Definition clearTimeout (timer : nat) : Async unit :=
  λ st, (Normal tt, observe (ObsTimerCleared timer) (unschedule timer st)).

(** The timer [timer], set last with a delay of [ms], fires.  Timers fire
    in the order they fall due: every timer that was set before with a
    delay of at most [ms] has fired by then and is off the schedule too. *)
Definition fire (timer : nat) (ms : N) (st : RunnerState) : RunnerState :=
  {| world := world st; nextTimer := nextTimer st;
     scheduled := filter (λ t, t ≠ timer ∧ (ms < timerDelay st t)%N) (scheduled st);
     timerDelay := timerDelay st; trace := trace st |}.

Definition called (i : nat) (hook : LoadedHook) (k : nat) (ev : HookEvent)
    (b : Behaviour) (o : Outcome) : Obs :=
  ObsInvoke {| inv_hook := i; inv_path := hook_path hook; inv_handler := k;
               inv_event := ev; inv_behaviour := b; inv_outcome := o |}.

Definition withWorld (w : W) (st : RunnerState) : RunnerState :=
  {| world := w; nextTimer := nextTimer st; scheduled := scheduled st;
     timerDelay := timerDelay st; trace := trace st |}.

Definition settled (s : Settlement) : Outcome :=
  match s with
  | Fulfilled value => Returned value
  | Rejected err => Threw err
  end.

Definition completion (o : Outcome) : Completion (option HookResult) :=
  match o with
  | Returned value => Normal value
  | Threw err => Abrupt err
  | Hung => Never
  end.

(** What awaiting a handler without a timer yields. *)
Definition awaitOutcome (b : Behaviour) : Outcome :=
  match b with
  | Prompt s | Late (Some s) => settled s
  | Late None => Hung
  end.

(** What racing a handler against a timer of [ms] milliseconds yields:
    when the handler is late, the timer's rejection. *)
Definition raceOutcome (ms : N) (b : Behaviour) : Outcome :=
  match b with
  | Prompt s => settled s
  | Late _ => Threw (timeoutError ms)
  end.

(** [await handler(event, ctx)] *)
Definition awaitHandler (i : nat) (hook : LoadedHook) (k : nat) (handler : Handler)
    (ev : HookEvent) (ctx : HookEventContext) : Async (option HookResult) :=
  λ st,
    let '(b, w) := handler ev ctx (world st) in
    (completion (awaitOutcome b),
     observe (called i hook k ev b (awaitOutcome b)) (withWorld w st)).

(** [await Promise.race([handler(event, ctx), timeout.promise])]: when the
    handler is late the timer fires, and the race rejects with the timer's
    error. *)
Definition raceHandler (i : nat) (hook : LoadedHook) (k : nat) (handler : Handler)
    (ev : HookEvent) (ctx : HookEventContext) (timer : nat) (ms : N)
    : Async (option HookResult) :=
  λ st,
    let '(b, w) := handler ev ctx (world st) in
    (completion (raceOutcome ms b),
     observe (called i hook k ev b (raceOutcome ms b))
       match b with
       | Prompt _ => withWorld w st
       | Late _ => observe (ObsTimerFired timer) (fire timer ms (withWorld w st))
       end).

(** [for (const listener of this.errorListeners) listener(error)].  The
    listeners are called in the order they were registered, each
    identified by its position; what a listener throws leaves the loop,
    and the listeners after it are not called. *)
Fixpoint notify (listeners : list Listener) (l : nat) (err : HookError) : Async unit :=
  λ st,
    match listeners with
    | [] => (Normal tt, st)
    | listener :: rest =>
        let '(thrown, w) := listener err (world st) in
        let st' := observe (ObsError l err) (withWorld w st) in
        match thrown with
        | None => notify rest (S l) err st'
        | Some e => (Abrupt e, st')
        end
    end.

Definition emitError (r : HookRunner) (err : HookError) : Async unit :=
  notify (errorListeners r) 0 err.

(** Some listener of the runner throws [e] for some error. *)
Definition listenerThrows (r : HookRunner) (e : Thrown) : Prop :=
  ∃ listener err w, listener ∈ errorListeners r ∧ (listener err w).1 = Some e.

(** No listener of the runner ever throws. *)
Definition quietListeners (r : HookRunner) : Prop :=
  ∀ listener err w, listener ∈ errorListeners r → (listener err w).1 = None.

Definition createContext (r : HookRunner) : HookEventContext :=
  {| ctx_hasUI := hasUI r; ctx_cwd := cwd r |}.

(** [for (const handler of handlers) { body }] *)
Fixpoint forHandlers {St R : Type} (body : nat → Handler → St → Async (Flow St R))
    (k : nat) (handlers : list Handler) (s : St) : Async (Flow St R) :=
  match handlers with
  | [] => ret (Proceed s)
  | handler :: rest =>
      f <- body k handler s ;;
      match f with
      | Proceed s' => forHandlers body (S k) rest s'
      | Return v => ret (Return v)
      end
  end.

(** [for (const hook of this.hooks) {
       const handlers = hook.handlers.get(eventType);
       if (!handlers || handlers.length === 0) continue;
       for (const handler of handlers) { body } }] *)
Fixpoint forHooks {St R : Type} (eventType : string)
    (body : nat → LoadedHook → nat → Handler → St → Async (Flow St R))
    (i : nat) (hks : list LoadedHook) (s : St) : Async (Flow St R) :=
  match hks with
  | [] => ret (Proceed s)
  | hook :: rest =>
      match hook_handlers hook !! eventType with
      | None => forHooks eventType body (S i) rest s
      | Some handlers =>
          if (length handlers =? 0)%nat then forHooks eventType body (S i) rest s
          else
            f <- forHandlers (body i hook) 0 handlers s ;;
            match f with
            | Proceed s' => forHooks eventType body (S i) rest s'
            | Return v => ret (Return v)
            end
      end
  end.

Definition isSession (ev : HookEvent) : bool := String.eqb (event_type ev) "session".

Definition isBeforeCompact (ev : HookEvent) : bool :=
  isSession ev && bool_decide (event_reason ev = Some "before_compact").

(** The body of the handler loop of [emit]. *)
Definition emitBody (r : HookRunner) (ev : HookEvent) (ctx : HookEventContext)
    (i : nat) (hook : LoadedHook) (k : nat) (handler : Handler)
    (result : option HookResult)
    : Async (Flow (option HookResult) (option HookResult)) :=
  try_catch
    (handlerResult <-
       (if isBeforeCompact ev then awaitHandler i hook k handler ev ctx
        else
          timer <- createTimeout (timeout r) ;;
          value <- raceHandler i hook k handler ev ctx timer (timeout r) ;;
          (clearTimeout timer ;;;
          ret value)) ;;
     let captured := isSession ev && bool_decide (is_Some handlerResult) in
     let result := if captured then handlerResult else result in
     if captured && from_option cancel false result then ret (Return result)
     else
       let result :=
         if String.eqb (event_type ev) "tool_result" && bool_decide (is_Some handlerResult)
         then handlerResult else result in
       ret (Proceed result))
    (λ err,
       emitError r {| hookPath := hook_path hook; event := event_type ev;
                      error_message := thrownMessage err |} ;;;
       ret (Proceed result)).

Definition emit (r : HookRunner) (ev : HookEvent) : Async (option HookResult) :=
  let ctx := createContext r in
  f <- forHooks (event_type ev) (emitBody r ev ctx) 0 (hooks r) None ;;
  match f with
  | Proceed result => ret result
  | Return result => ret result
  end.

(** The body of the handler loop of [emitToolCall]: no timer, no [try]. *)
Definition toolCallBody (ev : HookEvent) (ctx : HookEventContext)
    (i : nat) (hook : LoadedHook) (k : nat) (handler : Handler)
    (result : option HookResult)
    : Async (Flow (option HookResult) (option HookResult)) :=
  handlerResult <- awaitHandler i hook k handler ev ctx ;;
  let result := if bool_decide (is_Some handlerResult) then handlerResult else result in
  if bool_decide (is_Some handlerResult) && from_option block false result
  then ret (Return result)
  else ret (Proceed result).

Definition emitToolCall (r : HookRunner) (ev : HookEvent) : Async (option HookResult) :=
  let ctx := createContext r in
  f <- forHooks "tool_call" (toolCallBody ev ctx) 0 (hooks r) None ;;
  match f with
  | Proceed result => ret result
  | Return result => ret result
  end.

Definition contextEvent (msgs : list AgentMessage) : HookEvent :=
  {| event_type := "context"; event_reason := None; event_messages := Some msgs |}.

(** The body of the handler loop of [emitContext]; the loop state is
    [(currentMessages, modified)]. *)
Definition contextBody (r : HookRunner) (ctx : HookEventContext)
    (i : nat) (hook : LoadedHook) (k : nat) (handler : Handler)
    (s : list AgentMessage * bool)
    : Async (Flow (list AgentMessage * bool) (option (list AgentMessage))) :=
  try_catch
    (let ev := contextEvent (fst s) in
     timer <- createTimeout (timeout r) ;;
     handlerResult <- raceHandler i hook k handler ev ctx timer (timeout r) ;;
     (clearTimeout timer ;;;
     match handlerResult with
     | Some res =>
         match result_messages res with
         | Some msgs => ret (Proceed (msgs, true))
         | None => ret (Proceed s)
         end
     | None => ret (Proceed s)
     end))
    (λ err,
       emitError r {| hookPath := hook_path hook; event := "context";
                      error_message := thrownMessage err |} ;;;
       ret (Proceed s)).

Definition emitContext (r : HookRunner) (msgs : list AgentMessage)
    : Async (option (list AgentMessage)) :=
  let ctx := createContext r in
  f <- forHooks "context" (contextBody r ctx) 0 (hooks r) (msgs, false) ;;
  match f with
  | Proceed (currentMessages, modified) =>
      ret (if modified then Some currentMessages else None)
  | Return v => ret v
  end.
End HookRunner.

Arguments Handler W : clear implicits.
Arguments Listener W : clear implicits.
Arguments LoadedHook W : clear implicits.
Arguments HookRunner W : clear implicits.
Arguments RunnerState W : clear implicits.
Arguments Async W A : clear implicits.

(** ** Dispatch order and traces of the handler loops *)

Section Dispatch.
Context {W : Type}.

(** One stop of the dispatch: handler [d_index] of the hook at position
    [d_hook]. *)
Record Dispatch : Type := {
  d_hook : nat;
  d_loaded : LoadedHook W;
  d_index : nat;
  d_handler : Handler W;
}.

Fixpoint dispatchHandlers (i : nat) (hook : LoadedHook W) (k : nat)
    (handlers : list (Handler W)) : list Dispatch :=
  match handlers with
  | [] => []
  | handler :: rest =>
      {| d_hook := i; d_loaded := hook; d_index := k; d_handler := handler |}
        :: dispatchHandlers i hook (S k) rest
  end.

Fixpoint dispatchFrom (eventType : string) (i : nat) (hks : list (LoadedHook W))
    : list Dispatch :=
  match hks with
  | [] => []
  | hook :: rest =>
      dispatchHandlers i hook 0 (default [] (hook_handlers hook !! eventType))
        ++ dispatchFrom eventType (S i) rest
  end.

(** Hooks in load order, and within a hook its handlers for the event
    kind in registration order. *)
Definition dispatchOrder (eventType : string) (r : HookRunner W) : list Dispatch :=
  dispatchFrom eventType 0 (hooks r).

(** The nested loops run as one loop over the dispatch order. *)
Fixpoint forDispatch {St R : Type}
    (body : nat → LoadedHook W → nat → Handler W → St → Async W (Flow St R))
    (ds : list Dispatch) (s : St) : Async W (Flow St R) :=
  match ds with
  | [] => ret (Proceed s)
  | d :: rest =>
      bind (body (d_hook d) (d_loaded d) (d_index d) (d_handler d) s)
        (λ f, match f with
              | Proceed s' => forDispatch body rest s'
              | Return v => ret (Return v)
              end)
  end.

(** [inv] records a call of the handler at [d] with event [ev] and
    context [ctx], observed through [obs] (with or without a timer). *)
Definition invocationOf (d : Dispatch) (ev : HookEvent) (ctx : HookEventContext)
    (obs : Behaviour → Outcome) (inv : Invocation) : Prop :=
  inv_hook inv = d_hook d ∧ inv_path inv = hook_path (d_loaded d) ∧
  inv_handler inv = d_index d ∧ inv_event inv = ev ∧
  (∃ w, inv_behaviour inv = (d_handler d ev ctx w).1) ∧
  inv_outcome inv = obs (inv_behaviour inv).

(** The invocations a loop over [ds] makes from loop state [s], and how it
    completes, when a handler called in state [s] gets the event [evOf s]
    and the context [ctx], and the loop reacts to its outcome by [step s].
    A loop that reports failed calls to error listeners also ends when a
    listener throws: [thrown e] says that a listener can throw [e]. *)
Inductive loop_trace {St R : Type} (evOf : St → HookEvent) (ctx : HookEventContext)
    (obs : Behaviour → Outcome)
    (step : St → Outcome → Completion (Flow St R)) (thrown : Thrown → Prop)
    : list Dispatch → St → list Invocation → Completion (Flow St R) → Prop :=
| loop_trace_done s : loop_trace evOf ctx obs step thrown [] s [] (Normal (Proceed s))
| loop_trace_stop d ds s inv :
    invocationOf d (evOf s) ctx obs inv →
    (∀ s', step s (inv_outcome inv) ≠ Normal (Proceed s')) →
    loop_trace evOf ctx obs step thrown (d :: ds) s [inv] (step s (inv_outcome inv))
| loop_trace_next d ds s inv s' invs c :
    invocationOf d (evOf s) ctx obs inv →
    step s (inv_outcome inv) = Normal (Proceed s') →
    loop_trace evOf ctx obs step thrown ds s' invs c →
    loop_trace evOf ctx obs step thrown (d :: ds) s (inv :: invs) c
| loop_trace_listener d ds s inv e :
    invocationOf d (evOf s) ctx obs inv →
    is_Some (hookErrorOf inv) →
    thrown e →
    loop_trace evOf ctx obs step thrown (d :: ds) s [inv] (Abrupt e).
End Dispatch.

Arguments Dispatch W : clear implicits.

(** How [emit] observes a handler call: without a timer for a session
    event with reason [before_compact], raced against the timer otherwise. *)
Definition emitObserves (ms : N) (ev : HookEvent) (b : Behaviour) : Outcome :=
  if isBeforeCompact ev then awaitOutcome b else raceOutcome ms b.

(** How the loop of [emit] reacts to the outcome of a handler call: a
    failure leaves the result as it was and goes on. *)
Definition emitStep (ev : HookEvent) (result : option HookResult) (o : Outcome)
    : Completion (Flow (option HookResult) (option HookResult)) :=
  match o with
  | Returned handlerResult =>
      let captured := isSession ev && bool_decide (is_Some handlerResult) in
      let result := if captured then handlerResult else result in
      if captured && from_option cancel false result then Normal (Return result)
      else
        let result :=
          if String.eqb (event_type ev) "tool_result" && bool_decide (is_Some handlerResult)
          then handlerResult else result in
        Normal (Proceed result)
  | Threw _ => Normal (Proceed result)
  | Hung => Never
  end.

(** The replacement messages a context handler call produced, if any. *)
Definition replacementOf (o : Outcome) : option (list AgentMessage) :=
  match o with
  | Returned (Some res) => result_messages res
  | _ => None
  end.


(** The message list in force after the calls [invs], starting from
    [msgs]: the latest replacement, or [msgs] when there is none. *)
Definition currentAfter (msgs : list AgentMessage) (invs : list Invocation)
    : list AgentMessage :=
  default msgs (last (omap (λ inv, replacementOf (inv_outcome inv)) invs)).


(** ** Sample data *)

Module Sample.

(** A stand-in estimator: summaries cost 50, assistant turns 150, any
    other message 10. *)
Definition estimate (m : AgentMessage) : Z :=
  match m with
  | CompactionSummaryMessage _ _ _ | BranchSummaryMessage _ _ _ => 50
  | AssistantMessage _ _ => 150
  | _ => 10
  end.

Definition entry (id : string) (parent : option string) (payload : EntryPayload)
    : SessionEntry :=
  {| entry_id := id; entry_parentId := parent; entry_timestamp := 0;
     entry_payload := payload |}.

Definition userEntry (id : string) (parent : option string) (text : string) : SessionEntry :=
  entry id parent (MessageEntry (UserMessage (ContentString text) 0)).

Definition writeCall : ContentBlock :=
  ToolCall "call-1" "write" (Some {[ "path" := JsString "a.txt" ]}).

Definition assistantEntry (id : string) (parent : option string) : SessionEntry :=
  entry id parent (MessageEntry (AssistantMessage [TextContent "writing"; writeCall] 0)).

(** A compaction summary followed by one user turn. *)
Definition summaryBranch : list SessionEntry :=
  [ entry "c1" None (CompactionEntry "earlier work" 4000);
    userEntry "u1" (Some "c1") "continue" ].

(** User turn, assistant turn writing [a.txt], user turn. *)
Definition writeBranch : list SessionEntry :=
  [ userEntry "m1" None "please write the file";
    assistantEntry "m2" (Some "m1");
    userEntry "m3" (Some "m2") "thanks" ].

Definition smallModel : Model := {| model_id := "small"; contextWindow := Some 1000 |}.

Definition options : GenerateBranchSummaryOptions :=
  {| opt_model := smallModel; opt_apiKey := "key"; opt_signal := 0%nat;
     opt_customInstructions := None; opt_reserveTokens := Some 900 |}.

(** A tree: root [r], its child [a], and the two children [b] and [c] of
    [a]. *)
Definition tree : list SessionEntry :=
  [ userEntry "r" None "root";
    userEntry "a" (Some "r") "first";
    userEntry "b" (Some "a") "left";
    userEntry "c" (Some "a") "right" ].

Definition session : ReadonlySessionManager := sessionOf tree.

Definition noResult : HookResult :=
  {| cancel := false; block := false; result_messages := None;
     result_payload := EmptyString |}.

Definition cancelResult : HookResult :=
  {| cancel := true; block := false; result_messages := None;
     result_payload := EmptyString |}.

Definition returning (value : option HookResult) : Handler unit :=
  λ _ _ w, (Prompt (Fulfilled value), w).

Definition rejecting (message : string) : Handler unit :=
  λ _ _ w, (Prompt (Rejected (ThrownError message)), w).

Definition stalling : Handler unit :=
  λ _ _ w, (Late None, w).

Definition hookWith (path eventType : string) (handlers : list (Handler unit))
    : LoadedHook unit :=
  {| hook_path := path; hook_handlers := {[ eventType := handlers ]} |}.

Definition runnerWith (hks : list (LoadedHook unit)) : HookRunner unit :=
  {| hooks := hks; hasUI := false; cwd := "/work"; timeout := 30000;
     errorListeners := [λ _ w, (None, w)] |}.

(** A listener that throws, and a runner with given listeners. *)
Definition throwingListener (message : string) : Listener unit :=
  λ _ w, (Some (ThrownError message), w).

Definition quietListener : Listener unit := λ _ w, (None, w).

Definition runnerListening (listeners : list (Listener unit)) (hks : list (LoadedHook unit))
    : HookRunner unit :=
  {| hooks := hks; hasUI := false; cwd := "/work"; timeout := 30000;
     errorListeners := listeners |}.

Definition sessionEvent (reason : string) : HookEvent :=
  {| event_type := "session"; event_reason := Some reason; event_messages := None |}.

Definition idle : RunnerState unit :=
  {| world := tt; nextTimer := 0; scheduled := []; timerDelay := λ _, 0%N; trace := [] |}.

End Sample.

(** ** Other methods of the hook runner *)

Section HookRegistry.
Context {W : Type}.

(** [hasHandlers(eventType)] *)
Fixpoint hasHandlersIn (eventType : string) (hks : list (LoadedHook W)) : bool :=
  match hks with
  | [] => false
  | hook :: rest =>
      match hook_handlers hook !! eventType with
      | Some handlers =>
          if (0 <? length handlers)%nat then true else hasHandlersIn eventType rest
      | None => hasHandlersIn eventType rest
      end
  end.

Definition hasHandlers (r : HookRunner W) (eventType : string) : bool :=
  hasHandlersIn eventType (hooks r).

(** [getHookPaths()] *)
Definition getHookPaths (r : HookRunner W) : list string := hook_path <$> hooks r.

(** The command map and the renderer map of a loaded hook are string-keyed
    [Map]s; [LoadedHook] above carries only what dispatch needs, so the
    map a lookup goes through is given by [registry].  A [Map] is its
    entries in insertion order. *)
Context {C : Type}.
Variable registry : LoadedHook W → list (string * C).

(** [Map.prototype.get] *)
Definition mapGet (m : list (string * C)) (key : string) : option C :=
  snd <$> List.find (λ kv, String.eqb kv.1 key) m.

(** [for (const hook of this.hooks) {
       const found = hook.<map>.get(name); if (found) return found; }
     return undefined;]
    the body shared by [getCommand] and [getMessageRenderer].  The values
    of both maps are objects, so [if (found)] holds for whatever the map
    returns. *)
Fixpoint firstRegistered (hks : list (LoadedHook W)) (name : string) : option C :=
  match hks with
  | [] => None
  | hook :: rest =>
      match mapGet (registry hook) name with
      | Some found => Some found
      | None => firstRegistered rest name
      end
  end.

Definition getCommand (r : HookRunner W) (name : string) : option C :=
  firstRegistered (hooks r) name.

Definition getMessageRenderer (r : HookRunner W) (customType : string) : option C :=
  firstRegistered (hooks r) customType.

(** [getRegisteredCommands()]: the values of every hook's command map, hook
    by hook. *)
Definition getRegisteredCommands (r : HookRunner W) : list C :=
  hook ← hooks r; snd <$> registry hook.
End HookRegistry.

(** How the loop of [emitToolCall] reacts to the outcome of a handler
    call: a failure is not caught. *)
Definition toolCallStep (result : option HookResult) (o : Outcome)
    : Completion (Flow (option HookResult) (option HookResult)) :=
  match o with
  | Returned handlerResult =>
      let result := if bool_decide (is_Some handlerResult) then handlerResult else result in
      if bool_decide (is_Some handlerResult) && from_option block false result
      then Normal (Return result)
      else Normal (Proceed result)
  | Threw err => Abrupt err
  | Hung => Never
  end.

(** The result a handler call contributes to what [emit] returns: results
    are kept for session and tool_result events only. *)
Definition capturedResult (ev : HookEvent) (inv : Invocation) : option HookResult :=
  match inv_outcome inv with
  | Returned (Some res) =>
      if isSession ev || String.eqb (event_type ev) "tool_result" then Some res else None
  | _ => None
  end.

(** The result a handler call hands to [emitToolCall]. *)
Definition returnedResult (inv : Invocation) : option HookResult :=
  match inv_outcome inv with
  | Returned value => value
  | _ => None
  end.

(** How a timed call went: the handler fulfilled before the timer fired,
    it rejected before the timer fired, or it was late. *)
Definition fulfilledPrompt (inv : Invocation) : bool :=
  match inv_behaviour inv with
  | Prompt (Fulfilled _) => true
  | _ => false
  end.

Definition rejectedPrompt (inv : Invocation) : bool :=
  match inv_behaviour inv with
  | Prompt (Rejected _) => true
  | _ => false
  end.

Definition timedOut (inv : Invocation) : bool :=
  match inv_behaviour inv with
  | Late _ => true
  | _ => false
  end.

(** The timers of the calls that [P] selects, when the calls [invs] take
    the timers [first], [first + 1], ... in order. *)
Fixpoint timersOf (P : Invocation → bool) (first : nat) (invs : list Invocation) : list nat :=
  match invs with
  | [] => []
  | inv :: rest => (if P inv then [first] else []) ++ timersOf P (S first) rest
  end.

(** The timers a trace shows being set, cleared and fired. *)
Definition timersSet (tr : list Obs) : list (nat * N) :=
  omap (λ o, match o with ObsTimerSet timer ms => Some (timer, ms) | _ => None end) tr.

Definition timersCleared (tr : list Obs) : list nat :=
  omap (λ o, match o with ObsTimerCleared timer => Some timer | _ => None end) tr.

Definition timersFired (tr : list Obs) : list nat :=
  omap (λ o, match o with ObsTimerFired timer => Some timer | _ => None end) tr.

(** What one pass through the body of a timed loop shows of its timer,
    from state [st] to state [st'] with the call [inv] and the trace
    [delta]: the timer is set, cleared when the handler fulfilled in time,
    fired when the handler was late, and neither when the handler rejected
    in time; no other timer is put on the schedule. *)
Definition timedPass {W : Type} (timed : bool) (ms : N) (st st' : RunnerState W)
    (inv : Invocation) (delta : list Obs) : Prop :=
  nextTimer st' = (if timed then S (nextTimer st) else nextTimer st) ∧
  timersSet delta = (if timed then [(nextTimer st, ms)] else []) ∧
  timersCleared delta = (if timed && fulfilledPrompt inv then [nextTimer st] else []) ∧
  timersFired delta = (if timed && timedOut inv then [nextTimer st] else []) ∧
  (∀ t, t ∈ scheduled st' →
        t ∈ scheduled st ∨ (timed && rejectedPrompt inv = true ∧ t = nextTimer st)).

(** ** File operations read off the entries *)

(** The set a tool name is recorded in. *)
Definition opsSet (name : string) (fileOps : FileOperations) : gset string :=
  if String.eqb name "read" then read fileOps
  else if String.eqb name "write" then written fileOps
  else if String.eqb name "edit" then edited fileOps
  else ∅.

(** [block] is a call of the tool [name] with the non-empty string [p] as
    its [path] argument. *)
Definition blockCalls (name p : string) (block : ContentBlock) : Prop :=
  ∃ callId args,
    block = ToolCall callId name (Some args) ∧
    args !! "path" = Some (JsString p) ∧ p ≠ EmptyString.

(** [msg] is an assistant message holding such a call. *)
Definition messageCalls (name p : string) (msg : AgentMessage) : Prop :=
  ∃ content ts, msg = AssistantMessage content ts ∧ ∃ block, block ∈ content ∧ blockCalls name p block.

(** ** Message transformation *)

Definition isBashExecutionMessage (msg : AgentMessage) : bool :=
  String.eqb (role msg) "bashExecution".

Definition isHookMessage (msg : AgentMessage) : bool :=
  String.eqb (role msg) "hookMessage".

Definition BACKTICK : string := String "096"%char EmptyString.

(** [bashExecutionToText], on the fields of a [BashExecutionMessage]. *)
Definition bashExecutionToText (command output : string) (exitCode : option Z)
    (cancelled truncated : bool) (fullOutputPath : option string) : string :=
  let text := "Ran " +:+ BACKTICK +:+ command +:+ BACKTICK +:+ LF in
  let text :=
    if String.eqb output EmptyString then text +:+ "(no output)"
    else text +:+ BACKTICK +:+ BACKTICK +:+ BACKTICK +:+ LF +:+ output +:+ LF
              +:+ BACKTICK +:+ BACKTICK +:+ BACKTICK in
  let text :=
    if cancelled then text +:+ LF +:+ LF +:+ "(command cancelled)"
    else
      match exitCode with
      | Some code =>
          if code =? 0 then text
          else text +:+ LF +:+ LF +:+ "Command exited with code " +:+ pretty code
      | None => text
      end in
  match fullOutputPath with
  | Some fullPath =>
      if truncated && negb (String.eqb fullPath EmptyString)
      then text +:+ LF +:+ LF +:+ "[Output truncated. Full output: " +:+ fullPath +:+ "]"
      else text
  | None => text
  end.

(** One message of [messageTransformer]'s [map]; [None] is the [null] the
    following [filter] drops. *)
Definition transformMessage (m : AgentMessage) : option AgentMessage :=
  match m with
  | BashExecutionMessage command output exitCode cancelled truncated fullOutputPath ts =>
      Some (UserMessage
              (ContentBlocks
                 [TextContent (bashExecutionToText command output exitCode cancelled
                                 truncated fullOutputPath)])
              ts)
  | HookMessage _ content _ _ ts =>
      let content :=
        match content with
        | ContentString s => ContentBlocks [TextContent s]
        | ContentBlocks bs => ContentBlocks bs
        end in
      Some (UserMessage content ts)
  | _ =>
      if String.eqb (role m) "user" || String.eqb (role m) "assistant"
         || String.eqb (role m) "toolResult"
      then Some m else None
  end.

Definition messageTransformer (msgs : list AgentMessage) : list AgentMessage :=
  omap transformMessage msgs.

(** ** The message transformer of the web interface example *)

Module WebUi.

(** The fields of an attachment that the transformer reads. *)
Record Attachment : Type := {
  attachment_type : string;
  attachment_content : string;
  mimeType : string;
  fileName : string;
  extractedText : option string;
}.

(** [TextContent | ImageContent] *)
Inductive Content : Type :=
| Text (text : string)
| Image (data : string) (mime : string).

Inductive UserContent : Type :=
| ContentText (s : string)
| ContentArray (blocks : list Content).

(** The messages of the example: the three kinds the model understands
    and the three custom kinds of the interface. *)
Inductive AgentMessage : Type :=
| UserMessage (content : UserContent) (timestamp : Z)
| AssistantMessage (content : list Content) (timestamp : Z)
| ToolResultMessage (toolCallId : string) (content : list Content) (timestamp : Z)
| UserMessageWithAttachments (content : UserContent) (timestamp : Z)
    (attachments : option (list Attachment))
| SystemNotificationMessage (message variant timestamp : string)
| ArtifactMessage (action filename : string) (content title : option string)
    (timestamp : string).

Definition role (m : AgentMessage) : string :=
  match m with
  | UserMessage _ _ => "user"
  | AssistantMessage _ _ => "assistant"
  | ToolResultMessage _ _ _ => "toolResult"
  | UserMessageWithAttachments _ _ _ => "user-with-attachments"
  | SystemNotificationMessage _ _ _ => "system-notification"
  | ArtifactMessage _ _ _ _ _ => "artifact"
  end.

(** One iteration of the loop of [convertAttachments]. *)
Definition pushAttachment (content : list Content) (attachment : Attachment) : list Content :=
  if String.eqb (attachment_type attachment) "image" then
    content ++ [Image (attachment_content attachment) (mimeType attachment)]
  else if String.eqb (attachment_type attachment) "document"
          && truthy (extractedText attachment) then
    content ++ [Text (LF +:+ LF +:+ "[Document: " +:+ fileName attachment +:+ "]" +:+ LF
                      +:+ default EmptyString (extractedText attachment))]
  else content.

Definition convertAttachments (attachments : list Attachment) : list Content :=
  foldl pushAttachment [] attachments.

(** The [filter] of [customMessageTransformer]. *)
Definition kept (m : AgentMessage) : bool :=
  if String.eqb (role m) "artifact" then false
  else String.eqb (role m) "user" || String.eqb (role m) "user-with-attachments"
       || String.eqb (role m) "assistant" || String.eqb (role m) "toolResult"
       || String.eqb (role m) "system-notification".

(** The [map] of [customMessageTransformer].  Every notification reads the
    clock; [clock k] is the reading of the [k]-th [Date.now()]. *)
Fixpoint convertFrom (clock : nat → Z) (k : nat) (msgs : list AgentMessage)
    : list AgentMessage :=
  match msgs with
  | [] => []
  | SystemNotificationMessage message _ _ :: rest =>
      UserMessage (ContentText ("<system>" +:+ message +:+ "</system>")) (clock k)
        :: convertFrom clock (S k) rest
  | UserMessageWithAttachments content timestamp attachments :: rest =>
      let textContent :=
        match content with
        | ContentText s => [Text s]
        | ContentArray blocks => blocks
        end in
      let textContent :=
        match attachments with
        | Some attachments => textContent ++ convertAttachments attachments
        | None => textContent
        end in
      UserMessage (ContentArray textContent) timestamp :: convertFrom clock k rest
  | m :: rest => m :: convertFrom clock k rest
  end.

Definition customMessageTransformer (clock : nat → Z) (msgs : list AgentMessage)
    : list AgentMessage :=
  convertFrom clock 0 (List.filter kept msgs).

(** An attachment that [convertAttachments] turns into a content block. *)
Definition convertible (attachment : Attachment) : bool :=
  String.eqb (attachment_type attachment) "image"
  || String.eqb (attachment_type attachment) "document"
     && truthy (extractedText attachment).

End WebUi.

(** ** More sample data *)

Module Demo.

Definition commands (hook : LoadedHook unit) : list (string * string) :=
  if String.eqb (hook_path hook) "first" then [("deploy", "deploy from first")]
  else [("deploy", "deploy from second"); ("status", "status from second")].

Definition plainHook (path : string) : LoadedHook unit :=
  {| hook_path := path; hook_handlers := ∅ |}.

Definition blockResult : HookResult :=
  {| cancel := false; block := true; result_messages := None;
     result_payload := "blocked" |}.

Definition toolCallEvent : HookEvent :=
  {| event_type := "tool_call"; event_reason := None; event_messages := None |}.

Definition turnEvent : HookEvent :=
  {| event_type := "turn_start"; event_reason := None; event_messages := None |}.

End Demo.

(** * Properties *)

(** ** Loops *)

Lemma run_all_for_each {E S : Type} (body : E → S → LoopStep S) es s s' :
  run_all body es s = Some s' → for_each body es s = s'.
Proof.
  revert s. induction es as [|e es IH]; intros s; simpl.
  - congruence.
  - destruct (body e s); [apply IH | discriminate].
Qed.

Lemma run_all_app {E S : Type} (body : E → S → LoopStep S) l1 l2 s s1 :
  run_all body l1 s = Some s1 → run_all body (l1 ++ l2) s = run_all body l2 s1.
Proof.
  revert s. induction l1 as [|e l1 IH]; intros s; simpl.
  - congruence.
  - destruct (body e s); [apply IH | discriminate].
Qed.

Lemma for_each_app {E S : Type} (body : E → S → LoopStep S) l1 l2 s s1 :
  run_all body l1 s = Some s1 → for_each body (l1 ++ l2) s = for_each body l2 s1.
Proof.
  revert s. induction l1 as [|e l1 IH]; intros s; simpl.
  - congruence.
  - destruct (body e s); [apply IH | discriminate].
Qed.

(** A loop either falls through every iteration or is cut at its first
    [break]. *)
Lemma for_each_cases {E S : Type} (body : E → S → LoopStep S) es s :
  run_all body es s = Some (for_each body es s) ∨
  ∃ l1 e l2 s1,
    es = l1 ++ e :: l2 ∧ run_all body l1 s = Some s1 ∧
    body e s1 = Break (for_each body es s).
Proof.
  revert s. induction es as [|e es IH]; intros s; simpl.
  - by left.
  - destruct (body e s) as [s'|s'] eqn:Hb.
    + destruct (IH s') as [Hall|(l1 & e' & l2 & s1 & -> & Hrun & Hbrk)].
      * by left.
      * right. exists (e :: l1), e', l2, s1. simpl. rewrite Hb. done.
    + right. exists [], e, es, s. simpl. by rewrite Hb.
Qed.

(** ** Branch preparation *)

Lemma sum_tokens_cons x l : sum_tokens (x :: l) = x + sum_tokens l.
Proof. reflexivity. Qed.

Lemma sum_tokens_app l1 l2 : sum_tokens (l1 ++ l2) = sum_tokens l1 + sum_tokens l2.
Proof. unfold sum_tokens. induction l1 as [|x l1 IH]; simpl; lia. Qed.

Lemma sum_tokens_reverse l : sum_tokens (reverse l) = sum_tokens l.
Proof.
  induction l as [|x l IH]; [done|].
  rewrite reverse_cons, sum_tokens_app, IH. unfold sum_tokens; simpl; lia.
Qed.

Lemma omap_reverse {A B} (f : A → option B) l : omap f (reverse l) = reverse (omap f l).
Proof.
  induction l as [|x l IH]; [done|].
  rewrite reverse_cons, omap_app, IH. simpl.
  destruct (f x); simpl; [by rewrite reverse_cons | by rewrite app_nil_r].
Qed.

Lemma entry_type_summary e :
  (String.eqb (entry_type e) "compaction" || String.eqb (entry_type e) "branch_summary") = true ↔
  entry_type e = "compaction" ∨ entry_type e = "branch_summary".
Proof.
  rewrite orb_true_iff, !String.eqb_eq. done.
Qed.

(** Case analysis on the scrutinee of the first [match] of the goal. *)
Ltac break_match :=
  match goal with
  | |- context [match ?x with _ => _ end] => destruct x eqn:?
  end.

(** Recording a tool call only ever adds paths. *)
Lemma recordToolCall_mono fo b :
  read fo ⊆ read (recordToolCall fo b) ∧
  written fo ⊆ written (recordToolCall fo b) ∧
  edited fo ⊆ edited (recordToolCall fo b).
Proof.
  unfold recordToolCall.
  repeat (break_match; cbn [read written edited]); set_solver.
Qed.

Lemma extract_blocks_mono content fo :
  read fo ⊆ read (foldl recordToolCall fo content) ∧
  written fo ⊆ written (foldl recordToolCall fo content) ∧
  edited fo ⊆ edited (foldl recordToolCall fo content).
Proof.
  revert fo. induction content as [|b content IH]; intros fo; simpl; [done|].
  destruct (IH (recordToolCall fo b)) as (Hr & Hw & He).
  destruct (recordToolCall_mono fo b) as (Hr' & Hw' & He').
  split_and!; etrans; eauto.
Qed.

Lemma recordToolCall_records fo callId name args path :
  args !! "path" = Some (JsString path) → path ≠ EmptyString →
  (name = "read" → path ∈ read (recordToolCall fo (ToolCall callId name (Some args)))) ∧
  (name = "write" → path ∈ written (recordToolCall fo (ToolCall callId name (Some args)))) ∧
  (name = "edit" → path ∈ edited (recordToolCall fo (ToolCall callId name (Some args)))).
Proof.
  intros Hpath Hne. unfold recordToolCall. rewrite Hpath.
  apply String.eqb_neq in Hne. rewrite Hne.
  split_and!; intros ->; simpl; set_solver.
Qed.

Lemma extract_blocks_records content fo callId name args path :
  ToolCall callId name (Some args) ∈ content →
  args !! "path" = Some (JsString path) → path ≠ EmptyString →
  (name = "read" → path ∈ read (foldl recordToolCall fo content)) ∧
  (name = "write" → path ∈ written (foldl recordToolCall fo content)) ∧
  (name = "edit" → path ∈ edited (foldl recordToolCall fo content)).
Proof.
  intros Hin Hpath Hne. revert fo.
  induction content as [|b content IH]; intros fo; [by apply elem_of_nil in Hin|].
  apply elem_of_cons in Hin as [<-|Hin]; simpl.
  - destruct (recordToolCall_records fo callId name args path Hpath Hne) as (Hr & Hw & He).
    destruct (extract_blocks_mono content (recordToolCall fo (ToolCall callId name (Some args))))
      as (Hr' & Hw' & He').
    split_and!; intros Hn; [apply Hr', Hr | apply Hw', Hw | apply He', He]; done.
  - by apply IH.
Qed.

Section PrepareFacts.
Variable estimateTokens : AgentMessage → Z.

Local Abbreviation step := (prepare_step estimateTokens).
Local Abbreviation cost l := (sum_tokens (estimateTokens <$> omap getMessageFromEntry l)).

Lemma cost_cons e l :
  cost (e :: l) =
  match getMessageFromEntry e with
  | Some m => estimateTokens m + cost l
  | None => cost l
  end.
Proof. simpl. by destruct (getMessageFromEntry e). Qed.

Lemma cost_nonneg l : (∀ m, 0 ≤ estimateTokens m) → 0 ≤ cost l.
Proof.
  intros Hnn. induction l as [|e l IH]; [done|].
  rewrite cost_cons. destruct (getMessageFromEntry e) as [m|]; [|done].
  specialize (Hnn m). lia.
Qed.

Lemma cost_reverse l : cost (reverse l) = cost l.
Proof. by rewrite omap_reverse, fmap_reverse, sum_tokens_reverse. Qed.

(** While no iteration breaks, every extractable message is admitted,
    the running total is the sum of the admitted costs, and a positive
    budget is respected. *)
Lemma run_all_prepare budget l st st' :
  run_all (step budget) l st = Some st' →
  messages st' = omap getMessageFromEntry (reverse l) ++ messages st ∧
  totalTokens st' = cost l + totalTokens st ∧
  (0 < budget → totalTokens st ≤ budget → totalTokens st' ≤ budget).
Proof.
  revert st. induction l as [|e l IH]; intros st.
  - intros [= <-]. split_and!; [done | unfold sum_tokens; simpl; lia | done].
  - rewrite cost_cons, reverse_cons, omap_app.
    cbn [run_all omap list_omap]. unfold prepare_step at 1.
    destruct (getMessageFromEntry e) as [m|] eqn:Hm.
    + destruct ((0 <? budget) && (budget <? totalTokens st + estimateTokens m)) eqn:Hover.
      { destruct (_ && (10 * _ <? _)); intros ?; discriminate. }
      intros Hrun. apply IH in Hrun as (Hmsgs & Htot & Hle).
      cbn [messages totalTokens] in *.
      split_and!.
      * rewrite Hmsgs, <- app_assoc. done.
      * lia.
      * intros Hb Hst. apply Hle; [done|].
        apply andb_false_iff in Hover as [Hover|Hover]; lia.
    + intros Hrun. apply IH in Hrun as (Hmsgs & Htot & Hle).
      rewrite app_nil_r. done.
Qed.

(** With a non-negative estimator, entries whose total cost fits the
    budget are all admitted. *)
Lemma run_all_fits budget l st :
  (∀ m, 0 ≤ estimateTokens m) →
  totalTokens st + cost l ≤ budget →
  is_Some (run_all (step budget) l st).
Proof.
  intros Hnn. revert st. induction l as [|e l IH]; intros st.
  - by eexists.
  - rewrite cost_cons. cbn [run_all]. unfold prepare_step at 1.
    pose proof (cost_nonneg l Hnn) as Hc.
    destruct (getMessageFromEntry e) as [m|] eqn:Hm.
    + intros Hfit.
      destruct ((0 <? budget) && (budget <? totalTokens st + estimateTokens m)) eqn:Hover.
      { apply andb_true_iff in Hover as [_ Hover]. specialize (Hnn m). lia. }
      apply IH. cbn [totalTokens]. lia.
    + apply IH.
Qed.

(** C1.  With a positive budget the prepared total never exceeds the
    budget, except in one situation: the loop stopped on a compaction or
    branch-summary entry [e] that it admitted although it did not fit.
    In that situation every extractable message newer than [e] was
    admitted within the budget, their total was below nine tenths of the
    budget, [e] is the oldest admitted message and nothing older than
    [e] was looked at; so the allowance is used at most once per call.
    In both situations the total is the sum of the admitted costs. *)
Theorem prepare_total_within_budget (entries : list SessionEntry) (tokenBudget : Z) :
  0 < tokenBudget →
  let r := prepareBranchEntries estimateTokens entries tokenBudget in
  totalTokens r = sum_tokens (estimateTokens <$> messages r) ∧
  (totalTokens r ≤ tokenBudget ∨
   ∃ older e m newer,
     entries = older ++ e :: newer ∧
     (entry_type e = "compaction" ∨ entry_type e = "branch_summary") ∧
     getMessageFromEntry e = Some m ∧
     cost newer ≤ tokenBudget ∧
     10 * cost newer < 9 * tokenBudget ∧
     tokenBudget < cost newer + estimateTokens m ∧
     messages r = m :: omap getMessageFromEntry newer ∧
     totalTokens r = cost newer + estimateTokens m).
Proof.
  intros Hb r. subst r. unfold prepareBranchEntries.
  set (init := {| messages := []; fileOps := noFileOps; totalTokens := 0 |}).
  destruct (for_each_cases (step tokenBudget) (reverse entries) init)
    as [Hall|(l1 & e & l2 & s1 & Hsplit & Hrun & Hbrk)];
    set (r := for_each (step tokenBudget) (reverse entries) init) in *; clearbody r.
  - apply run_all_prepare in Hall as (Hmsgs & Htot & Hle).
    subst init. cbn [messages totalTokens] in *.
    split; [|left; apply Hle; lia].
    rewrite Htot, Hmsgs, app_nil_r, reverse_involutive, cost_reverse. lia.
  - apply run_all_prepare in Hrun as (Hmsgs & Htot & Hle).
    subst init. cbn [messages totalTokens] in *.
    rewrite app_nil_r in Hmsgs. rewrite Z.add_0_r in Htot.
    specialize (Hle Hb ltac:(lia)).
    assert (entries = reverse l2 ++ e :: reverse l1) as Hentries.
    { rewrite <- (reverse_involutive entries), Hsplit, reverse_app, reverse_cons,
        <- app_assoc. done. }
    pose proof (cost_reverse l1) as Hcost.
    unfold prepare_step in Hbrk.
    destruct (getMessageFromEntry e) as [m|] eqn:Hm; [|discriminate].
    destruct ((0 <? tokenBudget) && (tokenBudget <? totalTokens s1 + estimateTokens m))
      eqn:Hover; [|discriminate].
    apply andb_true_iff in Hover as [_ Hover]. apply Z.ltb_lt in Hover.
    destruct ((String.eqb (entry_type e) "compaction"
               || String.eqb (entry_type e) "branch_summary")
              && (10 * totalTokens s1 <? 9 * tokenBudget)) eqn:Hallow;
      injection Hbrk as Hbrk; rewrite <- Hbrk; cbn [messages totalTokens].
    + apply andb_true_iff in Hallow as [Hkind Hnine].
      apply entry_type_summary in Hkind. apply Z.ltb_lt in Hnine.
      split.
      * rewrite Htot, Hmsgs, <- Hcost, fmap_cons, sum_tokens_cons. lia.
      * right. exists (reverse l2), e, m, (reverse l1).
        rewrite Hcost, <- Htot, Hmsgs.
        split_and!; try done; try lia.
    + split; [|by left].
      rewrite Htot, Hmsgs, <- Hcost. done.
Qed.
(** C10.  File operations are recorded before the budget test.  When
    every message newer than an assistant message fits the budget and
    the assistant message itself does not, the assistant message is left
    out of the prepared messages and of the total, yet the paths of its
    [read]/[write]/[edit] tool calls are in the returned [fileOps]. *)
Theorem prepare_records_fileops_before_budget
    (tokenBudget : Z) (older newer : list SessionEntry) (e : SessionEntry)
    (content : list ContentBlock) (ts : Z) :
  (∀ m, 0 ≤ estimateTokens m) →
  0 < tokenBudget →
  entry_payload e = MessageEntry (AssistantMessage content ts) →
  cost newer ≤ tokenBudget →
  tokenBudget < cost newer + estimateTokens (AssistantMessage content ts) →
  let r := prepareBranchEntries estimateTokens (older ++ e :: newer) tokenBudget in
  let r0 := prepareBranchEntries estimateTokens newer tokenBudget in
  messages r = omap getMessageFromEntry newer ∧
  messages r = messages r0 ∧
  totalTokens r = cost newer ∧
  fileOps r = extractFileOpsFromMessage (AssistantMessage content ts) (fileOps r0) ∧
  ∀ callId name args path,
    ToolCall callId name (Some args) ∈ content →
    args !! "path" = Some (JsString path) → path ≠ EmptyString →
    (name = "read" → path ∈ read (fileOps r)) ∧
    (name = "write" → path ∈ written (fileOps r)) ∧
    (name = "edit" → path ∈ edited (fileOps r)).
Proof.
  intros Hnn Hb He Hfit Hover r r0. subst r r0. unfold prepareBranchEntries.
  set (init := {| messages := []; fileOps := noFileOps; totalTokens := 0 |}).
  destruct (run_all_fits tokenBudget (reverse newer) init Hnn) as [s1 Hrun].
  { subst init. cbn [totalTokens]. rewrite cost_reverse. lia. }
  rewrite (run_all_for_each _ _ _ _ Hrun).
  rewrite reverse_app, reverse_cons, <- app_assoc.
  rewrite (for_each_app _ _ _ _ _ Hrun).
  apply run_all_prepare in Hrun as (Hmsgs & Htot & _).
  subst init. cbn [messages totalTokens] in *.
  rewrite app_nil_r, reverse_involutive in Hmsgs.
  rewrite Z.add_0_r, cost_reverse in Htot.
  assert (getMessageFromEntry e = Some (AssistantMessage content ts)) as Hm.
  { unfold getMessageFromEntry. by rewrite He. }
  assert (entry_type e = "message") as Hty.
  { unfold entry_type. by rewrite He. }
  assert (step tokenBudget e s1 =
          Break {| messages := messages s1;
                   fileOps := extractFileOpsFromMessage (AssistantMessage content ts)
                                (fileOps s1);
                   totalTokens := totalTokens s1 |}) as Hstep.
  { unfold prepare_step. rewrite Hm, Hty.
    replace (0 <? tokenBudget) with true by (symmetry; apply Z.ltb_lt; lia).
    replace (tokenBudget <? totalTokens s1 + estimateTokens (AssistantMessage content ts))
      with true by (symmetry; apply Z.ltb_lt; lia).
    done. }
  cbn [app for_each]. rewrite Hstep. cbn [messages totalTokens fileOps].
  split_and!; try done.
  intros callId name args path Hin Hpath Hne.
  by apply extract_blocks_records with callId args.
Qed.
End PrepareFacts.

(** ** The file-operations report *)

Lemma elem_of_modifiedSet fo p : p ∈ modifiedSet fo ↔ p ∈ edited fo ∨ p ∈ written fo.
Proof.
  unfold modifiedSet. by rewrite elem_of_list_to_set, elem_of_app, !elem_of_elements.
Qed.

Lemma sort_Permutation l : sort l ≡ₚ l.
Proof. apply merge_sort_Permutation. Qed.

Lemma elem_of_sort l p : p ∈ sort l ↔ p ∈ l.
Proof. by rewrite sort_Permutation. Qed.

Lemma NoDup_sort l : NoDup l → NoDup (sort l).
Proof. by rewrite sort_Permutation. Qed.

Lemma Sorted_sort l : Sorted String.le (sort l).
Proof. apply (Sorted_merge_sort String.le). Qed.

(** Sorting forgets the order of its input. *)
Lemma sort_unique l1 l2 : l1 ≡ₚ l2 → sort l1 = sort l2.
Proof.
  intros Hp. apply (Sorted_unique String.le); [apply Sorted_sort..|].
  by rewrite !sort_Permutation.
Qed.

Lemma elem_of_readOnlyFiles fo p :
  p ∈ readOnlyFiles fo ↔ (p ∈ read fo ∧ (p ∉ written fo) ∧ (p ∉ edited fo)).
Proof.
  unfold readOnlyFiles.
  rewrite elem_of_sort, list_elem_of_filter, elem_of_elements, elem_of_modifiedSet.
  tauto.
Qed.

Lemma elem_of_modifiedFiles fo p :
  p ∈ modifiedFiles fo ↔ p ∈ written fo ∨ p ∈ edited fo.
Proof.
  unfold modifiedFiles. rewrite elem_of_sort, elem_of_elements, elem_of_modifiedSet. tauto.
Qed.

Lemma length_modifiedFiles fo : length (modifiedFiles fo) = size (modifiedSet fo).
Proof. unfold modifiedFiles. by rewrite sort_Permutation. Qed.

Lemma recordToolCall_comm fo a b :
  recordToolCall (recordToolCall fo a) b = recordToolCall (recordToolCall fo b) a.
Proof.
  unfold recordToolCall.
  repeat (break_match; cbn [read written edited]); try done;
    f_equal; rewrite !(assoc_L (∪)); f_equal; apply (comm_L (∪)).
Qed.

Lemma extract_blocks_Permutation fo calls1 calls2 :
  calls1 ≡ₚ calls2 → foldl recordToolCall fo calls1 = foldl recordToolCall fo calls2.
Proof.
  intros Hp. revert fo.
  induction Hp as [|b l1 l2 _ IH|a b l|l1 l2 l3 _ IH1 _ IH2]; intros fo; simpl.
  - done.
  - apply IH.
  - by rewrite recordToolCall_comm.
  - by rewrite IH1.
Qed.

(** C7.  The report is a function of the three sets alone.  Its text is
    the read-files heading over [readOnlyFiles] followed by the
    modified-files heading over [modifiedFiles], a heading being left out
    when its list is empty.  [readOnlyFiles] holds exactly the paths read
    and neither written nor edited, [modifiedFiles] exactly the paths
    written or edited, so a path that was both read and modified is listed
    under the modified heading only.  Both lists are sorted and free of
    duplicates, and recording the same tool calls in another order gives
    the same text. *)
Theorem formatFileOperations_deterministic (fileOps : FileOperations) :
  formatFileOperations fileOps =
    match readOnlyFiles fileOps, modifiedFiles fileOps with
    | [], [] => EmptyString
    | readOnly, [] => LF +:+ LF +:+ readFilesSection readOnly
    | [], files => LF +:+ LF +:+ modifiedFilesSection files
    | readOnly, files =>
        LF +:+ LF +:+ readFilesSection readOnly +:+ LF +:+ LF +:+ modifiedFilesSection files
    end ∧
  (∀ p, p ∈ readOnlyFiles fileOps ↔
        (p ∈ read fileOps ∧ (p ∉ written fileOps) ∧ (p ∉ edited fileOps))) ∧
  (∀ p, p ∈ modifiedFiles fileOps ↔ p ∈ written fileOps ∨ p ∈ edited fileOps) ∧
  (∀ p, p ∈ read fileOps → p ∈ written fileOps ∨ p ∈ edited fileOps →
        p ∈ modifiedFiles fileOps ∧ p ∉ readOnlyFiles fileOps) ∧
  Sorted String.le (readOnlyFiles fileOps) ∧ NoDup (readOnlyFiles fileOps) ∧
  Sorted String.le (modifiedFiles fileOps) ∧ NoDup (modifiedFiles fileOps) ∧
  (∀ calls1 calls2 : list ContentBlock,
     calls1 ≡ₚ calls2 →
     formatFileOperations (foldl recordToolCall fileOps calls1) =
     formatFileOperations (foldl recordToolCall fileOps calls2)).
Proof.
  split_and!.
  - unfold formatFileOperations. rewrite <- length_modifiedFiles.
    destruct (readOnlyFiles fileOps) as [|r rs], (modifiedFiles fileOps) as [|m ms];
      reflexivity.
  - apply elem_of_readOnlyFiles.
  - apply elem_of_modifiedFiles.
  - intros p Hr Hm. rewrite elem_of_modifiedFiles, elem_of_readOnlyFiles. tauto.
  - apply Sorted_sort.
  - apply NoDup_sort, NoDup_filter, NoDup_elements.
  - apply Sorted_sort.
  - apply NoDup_sort, NoDup_elements.
  - intros calls1 calls2 Hp. by rewrite (extract_blocks_Permutation _ _ _ Hp).
Qed.

(** ** Summary generation *)

Lemma tokenBudgetOf_fallback options :
  contextWindow (opt_model options) = None →
  tokenBudgetOf options = 128000 - default 16384 (opt_reserveTokens options).
Proof. unfold tokenBudgetOf. by intros ->. Qed.

(** C8.  When no message survives preparation under the computed budget
    (context window, or 128000 when it is unknown or zero, minus the
    reserve, 16384 by default), the generator is the pure computation
    returning the fixed summary: it holds no request to the completion
    function, and running it against any clock and any completion function
    records no request. *)
Theorem generateBranchSummary_no_content
    (estimateTokens : AgentMessage → Z) (entries : list SessionEntry)
    (options : GenerateBranchSummaryOptions) :
  messages
    (prepareBranchEntries estimateTokens entries
       (number_or (contextWindow (opt_model options)) 128000
        - default 16384 (opt_reserveTokens options))) = [] →
  generateBranchSummary estimateTokens entries options =
    Pure {| summary := Some "No content to summarize"; aborted := None; error := None |} ∧
  ∀ now complete,
    run now complete (generateBranchSummary estimateTokens entries options) =
    ({| summary := Some "No content to summarize"; aborted := None; error := None |}, []).
Proof.
  intros Hempty. change (number_or _ _ - _) with (tokenBudgetOf options) in Hempty.
  assert (generateBranchSummary estimateTokens entries options =
          Pure {| summary := Some "No content to summarize"; aborted := None; error := None |})
    as Hgen.
  { unfold generateBranchSummary. by rewrite Hempty. }
  split; [done|]. intros now complete. by rewrite Hgen.
Qed.

(** ** Entry collection *)

Section Collector.
Local Open Scope nat_scope.
Variable session : ReadonlySessionManager.

(** The store hands back the entry whose id was asked for, and no entry
    carries the empty id (which the collector treats as absent). *)
Hypothesis getEntry_id : ∀ id e, getEntry session id = Some e → entry_id e = id.
Hypothesis getEntry_empty : getEntry session EmptyString = None.

Lemma ancestor_path_det start p p' :
  ancestor_path session start p → ancestor_path session start p' → p = p'.
Proof.
  intros Hp. revert p'.
  induction Hp as [|id Hnone|id e p He _ IH]; intros p' Hp'; inversion Hp'; simplify_eq; try done.
  f_equal. by apply IH.
Qed.

(** Every suffix of an ancestor path is the ancestor path of its head. *)
Lemma ancestor_path_drop start p i e :
  ancestor_path session start p → p !! i = Some e →
  ancestor_path session (Some (entry_id e)) (drop i p).
Proof.
  intros Hp. revert i.
  induction Hp as [|id Hnone|id e' p He' Hp IH]; intros i Hi; try done.
  destruct i as [|i]; simpl in *.
  - simplify_eq. rewrite (getEntry_id _ _ He'). by constructor.
  - by apply IH.
Qed.

Lemma ancestor_path_NoDup start p :
  ancestor_path session start p → NoDup (entry_id <$> p).
Proof.
  intros Hp. induction Hp as [|id Hnone|id e p He Hp IH]; try constructor; [|done].
  intros Hin. apply list_elem_of_fmap in Hin as (e' & Hid & Hin).
  apply list_elem_of_lookup in Hin as [i Hi].
  assert (ancestor_path session (Some id) (e :: p)) as Hfull by by constructor.
  pose proof (ancestor_path_drop _ _ (S i) e' Hfull Hi) as Hsuffix.
  rewrite <- Hid, (getEntry_id _ _ He) in Hsuffix.
  pose proof (ancestor_path_det _ _ _ Hfull Hsuffix) as Heq.
  apply (f_equal length) in Heq. simpl in Heq. rewrite length_drop in Heq. lia.
Qed.

(** The scan returns the id of the first entry of the target path that is
    on the old path, if there is one. *)
Lemma findCommonAncestor_spec oldPath targetPath :
  match findCommonAncestor oldPath targetPath with
  | Some c =>
      ∃ pre e post, targetPath = pre ++ e :: post ∧ entry_id e = c ∧ c ∈ oldPath ∧
                    Forall (λ e', entry_id e' ∉ oldPath) pre
  | None => Forall (λ e', entry_id e' ∉ oldPath) targetPath
  end.
Proof.
  unfold findCommonAncestor.
  induction targetPath as [|e l IH]; simpl; [done|].
  case_bool_decide as Hin.
  - exists [], e, l. done.
  - destruct (for_each _ l None) as [c|].
    + destruct IH as (pre & e' & post & -> & Hc & Hcin & Hpre).
      exists (e :: pre), e', post. split_and!; try done. by constructor.
    + by constructor.
Qed.

(** The walk from a position collects the entries of its ancestor path
    that come before the common ancestor. *)
Lemma collectWalk_spec ca start p :
  ancestor_path session start p →
  ∀ fuel acc, length p < fuel →
  ∃ pre rest,
    p = pre ++ rest ∧
    collectWalk fuel session ca start acc = Some (acc ++ pre) ∧
    Forall (λ e, Some (entry_id e) ≠ ca) pre ∧
    match rest with
    | [] => True
    | e :: _ => ca = Some (entry_id e)
    end.
Proof.
  induction 1 as [|id Hnone|id e p He Hp IH]; intros fuel acc Hfuel.
  - exists [], []. destruct fuel; [simpl in *; lia|]. simpl.
    rewrite app_nil_r. done.
  - exists [], []. destruct fuel; [simpl in *; lia|]. simpl. rewrite Hnone, app_nil_r.
    by destruct (_ && _).
  - destruct fuel as [|fuel]; [simpl in *; lia|].
    assert (id ≠ EmptyString) as Hne by (intros ->; congruence).
    simpl. apply String.eqb_neq in Hne. rewrite Hne. simpl.
    case_bool_decide as Hca; simpl.
    + exists [], (e :: p). rewrite app_nil_r. split_and!; try done.
      by rewrite <- Hca, (getEntry_id _ _ He).
    + rewrite He.
      destruct (IH fuel (acc ++ [e])) as (pre & rest & -> & Hwalk & Hpre & Hrest).
      { simpl in Hfuel. lia. }
      exists (e :: pre), rest. rewrite Hwalk, <- app_assoc. split_and!; try done.
      constructor; [|done]. by rewrite (getEntry_id _ _ He).
Qed.

(** C9.  For a present [oldLeafId] whose parent chain is the finite path
    [p] (from the leaf towards the root, ending at the root or at the last
    resolvable entry), the collector returns, given enough fuel for the
    walk, the entries of [p] that precede the common ancestor, in reverse
    (chronological) order: [p] is the reversed result followed by a rest
    that is empty or starts with the common ancestor.  No returned entry
    carries the id of the returned common ancestor. *)
Theorem collect_entries_exclude_common_ancestor (oldLeafId targetId : string)
    (p : list SessionEntry) (fuel : nat) :
  ancestor_path session (Some oldLeafId) p →
  length p < fuel →
  ∃ r rest,
    collectEntriesForBranchSummary fuel session (Some oldLeafId) targetId = Some r ∧
    (∀ e, e ∈ entries r → Some (entry_id e) ≠ commonAncestorId r) ∧
    p = reverse (entries r) ++ rest ∧
    match rest with
    | [] => True
    | e :: _ => commonAncestorId r = Some (entry_id e)
    end.
Proof.
  intros Hp Hfuel. unfold collectEntriesForBranchSummary.
  destruct (truthy (Some oldLeafId)) eqn:Htruthy; simpl.
  - set (ca := findCommonAncestor _ _).
    destruct (collectWalk_spec ca _ _ Hp fuel [] Hfuel) as (pre & rest & -> & Hwalk & Hpre & Hrest).
    rewrite Hwalk. simpl. eexists _, rest. split; [done|]. simpl.
    rewrite reverse_involutive. split_and!; try done.
    intros e He. rewrite elem_of_reverse in He.
    by eapply Forall_forall in Hpre.
  - apply negb_false_iff, String.eqb_eq in Htruthy as ->.
    inversion Hp as [|id Hnone|id e p' He Hp']; subst.
    + by exists {| entries := []; commonAncestorId := None |}, [].
    + congruence.
Qed.

(** C2.  Let the paths of [oldLeafId] and [targetId] be their ancestor
    paths (leaf first), both non-empty and ending in the same root.  Then,
    given enough fuel for the walk, the collector returns a common
    ancestor [ca] that lies on both paths, and no id common to both paths
    stands before [ca] on either path, that is, closer to either leaf. *)
Theorem collect_returns_lowest_common_ancestor (oldLeafId targetId : string)
    (root : SessionEntry) :
  let oldIds := entry_id <$> getPath session oldLeafId in
  let targetIds := entry_id <$> getPath session targetId in
  ancestor_path session (Some oldLeafId) (getPath session oldLeafId) →
  ancestor_path session (Some targetId) (getPath session targetId) →
  last (getPath session oldLeafId) = Some root →
  last (getPath session targetId) = Some root →
  ∃ ca,
    (∀ fuel, length (getPath session oldLeafId) < fuel →
       ∃ r, collectEntriesForBranchSummary fuel session (Some oldLeafId) targetId = Some r ∧
            commonAncestorId r = Some ca) ∧
    ca ∈ oldIds ∧ ca ∈ targetIds ∧
    (∀ i j x, targetIds !! i = Some ca → targetIds !! j = Some x → x ∈ oldIds → i ≤ j) ∧
    (∀ i j x, oldIds !! i = Some ca → oldIds !! j = Some x → x ∈ targetIds → i ≤ j).
Proof.
  intros oldIds targetIds Hold Htarget Hroot1 Hroot2.
  set (P1 := getPath session oldLeafId) in *.
  set (P2 := getPath session targetId) in *.
  pose proof (ancestor_path_NoDup _ _ Hold) as Hnd1.
  pose proof (ancestor_path_NoDup _ _ Htarget) as Hnd2.
  fold oldIds in Hnd1. fold targetIds in Hnd2.
  set (oldPath := list_to_set oldIds : gset string).
  assert (∀ x, x ∈ oldPath ↔ x ∈ oldIds) as HoldPath.
  { intros x. unfold oldPath. apply elem_of_list_to_set. }
  pose proof (findCommonAncestor_spec oldPath P2) as Hscan.
  destruct (findCommonAncestor oldPath P2) as [ca|] eqn:Hca.
  2:{ (* the shared root is on both paths *)
      exfalso. apply last_Some_elem_of in Hroot1, Hroot2.
      eapply Forall_forall in Hscan; [|exact Hroot2].
      apply Hscan, HoldPath, list_elem_of_fmap_2, Hroot1. }
  destruct Hscan as (pre & e & post & HP2 & Hid & Hin & Hpre).
  assert (targetIds !! length pre = Some ca) as Hat.
  { unfold targetIds. rewrite HP2, list_lookup_fmap, list_lookup_middle by done.
    simpl. by rewrite Hid. }
  assert (∀ j x, targetIds !! j = Some x → x ∈ oldIds → length pre ≤ j) as Hfirst.
  { intros j x Hj Hx. destruct (decide (length pre ≤ j)) as [|Hlt]; [done|]. exfalso.
    unfold targetIds in Hj. rewrite HP2, list_lookup_fmap, lookup_app_l in Hj by lia.
    destruct (pre !! j) as [e'|] eqn:He'; simplify_eq/=.
    eapply Forall_lookup_1 in Hpre; [|exact He']. by apply Hpre, HoldPath. }
  exists ca. split_and!.
  - intros fuel Hfuel. unfold collectEntriesForBranchSummary.
    assert (oldLeafId ≠ EmptyString) as Hne.
    { intros ->. subst P1. destruct (getPath session EmptyString) as [|e0 q]; [done|].
      inversion Hold; congruence. }
    simpl. apply String.eqb_neq in Hne. rewrite Hne. simpl.
    fold P1 oldIds oldPath P2. rewrite Hca.
    destruct (collectWalk_spec (Some ca) _ _ Hold fuel [] Hfuel)
      as (pre' & rest & _ & Hwalk & _).
    rewrite Hwalk. simpl. by eexists.
  - by apply HoldPath.
  - by eapply list_elem_of_lookup_2.
  - intros i j x Hi Hj Hx.
    rewrite (NoDup_lookup _ _ _ _ Hnd2 Hi Hat). by eapply Hfirst.
  - intros i j x Hi Hj Hx.
    destruct (decide (i ≤ j)) as [|Hlt]; [done|]. exfalso.
    apply list_elem_of_lookup in Hx as [k Hk].
    assert (length pre ≤ k) as Hmk.
    { eapply Hfirst; [exact Hk|]. by eapply list_elem_of_lookup_2. }
    assert (k ≠ length pre) as Hkm.
    { intros ->. rewrite Hat in Hk. simplify_eq.
      pose proof (NoDup_lookup _ _ _ _ Hnd1 Hi Hj). lia. }
    (* the two paths agree from the common ancestor upwards *)
    unfold oldIds in Hi. rewrite list_lookup_fmap in Hi.
    destruct (P1 !! i) as [e1|] eqn:He1; [|done]. simpl in Hi. injection Hi as Hi.
    assert (P2 !! length pre = Some e) as He2 by (by rewrite HP2, list_lookup_middle).
    pose proof (ancestor_path_drop _ _ _ _ Hold He1) as Hs1.
    pose proof (ancestor_path_drop _ _ _ _ Htarget He2) as Hs2.
    rewrite Hi in Hs1. rewrite Hid in Hs2.
    pose proof (ancestor_path_det _ _ _ Hs1 Hs2) as Hsame.
    assert (oldIds !! (i + (k - length pre)) = Some x) as Hj'.
    { unfold oldIds. rewrite list_lookup_fmap, <- lookup_drop, <- list_lookup_fmap, Hsame.
      rewrite list_lookup_fmap, lookup_drop, <- list_lookup_fmap.
      replace (length pre + (k - length pre)) with k by lia. done. }
    pose proof (NoDup_lookup _ _ _ _ Hnd1 Hj Hj'). lia.
Qed.
End Collector.

(** ** Hook runner *)

Lemma invocations_app tr1 tr2 : invocations (tr1 ++ tr2) = invocations tr1 ++ invocations tr2.
Proof. apply omap_app. Qed.

Lemma deliveries_app l tr1 tr2 : deliveries l (tr1 ++ tr2) = deliveries l tr1 ++ deliveries l tr2.
Proof. apply omap_app. Qed.

Section HookFacts.
Local Open Scope nat_scope.
Context {W : Type}.
Implicit Types (r : HookRunner W) (st : RunnerState W) (hook : LoadedHook W).

(** Notifying the listeners calls no handler and touches no timer.  When
    it returns, the error was delivered once to each listener; when it
    throws, a listener threw, and each listener was delivered the error at
    most once. *)
Lemma notify_spec (listeners : list (Listener W)) l err st :
  ∃ delta,
    trace (notify listeners l err st).2 = trace st ++ delta ∧
    invocations delta = [] ∧
    scheduled (notify listeners l err st).2 = scheduled st ∧
    nextTimer (notify listeners l err st).2 = nextTimer st ∧
    timerDelay (notify listeners l err st).2 = timerDelay st ∧
    (∀ o, o ∈ delta → ∃ l', o = ObsError l' err) ∧
    (∀ l', l' < l → deliveries l' delta = []) ∧
    match (notify listeners l err st).1 with
    | Normal _ =>
        ∀ l', deliveries l' delta =
              if bool_decide (l ≤ l' < l + length listeners) then [err] else []
    | Abrupt e =>
        (∃ listener err' w, listener ∈ listeners ∧ (listener err' w).1 = Some e) ∧
        ∀ l', deliveries l' delta `prefix_of` [err]
    | Never => False
    end.
Proof.
  revert l st. induction listeners as [|f ls IH]; intros l st; cbn [notify].
  - exists []. cbn [fst snd length]. rewrite app_nil_r. split_and!; try done.
    + intros o Hin. by apply elem_of_nil in Hin.
    + intros l'. case_bool_decide; [lia|done].
  - destruct (f err (world st)) as [thrown w] eqn:Hf.
    assert (∀ l', deliveries l' [ObsError l err] = if decide (l = l') then [err] else [])
      as Hone by (intros l'; unfold deliveries; simpl; by destruct (decide (l = l'))).
    destruct thrown as [e|].
    + exists [ObsError l err].
      cbn [fst snd observe withWorld trace scheduled nextTimer timerDelay].
      split_and!; try done.
      * intros o ->%list_elem_of_singleton. by exists l.
      * intros l' Hl'. rewrite Hone. destruct (decide (l = l')); [lia|done].
      * exists f, err, (world st). split; [by left|by rewrite Hf].
      * intros l'. rewrite Hone. destruct (decide (l = l')); [done|]. by exists [err].
    + destruct (IH (S l) (observe (ObsError l err) (withWorld w st)))
        as (delta & Htr & Hinv & Hsch & Hnext & Hdelay & Hobs & Hbelow & Hres).
      exists (ObsError l err :: delta). rewrite Htr, Hsch, Hnext, Hdelay.
      cbn [fst snd observe withWorld trace scheduled nextTimer timerDelay length].
      rewrite <- app_assoc.
      assert (∀ l', deliveries l' (ObsError l err :: delta) =
                    (if decide (l = l') then [err] else []) ++ deliveries l' delta) as Hcons.
      { intros l'. rewrite <- Hone. apply (deliveries_app l' [ObsError l err] delta). }
      split_and!; try done.
      * intros o [->|Hin]%elem_of_cons; [by exists l|by apply Hobs].
      * intros l' Hl'. rewrite Hcons, Hbelow by lia. destruct (decide (l = l')); [lia|done].
      * destruct (notify ls (S l) err _).1 as [[]|e|]; [| |done].
        -- intros l'. rewrite Hcons, Hres. destruct (decide (l = l')) as [<-|Hne].
           ++ rewrite bool_decide_eq_false_2 by lia. rewrite bool_decide_eq_true_2 by lia. done.
           ++ repeat case_bool_decide; try done; lia.
        -- destruct Hres as [(g & err' & w' & Hin & Hg) Hpre]. split.
           ++ exists g, err', w'. split; [by right|done].
           ++ intros l'. rewrite Hcons. destruct (decide (l = l')) as [<-|Hne]; [|apply Hpre].
              rewrite Hbelow by lia. done.
Qed.

Ltac notify_cases delta Htr Hinvs Hobs Hres e :=
  match goal with
  | |- context [notify ?ls 0 ?herr ?s] =>
      destruct (notify_spec ls 0 herr s)
        as (delta & Htr & Hinvs & _ & _ & _ & Hobs & _ & Hres);
      destruct (notify ls 0 herr s) as [[[]|e|] ?]; cbn [fst snd] in *; [| |done]
  end.

(** One pass through the body of [emit]'s loop calls the handler once.
    It reacts to the observed outcome as [emitStep] says, having delivered
    the error of a failed call to every listener once; or, the call having
    failed, it ends with what a listener threw. *)
Lemma emitBody_step r ev ctx i hook k (h : Handler W) result st :
  ∃ inv delta,
    trace (emitBody r ev ctx i hook k h result st).2 = trace st ++ delta ∧
    invocations delta = [inv] ∧
    invocationOf {| d_hook := i; d_loaded := hook; d_index := k; d_handler := h |}
      ev ctx (emitObserves (timeout r) ev) inv ∧
    (∀ l, deliveries l delta `prefix_of` option_list (hookErrorOf inv)) ∧
    (((emitBody r ev ctx i hook k h result st).1 = emitStep ev result (inv_outcome inv) ∧
      ∀ l, l < length (errorListeners r) → deliveries l delta = option_list (hookErrorOf inv)) ∨
     (is_Some (hookErrorOf inv) ∧
      ∃ e, listenerThrows r e ∧ (emitBody r ev ctx i hook k h result st).1 = Abrupt e)).
Proof.
  set (d := {| d_hook := i; d_loaded := hook; d_index := k; d_handler := h |}).
  destruct (h ev ctx (world st)) as [b w] eqn:Hh.
  pose (mk := λ o, {| inv_hook := i; inv_path := hook_path hook; inv_handler := k;
                      inv_event := ev; inv_behaviour := b; inv_outcome := o |}).
  assert (∀ o, o = emitObserves (timeout r) ev b →
          invocationOf d ev ctx (emitObserves (timeout r) ev) (mk o)) as Hinv.
  { intros o ->. unfold invocationOf. simpl. split_and!; try done.
    exists (world st). by rewrite Hh. }
  unfold emitBody, try_catch, bind, awaitHandler, raceHandler,
    createTimeout, clearTimeout, emitError, ret.
  unfold emitObserves in *.
  destruct (isBeforeCompact ev) eqn:Hbc; simpl; rewrite Hh.
  - destruct (awaitOutcome b) as [v|err|] eqn:Ho; simpl.
    + exists (mk (Returned v)), [ObsInvoke (mk (Returned v))].
      split_and!; [|done|by apply Hinv|done|].
      * by destruct (_ && _).
      * left. split; [|done]. simpl. unfold emitStep. by destruct (_ && _).
    + notify_cases delta Htr Hinvs Hobs Hres e.
      * exists (mk (Threw err)), (ObsInvoke (mk (Threw err)) :: delta).
        rewrite Htr. simpl. rewrite <- app_assoc. simpl.
        split_and!; [done| |by apply Hinv| |].
        -- unfold invocations in *. simpl. by rewrite Hinvs.
        -- intros l. unfold deliveries in *. simpl. rewrite Hres. simpl.
           case_bool_decide; [done|by eexists].
        -- left. split; [done|]. intros l Hl.
           unfold deliveries in *. simpl. rewrite Hres.
           by rewrite bool_decide_eq_true_2 by lia.
      * destruct Hres as [Hthrown Hpre].
        exists (mk (Threw err)), (ObsInvoke (mk (Threw err)) :: delta).
        rewrite Htr. simpl. rewrite <- app_assoc. simpl.
        split_and!; [done| |by apply Hinv| |].
        -- unfold invocations in *. simpl. by rewrite Hinvs.
        -- intros l. unfold deliveries in *. simpl. apply Hpre.
        -- right. split; [by eexists|]. by exists e.
    + exists (mk Hung), [ObsInvoke (mk Hung)].
      split_and!; [done|done|by apply Hinv|done|by left].
  - destruct b as [[v|err]|s]; simpl.
    + exists (mk (Returned v)),
        [ObsTimerSet (nextTimer st) (timeout r); ObsInvoke (mk (Returned v));
         ObsTimerCleared (nextTimer st)].
      split_and!; [|done|by apply Hinv|done|].
      * destruct (_ && _); simpl; by rewrite <- !app_assoc.
      * left. split; [|done]. simpl. unfold emitStep. by destruct (_ && _).
    + notify_cases delta Htr Hinvs Hobs Hres e.
      * exists (mk (Threw err)),
          (ObsTimerSet (nextTimer st) (timeout r) :: ObsInvoke (mk (Threw err)) :: delta).
        rewrite Htr. simpl. rewrite <- !app_assoc. simpl.
        split_and!; [done| |by apply Hinv| |].
        -- unfold invocations in *. simpl. by rewrite Hinvs.
        -- intros l. unfold deliveries in *. simpl. rewrite Hres.
           simpl. case_bool_decide; [done|by eexists].
        -- left. split; [done|]. intros l Hl.
           unfold deliveries in *. simpl. rewrite Hres.
           by rewrite bool_decide_eq_true_2 by lia.
      * destruct Hres as [Hthrown Hpre].
        exists (mk (Threw err)),
          (ObsTimerSet (nextTimer st) (timeout r) :: ObsInvoke (mk (Threw err)) :: delta).
        rewrite Htr. simpl. rewrite <- !app_assoc. simpl.
        split_and!; [done| |by apply Hinv| |].
        -- unfold invocations in *. simpl. by rewrite Hinvs.
        -- intros l. unfold deliveries in *. simpl. apply Hpre.
        -- right. split; [by eexists|]. by exists e.
    + notify_cases delta Htr Hinvs Hobs Hres e.
      * exists (mk (Threw (timeoutError (timeout r)))),
          (ObsTimerSet (nextTimer st) (timeout r) :: ObsTimerFired (nextTimer st)
           :: ObsInvoke (mk (Threw (timeoutError (timeout r)))) :: delta).
        rewrite Htr. simpl. rewrite <- !app_assoc. simpl.
        split_and!; [done| |by apply Hinv| |].
        -- unfold invocations in *. simpl. by rewrite Hinvs.
        -- intros l.
           unfold deliveries in *. simpl. rewrite Hres.
           simpl. case_bool_decide; [done|by eexists].
        -- left. split; [done|]. intros l Hl.
           unfold deliveries in *. simpl. rewrite Hres.
           by rewrite bool_decide_eq_true_2 by lia.
      * destruct Hres as [Hthrown Hpre].
        exists (mk (Threw (timeoutError (timeout r)))),
          (ObsTimerSet (nextTimer st) (timeout r) :: ObsTimerFired (nextTimer st)
           :: ObsInvoke (mk (Threw (timeoutError (timeout r)))) :: delta).
        rewrite Htr. simpl. rewrite <- !app_assoc. simpl.
        split_and!; [done| |by apply Hinv| |].
        -- unfold invocations in *. simpl. by rewrite Hinvs.
        -- intros l.
           unfold deliveries in *. simpl. apply Hpre.
        -- right. split; [by eexists|]. by exists e.
Qed.


(** *** The nested loops as one loop over the dispatch order *)

Lemma forHandlers_flat {St R : Type}
    (body : nat → LoadedHook W → nat → Handler W → St → Async W (Flow St R))
    i hook k (hs : list (Handler W)) (s : St) st :
  forHandlers (body i hook) k hs s st = forDispatch body (dispatchHandlers i hook k hs) s st.
Proof.
  revert k s st. induction hs as [|h hs IH]; intros k s st; simpl; [done|].
  unfold bind. destruct (body i hook k h s st) as [[[s'|v]|err|] st']; simpl; auto.
Qed.

Lemma forDispatch_app {St R : Type}
    (body : nat → LoadedHook W → nat → Handler W → St → Async W (Flow St R))
    (l1 l2 : list (Dispatch W)) (s : St) st :
  forDispatch body (l1 ++ l2) s st =
  bind (forDispatch body l1 s)
    (λ f, match f with
          | Proceed s' => forDispatch body l2 s'
          | Return v => ret (Return v)
          end) st.
Proof.
  revert s st. induction l1 as [|d l1 IH]; intros s st; simpl; [done|].
  unfold bind.
  destruct (body _ _ _ _ s st) as [[[s'|v]|err|] st']; simpl; done.
Qed.

Lemma forHooks_flat {St R : Type} eventType
    (body : nat → LoadedHook W → nat → Handler W → St → Async W (Flow St R))
    i (hks : list (LoadedHook W)) (s : St) st :
  forHooks eventType body i hks s st = forDispatch body (dispatchFrom eventType i hks) s st.
Proof.
  revert i s st. induction hks as [|hook hks IH]; intros i s st; [done|].
  cbn [forHooks dispatchFrom].
  destruct (hook_handlers hook !! eventType) as [[|h hs]|]; cbn [default from_option id];
    [apply IH| |apply IH].
  change (length (h :: hs) =? 0) with false. cbv iota.
  rewrite forDispatch_app. unfold bind. rewrite <- forHandlers_flat.
  destruct (forHandlers (body i hook) 0 (h :: hs) s st) as [[[s'|v]|err|] st']; auto.
Qed.

(** A loop whose body calls one handler per pass, reacts by [step] and
    reports failures to the listeners, leaves a trace described by
    [loop_trace].  Each listener is delivered errors of failed calls, in
    order; when no listener throws, each of the first [n] listeners is
    delivered the error of every failed call. *)
Lemma forDispatch_trace {St R : Type}
    (body : nat → LoadedHook W → nat → Handler W → St → Async W (Flow St R))
    (evOf : St → HookEvent) (ctx : HookEventContext) (obs : Behaviour → Outcome)
    (step : St → Outcome → Completion (Flow St R)) (thrown : Thrown → Prop) (n : nat) :
  (∀ i hook k h s st, ∃ inv delta,
      trace (body i hook k h s st).2 = trace st ++ delta ∧
      invocations delta = [inv] ∧
      invocationOf {| d_hook := i; d_loaded := hook; d_index := k; d_handler := h |}
        (evOf s) ctx obs inv ∧
      (∀ l, deliveries l delta `prefix_of` option_list (hookErrorOf inv)) ∧
      (((body i hook k h s st).1 = step s (inv_outcome inv) ∧
        ∀ l, l < n → deliveries l delta = option_list (hookErrorOf inv)) ∨
       (is_Some (hookErrorOf inv) ∧ ∃ e, thrown e ∧ (body i hook k h s st).1 = Abrupt e))) →
  ∀ ds s st, ∃ delta,
    trace (forDispatch body ds s st).2 = trace st ++ delta ∧
    loop_trace evOf ctx obs step thrown ds s (invocations delta)
      (forDispatch body ds s st).1 ∧
    (∀ l, l < n → deliveries l delta `prefix_of` omap hookErrorOf (invocations delta)) ∧
    ((∀ e, ¬ thrown e) →
     ∀ l, l < n → deliveries l delta = omap hookErrorOf (invocations delta)).
Proof.
  intros Hbody ds. induction ds as [|d ds IH]; intros s st.
  - exists []. simpl. rewrite app_nil_r. split_and!; try done. constructor.
  - destruct d as [i hook k h]. simpl. unfold bind.
    destruct (Hbody i hook k h s st) as (inv & delta & Htr & Hinvs & Hof & Hpre & Hstep).
    destruct (body i hook k h s st) as [c st'] eqn:Hb. cbn [fst snd] in *.
    assert (omap hookErrorOf [inv] = option_list (hookErrorOf inv)) as Hone
      by (simpl; by destruct (hookErrorOf inv)).
    assert ((∀ s', c ≠ Normal (Proceed s')) →
            loop_trace evOf ctx obs step thrown
              ({| d_hook := i; d_loaded := hook; d_index := k; d_handler := h |} :: ds)
              s (invocations delta) c ∧
            (∀ l, l < n → deliveries l delta `prefix_of` omap hookErrorOf (invocations delta)) ∧
            ((∀ e, ¬ thrown e) →
             ∀ l, l < n → deliveries l delta = omap hookErrorOf (invocations delta)))
      as Hstop.
    { intros Hc. rewrite Hinvs, Hone. split_and!.
      - destruct Hstep as [[Hstep _]|(Herr & e & He & Hc')].
        + rewrite Hstep. apply loop_trace_stop; [done|]. intros s'. by rewrite <- Hstep.
        + rewrite Hc'. by apply loop_trace_listener.
      - intros l _. apply Hpre.
      - intros Hquiet l Hl. destruct Hstep as [[_ Hdel]|(_ & e & He & _)]; [by apply Hdel|].
        by destruct (Hquiet e). }
    destruct c as [[s'|v]|err|].
    + destruct Hstep as [[Hstep Hdel]|(_ & e & _ & [=])].
      destruct (IH s' st') as (delta' & Htr' & Hloop & Hpre' & Hdel').
      exists (delta ++ delta'). rewrite Htr', Htr, <- app_assoc, invocations_app, Hinvs.
      split_and!; try done.
      * simpl. by eapply loop_trace_next.
      * intros l Hl. rewrite deliveries_app, (Hdel l Hl). cbn [app omap list_omap].
        destruct (hookErrorOf inv); cbn [option_list app]; [apply prefix_cons|]; by apply Hpre'.
      * intros Hquiet l Hl. rewrite deliveries_app, (Hdel l Hl), (Hdel' Hquiet l Hl).
        cbn [app omap list_omap]. by destruct (hookErrorOf inv).
    + exists delta. simpl. split; [done|]. by apply Hstop.
    + exists delta. simpl. split; [done|]. by apply Hstop.
    + exists delta. simpl. split; [done|]. by apply Hstop.
Qed.

(** *** What a loop trace says *)

(** The calls are those of an initial stretch of the dispatch order, one
    call per handler, in order. *)
Lemma loop_trace_calls {St R : Type} (evOf : St → HookEvent) ctx obs
    (step : St → Outcome → Completion (Flow St R)) thrown (ds : list (Dispatch W)) s invs c :
  loop_trace evOf ctx obs step thrown ds s invs c →
  Forall2 (λ d inv, ∃ s', invocationOf d (evOf s') ctx obs inv) (take (length invs) ds) invs.
Proof.
  induction 1 as [s|d ds s inv Hof Hstop|d ds s inv s' invs c Hof Hstep Hloop IH
                  |d ds s inv e Hof Herr He]; simpl.
  - constructor.
  - rewrite take_0. constructor; [by exists s|constructor].
  - constructor; [by exists s|done].
  - rewrite take_0. constructor; [by exists s|constructor].
Qed.

(** A loop that runs to its end has called every handler. *)
Lemma loop_trace_complete {St R : Type} (evOf : St → HookEvent) ctx obs
    (step : St → Outcome → Completion (Flow St R)) thrown (ds : list (Dispatch W)) s invs s' :
  loop_trace evOf ctx obs step thrown ds s invs (Normal (Proceed s')) →
  length invs = length ds.
Proof.
  remember (Normal (Proceed s')) as c eqn:Hc. intros Hloop. revert s' Hc.
  induction Hloop as [s|d ds s inv Hof Hstop|d ds s inv s1 invs c Hof Hstep Hloop IH
                      |d ds s inv e Hof Herr He];
    intros s2 Hc; simpl.
  - done.
  - by destruct (Hstop s2).
  - f_equal. by eapply IH.
  - done.
Qed.

Lemma loop_trace_nonempty {St R : Type} (evOf : St → HookEvent) ctx obs
    (step : St → Outcome → Completion (Flow St R)) thrown d (ds : list (Dispatch W)) s invs c :
  loop_trace evOf ctx obs step thrown (d :: ds) s invs c → 0 < length invs.
Proof. inversion 1; simpl; lia. Qed.

Lemma quietListeners_no_throw r : quietListeners r → ∀ e, ¬ listenerThrows r e.
Proof.
  intros Hquiet e (listener & err & w & Hin & Hthrows).
  by rewrite (Hquiet listener err w Hin) in Hthrows.
Qed.

Lemma hookErrorOf_Some inv : is_Some (hookErrorOf inv) ↔ ∃ err, inv_outcome inv = Threw err.
Proof.
  unfold hookErrorOf. destruct (inv_outcome inv) as [v|err|]; split;
    try (by intros [? ?]); eauto.
Qed.

Lemma emitStep_not_abrupt ev result o err : emitStep ev result o ≠ Abrupt err.
Proof. unfold emitStep. destruct o; [|done..]. by destruct (_ && _). Qed.

(** The loop of [emit] ends by throwing only with what a listener threw
    while the last call, a failed one, was reported. *)
Lemma emit_trace_abrupt ev ctx obs thrown (ds : list (Dispatch W)) result invs c err :
  loop_trace (λ _, ev) ctx obs (emitStep ev) thrown ds result invs c →
  c = Abrupt err →
  thrown err ∧ ∃ inv, last invs = Some inv ∧ is_Some (hookErrorOf inv).
Proof.
  induction 1 as [s|d ds s inv Hof Hstop|d ds s inv s' invs c Hof Hstep Hloop IH
                  |d ds s inv e Hof Herr He]; intros Hc.
  - done.
  - by apply emitStep_not_abrupt in Hc.
  - destruct (IH Hc) as (Hthrown & inv' & Hlast & Herr). split; [done|].
    exists inv'. split; [|done]. rewrite last_cons, Hlast. done.
  - injection Hc as ->. split; [done|]. by exists inv.
Qed.

Lemma emit_trace_not_abrupt ev ctx obs thrown (ds : list (Dispatch W)) result invs c err :
  (∀ e, ¬ thrown e) →
  loop_trace (λ _, ev) ctx obs (emitStep ev) thrown ds result invs c → c ≠ Abrupt err.
Proof.
  intros Hquiet Hloop Hc. destruct (emit_trace_abrupt _ _ _ _ _ _ _ _ _ Hloop Hc) as [He _].
  by destruct (Hquiet err).
Qed.

(** After a failed call the loop of [emit] goes on to the next handler,
    when no listener throws. *)
Lemma emit_trace_continues ev ctx obs thrown (ds : list (Dispatch W)) result invs c :
  (∀ e, ¬ thrown e) →
  loop_trace (λ _, ev) ctx obs (emitStep ev) thrown ds result invs c →
  ∀ n inv err, invs !! n = Some inv → inv_outcome inv = Threw err →
               S n < length ds → S n < length invs.
Proof.
  intros Hquiet.
  induction 1 as [s|d ds s inv Hof Hstop|d ds s inv s' invs c Hof Hstep Hloop IH
                  |d ds s inv e Hof Herr He];
    intros n inv' err Hn Hout Hlen.
  - done.
  - destruct n as [|n]; [|done]. simpl in Hn. injection Hn as <-.
    exfalso. apply (Hstop s). by rewrite Hout.
  - destruct n as [|n]; simpl in *.
    + destruct ds as [|d' ds]; [simpl in Hlen; lia|].
      apply loop_trace_nonempty in Hloop. lia.
    + apply ->Nat.succ_lt_mono. eapply IH; [done..|lia].
  - by destruct (Hquiet e).
Qed.

(** A session-event call that returns a result with [cancel] set is the
    last call, and its result is what the loop returns. *)
Lemma emit_trace_cancel ev ctx obs thrown (ds : list (Dispatch W)) result invs c :
  event_type ev = "session" →
  loop_trace (λ _, ev) ctx obs (emitStep ev) thrown ds result invs c →
  ∀ n inv v, invs !! n = Some inv → inv_outcome inv = Returned (Some v) →
             cancel v = true →
             c = Normal (Return (Some v)) ∧ length invs = S n.
Proof.
  intros Hty.
  assert (∀ s v, cancel v = true →
                 emitStep ev s (Returned (Some v)) = Normal (Return (Some v))) as Hcancel.
  { intros s v Hv. unfold emitStep, isSession. rewrite Hty. simpl. by rewrite Hv. }
  induction 1 as [s|d ds s inv Hof Hstop|d ds s inv s' invs c Hof Hstep Hloop IH
                  |d ds s inv e Hof Herr He];
    intros n inv' v Hn Hout Hv.
  - done.
  - destruct n as [|n]; [|done]. simpl in Hn. injection Hn as <-.
    rewrite Hout, Hcancel by done. done.
  - destruct n as [|n]; simpl in Hn.
    + injection Hn as <-. rewrite Hout, Hcancel in Hstep by done. done.
    + destruct (IH n inv' v) as [-> Hlen]; try done. simpl. by rewrite Hlen.
  - destruct n as [|n]; [|done]. simpl in Hn. injection Hn as <-.
    apply hookErrorOf_Some in Herr as [err Herr]. congruence.
Qed.

Lemma emit_flat r ev st :
  emit r ev st =
  bind (forDispatch (emitBody r ev (createContext r)) (dispatchOrder (event_type ev) r) None)
    (λ f, match f with
          | Proceed result => ret result
          | Return result => ret result
          end) st.
Proof. unfold emit, bind. by rewrite forHooks_flat. Qed.

(** The trace of the loop of [emit]. *)
Lemma emit_loop r ev st :
  ∃ delta,
    trace (forDispatch (emitBody r ev (createContext r))
             (dispatchOrder (event_type ev) r) None st).2 = trace st ++ delta ∧
    loop_trace (λ _, ev) (createContext r) (emitObserves (timeout r) ev) (emitStep ev)
      (listenerThrows r) (dispatchOrder (event_type ev) r) None (invocations delta)
      (forDispatch (emitBody r ev (createContext r))
         (dispatchOrder (event_type ev) r) None st).1 ∧
    (∀ l, l < length (errorListeners r) →
          deliveries l delta `prefix_of` omap hookErrorOf (invocations delta)) ∧
    ((∀ e, ¬ listenerThrows r e) →
     ∀ l, l < length (errorListeners r) →
          deliveries l delta = omap hookErrorOf (invocations delta)).
Proof.
  apply (forDispatch_trace (emitBody r ev (createContext r)) (λ _, ev)
           (createContext r) (emitObserves (timeout r) ev) (emitStep ev)
           (listenerThrows r) (length (errorListeners r))
           (emitBody_step r ev (createContext r))).
Qed.

(** C3 (amended).  When no error listener throws, [emit] never completes
    by throwing, whatever the handlers do.  The handler calls it makes
    are those of an initial stretch of the dispatch order, each observed
    through the timer race (or awaited without a timer for
    [before_compact]); a handler that rejects, and a timed handler that
    is late, are observed as failed calls.  Every registered listener is
    delivered exactly the errors of the failed calls, one [HookError] per
    failed call, in order; and a failed call is never the last one while
    the dispatch order has a next handler. *)
Theorem emit_isolates_handler_failures r (ev : HookEvent) st :
  quietListeners r →
  let res := emit r ev st in
  let order := dispatchOrder (event_type ev) r in
  ∃ delta,
    let invs := invocations delta in
    trace res.2 = trace st ++ delta ∧
    (∀ err, res.1 ≠ Abrupt err) ∧
    Forall2 (λ d inv, invocationOf d ev (createContext r) (emitObserves (timeout r) ev) inv)
      (take (length invs) order) invs ∧
    (∀ l, l < length (errorListeners r) → deliveries l delta = omap hookErrorOf invs) ∧
    (∀ n inv err, invs !! n = Some inv → inv_outcome inv = Threw err →
                  S n < length order → S n < length invs) ∧
    (∀ err, emitObserves (timeout r) ev (Prompt (Rejected err)) = Threw err) ∧
    (∀ s, isBeforeCompact ev = false →
          emitObserves (timeout r) ev (Late s) = Threw (timeoutError (timeout r))).
Proof.
  intros Hquiet res order. subst res.
  pose proof (quietListeners_no_throw r Hquiet) as Hnone. clear Hquiet. rename Hnone into Hquiet.
  rewrite emit_flat. fold order. unfold bind.
  destruct (emit_loop r ev st) as (delta & Htr & Hloop & _ & Hdel). fold order in Htr, Hloop.
  exists delta.
  pose proof (λ err, emit_trace_not_abrupt _ _ _ _ _ _ _ _ err Hquiet Hloop) as Hsafe.
  pose proof (emit_trace_continues _ _ _ _ _ _ _ _ Hquiet Hloop) as Hnext.
  pose proof (loop_trace_calls _ _ _ _ _ _ _ _ _ Hloop) as Hcalls.
  destruct (forDispatch _ order None st) as [c st'] eqn:Hrun. simpl in *.
  split_and!.
  - by destruct c as [[?|?]|?|].
  - intros err. destruct c as [[?|?]|err'|]; try done. by destruct (Hsafe err').
  - eapply Forall2_impl; [exact Hcalls|]. by intros d inv [_ ?].
  - by apply Hdel.
  - done.
  - intros err. unfold emitObserves. by destruct (isBeforeCompact ev).
  - intros s Hbc. unfold emitObserves. by rewrite Hbc.
Qed.

(** C4.  On a session event, a handler call that returns a result with
    [cancel] set is the last call of the emission: the calls made are
    those of the dispatch order up to and including it, and [emit]
    returns that result. *)
Theorem emit_cancel_stops_dispatch r (ev : HookEvent) st :
  event_type ev = "session" →
  let res := emit r ev st in
  let order := dispatchOrder "session" r in
  ∃ delta,
    let invs := invocations delta in
    trace res.2 = trace st ++ delta ∧
    Forall2 (λ d inv, invocationOf d ev (createContext r) (emitObserves (timeout r) ev) inv)
      (take (length invs) order) invs ∧
    ∀ n inv v, invs !! n = Some inv → inv_outcome inv = Returned (Some v) →
               cancel v = true →
               res.1 = Normal (Some v) ∧ length invs = S n.
Proof.
  intros Hty res order. subst res. rewrite emit_flat.
  destruct (emit_loop r ev st) as (delta & Htr & Hloop & _). revert Htr Hloop.
  rewrite Hty. fold order. unfold bind. intros Htr Hloop.
  exists delta.
  pose proof (emit_trace_cancel _ _ _ _ _ _ _ _ Hty Hloop) as Hcancel.
  pose proof (loop_trace_calls _ _ _ _ _ _ _ _ _ Hloop) as Hcalls.
  destruct (forDispatch _ order None st) as [c st'] eqn:Hrun. simpl in *.
  split_and!.
  - by destruct c as [[?|?]|?|].
  - eapply Forall2_impl; [exact Hcalls|]. by intros d inv [_ ?].
  - intros n inv v Hn Hout Hv. destruct (Hcancel n inv v Hn Hout Hv) as [-> Hlen]. done.
Qed.

(** *** Context events *)

Lemma currentAfter_nil msgs : currentAfter msgs [] = msgs.
Proof. done. Qed.





Lemma emitContext_flat r msgs st :
  emitContext r msgs st =
  bind (forDispatch (contextBody r (createContext r)) (dispatchOrder "context" r) (msgs, false))
    (λ f, match f with
          | Proceed (currentMessages, modified) =>
              ret (if modified then Some currentMessages else None)
          | Return v => ret v
          end) st.
Proof. unfold emitContext, bind. by rewrite forHooks_flat. Qed.

End HookFacts.

(** ** The properties on sample data *)

Lemma sample_estimate_nonneg (m : AgentMessage) : 0 ≤ Sample.estimate m.
Proof. destruct m; simpl; lia. Qed.

Lemma sessionOf_getEntry_id (file : list SessionEntry) (id : string) (e : SessionEntry) :
  getEntry (sessionOf file) id = Some e → entry_id e = id.
Proof.
  simpl. intros Hfind. apply find_some in Hfind as [_ Heq]. by apply String.eqb_eq.
Qed.

(** Walking to the root computes the ancestor path, as long as the walk
    ends before its fuel does. *)
Lemma walkToRoot_ancestor_path (session : ReadonlySessionManager) (fuel : nat)
    (start : option string) :
  (length (walkToRoot (getEntry session) fuel start) < fuel)%nat →
  ancestor_path session start (walkToRoot (getEntry session) fuel start).
Proof.
  revert start. induction fuel as [|fuel IH]; intros start Hlen; [simpl in Hlen; lia|].
  destruct start as [id|]; [|apply ancestor_path_root].
  cbn [walkToRoot] in *.
  destruct (getEntry session id) as [e|] eqn:He.
  - apply ancestor_path_step; [done|]. apply IH. simpl in Hlen. lia.
  - by apply ancestor_path_missing.
Qed.

Lemma sample_path_b :
  ancestor_path Sample.session (Some "b") (getPath Sample.session "b").
Proof. apply (walkToRoot_ancestor_path Sample.session 4 (Some "b")). vm_compute. lia. Qed.

Lemma sample_path_c :
  ancestor_path Sample.session (Some "c") (getPath Sample.session "c").
Proof. apply (walkToRoot_ancestor_path Sample.session 4 (Some "c")). vm_compute. lia. Qed.

(** The summary branch under a budget of 20: the user turn costs 10, the
    compaction summary 50 does not fit, and is admitted because 10 is
    below nine tenths of 20. *)
Lemma prepare_total_within_budget_witness :
  0 < 20 ∧
  let r := prepareBranchEntries Sample.estimate Sample.summaryBranch 20 in
  totalTokens r = sum_tokens (Sample.estimate <$> messages r) ∧
  (totalTokens r ≤ 20 ∨
   ∃ older e m newer,
     Sample.summaryBranch = older ++ e :: newer ∧
     (entry_type e = "compaction" ∨ entry_type e = "branch_summary") ∧
     getMessageFromEntry e = Some m ∧
     sum_tokens (Sample.estimate <$> omap getMessageFromEntry newer) ≤ 20 ∧
     10 * sum_tokens (Sample.estimate <$> omap getMessageFromEntry newer) < 9 * 20 ∧
     20 < sum_tokens (Sample.estimate <$> omap getMessageFromEntry newer) + Sample.estimate m ∧
     messages r = m :: omap getMessageFromEntry newer ∧
     totalTokens r =
       sum_tokens (Sample.estimate <$> omap getMessageFromEntry newer) + Sample.estimate m).
Proof.
  split; [lia|].
  apply (prepare_total_within_budget Sample.estimate Sample.summaryBranch 20). lia.
Defined.

Example prepare_summary_past_budget :
  totalTokens (prepareBranchEntries Sample.estimate Sample.summaryBranch 20) = 60.
Proof. reflexivity. Qed.

(** The write branch under a budget of 100: the newest user turn fits,
    the assistant turn does not, and [a.txt] is recorded all the same. *)
Lemma prepare_records_fileops_before_budget_witness :
  let content := [TextContent "writing"; Sample.writeCall] in
  let older := [Sample.userEntry "m1" None "please write the file"] in
  let e := Sample.assistantEntry "m2" (Some "m1") in
  let newer := [Sample.userEntry "m3" (Some "m2") "thanks"] in
  let r := prepareBranchEntries Sample.estimate (older ++ e :: newer) 100 in
  let r0 := prepareBranchEntries Sample.estimate newer 100 in
  ((∀ m, 0 ≤ Sample.estimate m) ∧ 0 < 100 ∧
   entry_payload e = MessageEntry (AssistantMessage content 0) ∧
   sum_tokens (Sample.estimate <$> omap getMessageFromEntry newer) ≤ 100 ∧
   100 < sum_tokens (Sample.estimate <$> omap getMessageFromEntry newer)
         + Sample.estimate (AssistantMessage content 0)) ∧
  messages r = omap getMessageFromEntry newer ∧
  messages r = messages r0 ∧
  totalTokens r = sum_tokens (Sample.estimate <$> omap getMessageFromEntry newer) ∧
  fileOps r = extractFileOpsFromMessage (AssistantMessage content 0) (fileOps r0) ∧
  ∀ callId name args path,
    ToolCall callId name (Some args) ∈ content →
    args !! "path" = Some (JsString path) → path ≠ EmptyString →
    (name = "read" → path ∈ read (fileOps r)) ∧
    (name = "write" → path ∈ written (fileOps r)) ∧
    (name = "edit" → path ∈ edited (fileOps r)).
Proof.
  assert (sum_tokens
            (Sample.estimate <$>
               omap getMessageFromEntry [Sample.userEntry "m3" (Some "m2") "thanks"]) = 10)
    as Hcost by reflexivity.
  split.
  { split_and!; [exact sample_estimate_nonneg|lia|reflexivity|rewrite Hcost; lia|
                 rewrite Hcost; simpl; lia]. }
  apply (prepare_records_fileops_before_budget Sample.estimate 100
           [Sample.userEntry "m1" None "please write the file"]
           [Sample.userEntry "m3" (Some "m2") "thanks"]
           (Sample.assistantEntry "m2" (Some "m1"))
           [TextContent "writing"; Sample.writeCall] 0).
  - exact sample_estimate_nonneg.
  - lia.
  - reflexivity.
  - rewrite Hcost. lia.
  - rewrite Hcost. simpl. lia.
Defined.

Example prepare_write_branch :
  let r := prepareBranchEntries Sample.estimate Sample.writeBranch 100 in
  messages r = [UserMessage (ContentString "thanks") 0] ∧
  elements (written (fileOps r)) = ["a.txt"].
Proof. split; reflexivity. Qed.

Example formatFileOperations_sample :
  formatFileOperations
    {| read := {[ "b.txt"; "a.txt" ]}; written := {[ "a.txt" ]};
       edited := {[ "z.txt"; "c.txt" ]} |}
  = LF +:+ LF +:+ "<read-files>" +:+ LF +:+ "b.txt" +:+ LF +:+ "</read-files>"
    +:+ LF +:+ LF +:+ "<modified-files>" +:+ LF +:+ "a.txt" +:+ LF +:+ "c.txt" +:+ LF
    +:+ "z.txt" +:+ LF +:+ "</modified-files>".
Proof. vm_compute. reflexivity. Qed.

(** A 1000-token window with 900 reserved leaves a budget of 100; a lone
    assistant turn of 150 tokens does not fit, so nothing is asked of the
    completion function. *)
Lemma generateBranchSummary_no_content_witness :
  let entries := [Sample.assistantEntry "m2" None] in
  messages
    (prepareBranchEntries Sample.estimate entries
       (number_or (contextWindow (opt_model Sample.options)) 128000
        - default 16384 (opt_reserveTokens Sample.options))) = [] ∧
  generateBranchSummary Sample.estimate entries Sample.options =
    Pure {| summary := Some "No content to summarize"; aborted := None; error := None |} ∧
  ∀ now complete,
    run now complete (generateBranchSummary Sample.estimate entries Sample.options) =
    ({| summary := Some "No content to summarize"; aborted := None; error := None |}, []).
Proof.
  split; [reflexivity|].
  apply (generateBranchSummary_no_content Sample.estimate
           [Sample.assistantEntry "m2" None] Sample.options).
  reflexivity.
Defined.

(** In the sample tree the walk from [b] towards [c] stops below their
    common parent [a]. *)
Lemma collect_entries_exclude_common_ancestor_witness :
  ancestor_path Sample.session (Some "b") (getPath Sample.session "b") ∧
  (length (getPath Sample.session "b") < 4)%nat ∧
  ∃ r rest,
    collectEntriesForBranchSummary 4 Sample.session (Some "b") "c" = Some r ∧
    (∀ e, e ∈ entries r → Some (entry_id e) ≠ commonAncestorId r) ∧
    getPath Sample.session "b" = reverse (entries r) ++ rest ∧
    match rest with
    | [] => True
    | e :: _ => commonAncestorId r = Some (entry_id e)
    end.
Proof.
  split; [exact sample_path_b|]. split; [vm_compute; lia|].
  apply (collect_entries_exclude_common_ancestor Sample.session
           (sessionOf_getEntry_id Sample.tree) eq_refl "b" "c"
           (getPath Sample.session "b") 4 sample_path_b).
  vm_compute. lia.
Defined.

Lemma collect_returns_lowest_common_ancestor_witness :
  let oldIds := entry_id <$> getPath Sample.session "b" in
  let targetIds := entry_id <$> getPath Sample.session "c" in
  last (getPath Sample.session "b") = Some (Sample.userEntry "r" None "root") ∧
  last (getPath Sample.session "c") = Some (Sample.userEntry "r" None "root") ∧
  ∃ ca,
    (∀ fuel, (length (getPath Sample.session "b") < fuel)%nat →
       ∃ r, collectEntriesForBranchSummary fuel Sample.session (Some "b") "c" = Some r ∧
            commonAncestorId r = Some ca) ∧
    ca ∈ oldIds ∧ ca ∈ targetIds ∧
    (∀ i j x, targetIds !! i = Some ca → targetIds !! j = Some x → x ∈ oldIds → (i ≤ j)%nat) ∧
    (∀ i j x, oldIds !! i = Some ca → oldIds !! j = Some x → x ∈ targetIds → (i ≤ j)%nat).
Proof.
  split; [reflexivity|]. split; [reflexivity|].
  apply (collect_returns_lowest_common_ancestor Sample.session
           (sessionOf_getEntry_id Sample.tree) eq_refl "b" "c"
           (Sample.userEntry "r" None "root") sample_path_b sample_path_c);
    reflexivity.
Defined.

Example collect_sample :
  collectEntriesForBranchSummary 4 Sample.session (Some "b") "c" =
  Some {| entries := [Sample.userEntry "b" (Some "a") "left"];
          commonAncestorId := Some "a" |}.
Proof. reflexivity. Qed.

(** *** Timers *)

Section TimerFacts.
Context {W : Type}.

(** A handler that rejects before the timer fires leaves the timer on the
    schedule: the [catch] branch does not clear it. *)
Lemma emitBody_rejection_keeps_timer (r : HookRunner W) ev ctx i hook k (h : Handler W)
    result st err w :
  isBeforeCompact ev = false →
  h ev ctx (world st) = (Prompt (Rejected err), w) →
  scheduled (emitBody r ev ctx i hook k h result st).2 = nextTimer st :: scheduled st.
Proof.
  intros Hbc Hh.
  unfold emitBody, try_catch, bind, raceHandler, createTimeout, clearTimeout, emitError, ret.
  rewrite Hbc. simpl. rewrite Hh. simpl.
  match goal with
  | |- context [notify ?ls 0 ?e ?s] =>
      destruct (notify_spec ls 0 e s) as (_ & _ & _ & Hsch & _);
      destruct (notify ls 0 e s) as [[[]|?|] ?]
  end; exact Hsch.
Qed.

(** A handler that fulfils in time has its timer cleared. *)
Lemma emitBody_timer_released (r : HookRunner W) ev ctx i hook k (h : Handler W)
    result st v w :
  isBeforeCompact ev = false →
  h ev ctx (world st) = (Prompt (Fulfilled v), w) →
  scheduled (emitBody r ev ctx i hook k h result st).2 =
  filter (λ t, t ≠ nextTimer st) (nextTimer st :: scheduled st).
Proof.
  intros Hbc Hh.
  unfold emitBody, try_catch, bind, raceHandler, createTimeout, clearTimeout, emitError, ret.
  rewrite Hbc. simpl. rewrite Hh. simpl. by destruct (_ && _).
Qed.

(** When a handler is late its timer fires, and with it the timers left
    behind earlier with a delay that is not longer. *)
Lemma emitBody_timer_fired (r : HookRunner W) ev ctx i hook k (h : Handler W)
    result st late w :
  isBeforeCompact ev = false →
  h ev ctx (world st) = (Late late, w) →
  scheduled (emitBody r ev ctx i hook k h result st).2 =
  filter (λ t, t ≠ nextTimer st ∧ (timeout r < timerDelay st t)%N) (scheduled st).
Proof.
  intros Hbc Hh.
  unfold emitBody, try_catch, bind, raceHandler, createTimeout, clearTimeout, emitError, ret.
  rewrite Hbc. simpl. rewrite Hh. simpl.
  match goal with
  | |- context [notify ?ls 0 ?e ?s] =>
      destruct (notify_spec ls 0 e s) as (_ & _ & _ & Hsch & _);
      destruct (notify ls 0 e s) as [[[]|?|] ?]
  end; cbn [fst snd] in *; rewrite Hsch; simpl;
    (rewrite filter_cons_False by (intros [Hne _]; by apply Hne));
    apply list_filter_iff; intros t; split; intros [Hne Hlt]; (split; [done|]);
    destruct (decide (t = nextTimer st)); done.
Qed.
End TimerFacts.

(** C6 (the code departs from the claim).  A timed handler that is late is
    reported with the timer's message, and a handler that fulfils in time
    or is late leaves no timer behind; but after a handler has rejected,
    both [emit] and [emitContext] return with the timer of that call
    still on the schedule. *)
Theorem timer_left_scheduled_after_rejection :
  let ev := Sample.sessionEvent "before_branch" in
  let emitWith := λ h,
    emit (Sample.runnerWith [Sample.hookWith "hook" "session" [h]]) ev Sample.idle in
  let contextWith := λ h,
    emitContext (Sample.runnerWith [Sample.hookWith "hook" "context" [h]]) [] Sample.idle in
  deliveries 0 (trace (emitWith Sample.stalling).2) =
    [{| hookPath := "hook"; event := "session";
        error_message := "Hook timed out after 30000ms" |}] ∧
  scheduled (emitWith (Sample.returning None)).2 = [] ∧
  scheduled (emitWith Sample.stalling).2 = [] ∧
  (emitWith (Sample.rejecting "boom")).1 = Normal None ∧
  scheduled (emitWith (Sample.rejecting "boom")).2 = [0%nat] ∧
  (contextWith (Sample.rejecting "boom")).1 = Normal None ∧
  scheduled (contextWith (Sample.rejecting "boom")).2 = [0%nat].
Proof. vm_compute. done. Qed.

(** *** Dispatch on sample hooks *)

(** The first handler cancels: the second handler of the same hook and
    the handler of the next hook are not called. *)
Lemma emit_cancel_stops_dispatch_witness :
  let r := Sample.runnerWith
             [Sample.hookWith "first" "session"
                [Sample.returning (Some Sample.cancelResult); Sample.rejecting "not reached"];
              Sample.hookWith "second" "session" [Sample.returning None]] in
  let ev := Sample.sessionEvent "before_branch" in
  let res := emit r ev Sample.idle in
  let order := dispatchOrder "session" r in
  event_type ev = "session" ∧
  ∃ delta,
    let invs := invocations delta in
    trace res.2 = trace Sample.idle ++ delta ∧
    Forall2 (λ d inv, invocationOf d ev (createContext r) (emitObserves (timeout r) ev) inv)
      (take (length invs) order) invs ∧
    ∀ n inv v, invs !! n = Some inv → inv_outcome inv = Returned (Some v) →
               cancel v = true →
               res.1 = Normal (Some v) ∧ length invs = S n.
Proof.
  split; [reflexivity|].
  apply (emit_cancel_stops_dispatch
           (Sample.runnerWith
              [Sample.hookWith "first" "session"
                 [Sample.returning (Some Sample.cancelResult); Sample.rejecting "not reached"];
               Sample.hookWith "second" "session" [Sample.returning None]])
           (Sample.sessionEvent "before_branch") Sample.idle).
  reflexivity.
Defined.

Example emit_cancel_sample :
  let r := Sample.runnerWith
             [Sample.hookWith "first" "session"
                [Sample.returning (Some Sample.cancelResult); Sample.rejecting "not reached"];
              Sample.hookWith "second" "session" [Sample.returning None]] in
  let res := emit r (Sample.sessionEvent "before_branch") Sample.idle in
  res.1 = Normal (Some Sample.cancelResult) ∧
  (λ inv, (inv_hook inv, inv_handler inv)) <$> invocations (trace res.2) = [(0, 0)]%nat.
Proof. vm_compute. done. Qed.

Lemma sample_listeners_quiet (hks : list (LoadedHook unit)) :
  quietListeners (Sample.runnerWith hks).
Proof.
  intros listener err w Hin. cbn [Sample.runnerWith errorListeners] in Hin.
  by apply list_elem_of_singleton in Hin as ->.
Qed.

(** With the listener of the sample runner, which returns, a rejecting
    handler and a late handler do not keep [emit] from returning. *)
Lemma emit_isolates_handler_failures_witness :
  let r := Sample.runnerWith
             [Sample.hookWith "first" "session" [Sample.rejecting "boom"; Sample.stalling];
              Sample.hookWith "second" "session" [Sample.returning (Some Sample.noResult)]] in
  let ev := Sample.sessionEvent "before_branch" in
  let res := emit r ev Sample.idle in
  let order := dispatchOrder (event_type ev) r in
  ∃ delta,
    let invs := invocations delta in
    trace res.2 = trace Sample.idle ++ delta ∧
    (∀ err, res.1 ≠ Abrupt err) ∧
    Forall2 (λ d inv, invocationOf d ev (createContext r) (emitObserves (timeout r) ev) inv)
      (take (length invs) order) invs ∧
    (∀ l, (l < length (errorListeners r))%nat → deliveries l delta = omap hookErrorOf invs) ∧
    (∀ n inv err, invs !! n = Some inv → inv_outcome inv = Threw err →
                  (S n < length order)%nat → (S n < length invs)%nat) ∧
    (∀ err, emitObserves (timeout r) ev (Prompt (Rejected err)) = Threw err) ∧
    (∀ s, isBeforeCompact ev = false →
          emitObserves (timeout r) ev (Late s) = Threw (timeoutError (timeout r))).
Proof.
  apply (emit_isolates_handler_failures
           (Sample.runnerWith
              [Sample.hookWith "first" "session" [Sample.rejecting "boom"; Sample.stalling];
               Sample.hookWith "second" "session" [Sample.returning (Some Sample.noResult)]])
           (Sample.sessionEvent "before_branch") Sample.idle).
  apply sample_listeners_quiet.
Defined.

(** A listener that throws: the first handler rejects, the first listener
    is told and throws, and [emit] ends with what the listener threw.  The
    second listener is not told, and the second handler is not called. *)
Lemma emit_listener_throw_reaches_caller :
  let r := Sample.runnerListening
             [Sample.throwingListener "listener failed"; Sample.quietListener]
             [Sample.hookWith "first" "session"
                [Sample.rejecting "boom"; Sample.returning None]] in
  let res := emit r (Sample.sessionEvent "before_branch") Sample.idle in
  res.1 = Abrupt (ThrownError "listener failed") ∧
  deliveries 0 (trace res.2) =
    [{| hookPath := "first"; event := "session"; error_message := "boom" |}] ∧
  deliveries 1 (trace res.2) = [] ∧
  length (invocations (trace res.2)) = 1%nat ∧
  length (dispatchOrder "session" r) = 2%nat.
Proof. vm_compute. done. Qed.

(** A rejecting handler and a late handler each cost one error report;
    the handlers after them still run. *)
Example emit_failures_sample :
  let r := Sample.runnerWith
             [Sample.hookWith "first" "session" [Sample.rejecting "boom"; Sample.stalling];
              Sample.hookWith "second" "session" [Sample.returning (Some Sample.noResult)]] in
  let res := emit r (Sample.sessionEvent "before_branch") Sample.idle in
  res.1 = Normal (Some Sample.noResult) ∧
  (λ inv, (inv_hook inv, inv_handler inv)) <$> invocations (trace res.2)
    = [(0, 0); (0, 1); (1, 0)]%nat ∧
  error_message <$> deliveries 0 (trace res.2) = ["boom"; "Hook timed out after 30000ms"].
Proof. vm_compute. done. Qed.

(** [emitToolCall] does not isolate failures: a rejection reaches the
    caller and the next handler is not called. *)
Example emitToolCall_propagates_sample :
  let r := Sample.runnerWith
             [Sample.hookWith "first" "tool_call"
                [Sample.rejecting "denied"; Sample.returning None]] in
  let ev := {| event_type := "tool_call"; event_reason := None; event_messages := None |} in
  let res := emitToolCall r ev Sample.idle in
  res.1 = Abrupt (ThrownError "denied") ∧
  length (invocations (trace res.2)) = 1%nat.
Proof. vm_compute. done. Qed.


Example emitContext_sample :
  let first := Sample.returning
                 (Some {| cancel := false; block := false;
                          result_messages := Some [];
                          result_payload := EmptyString |}) in
  let r := Sample.runnerWith
             [Sample.hookWith "one" "context" [Sample.rejecting "boom"; first];
              Sample.hookWith "two" "context" [Sample.stalling]] in
  let res := emitContext r [UserMessage (ContentString "original") 0] Sample.idle in
  res.1 = Normal (Some []) ∧
  inv_event <$> invocations (trace res.2)
    = [contextEvent [UserMessage (ContentString "original") 0];
       contextEvent [UserMessage (ContentString "original") 0];
       contextEvent []].
Proof. vm_compute. done. Qed.

(** * Further properties *)

(** ** Branch preparation, continued *)

Lemma for_each_invariant {E S : Type} (P : S → Prop) (body : E → S → LoopStep S) es s :
  P s →
  (∀ e s, e ∈ es → P s → match body e s with Continue s' | Break s' => P s' end) →
  P (for_each body es s).
Proof.
  revert s. induction es as [|e es IH]; intros s Hs Hbody; simpl; [done|].
  pose proof (Hbody e s ltac:(left) Hs) as He.
  destruct (body e s) as [s'|s']; [|done].
  apply IH; [done|]. intros e' s'' Hin. apply Hbody. by right.
Qed.

Lemma opsSet_cases name fo :
  name = "read" ∨ name = "write" ∨ name = "edit" →
  (name = "read" ∧ opsSet name fo = read fo) ∨
  (name = "write" ∧ opsSet name fo = written fo) ∨
  (name = "edit" ∧ opsSet name fo = edited fo).
Proof. intros [->| [->| ->]]; auto. Qed.

(** Recording a block adds the path of a [read], [write] or [edit] call to
    the set of that tool, and nothing else. *)
Lemma elem_of_recordToolCall name p fo block :
  name = "read" ∨ name = "write" ∨ name = "edit" →
  p ∈ opsSet name (recordToolCall fo block) ↔ p ∈ opsSet name fo ∨ blockCalls name p block.
Proof.
  intros Hname. unfold blockCalls.
  destruct block as [text|data|thinking|callId tool [args|]];
    try (simpl; split; [by left|intros [?|(? & ? & ? & _)]; done]).
  simpl. destruct (args !! "path") as [[| |b|n|path]|] eqn:Hpath;
    try (split; [by left|intros [?|(? & ? & ? & ? & _)]; [done|simplify_eq]]).
  destruct (String.eqb_spec path EmptyString) as [->|Hne].
  { split; [by left|intros [?|(? & ? & ? & ? & ?)]; [done|simplify_eq]]. }
  destruct (String.eqb_spec tool "read") as [->|Hr];
    [|destruct (String.eqb_spec tool "write") as [->|Hw];
      [|destruct (String.eqb_spec tool "edit") as [->|He]]].
  - destruct Hname as [->| [->| ->]]; unfold opsSet; simpl.
    + rewrite elem_of_union, elem_of_singleton. split.
      * intros [->|?]; [right|by left]. by exists callId, args.
      * intros [?|(? & ? & ? & ? & ?)]; [by right|simplify_eq; by left].
    + split; [by left|intros [?|(? & ? & ? & _)]; [done|simplify_eq]].
    + split; [by left|intros [?|(? & ? & ? & _)]; [done|simplify_eq]].
  - destruct Hname as [->| [->| ->]]; unfold opsSet; simpl.
    + split; [by left|intros [?|(? & ? & ? & _)]; [done|simplify_eq]].
    + rewrite elem_of_union, elem_of_singleton. split.
      * intros [->|?]; [right|by left]. by exists callId, args.
      * intros [?|(? & ? & ? & ? & ?)]; [by right|simplify_eq; by left].
    + split; [by left|intros [?|(? & ? & ? & _)]; [done|simplify_eq]].
  - destruct Hname as [->| [->| ->]]; unfold opsSet; simpl.
    + split; [by left|intros [?|(? & ? & ? & _)]; [done|simplify_eq]].
    + split; [by left|intros [?|(? & ? & ? & _)]; [done|simplify_eq]].
    + rewrite elem_of_union, elem_of_singleton. split.
      * intros [->|?]; [right|by left]. by exists callId, args.
      * intros [?|(? & ? & ? & ? & ?)]; [by right|simplify_eq; by left].
  - split; [by left|]. intros [?|(? & ? & ? & _)]; [done|]. simplify_eq.
    destruct Hname as [->| [->| ->]]; done.
Qed.

Lemma elem_of_extract_blocks name p fo content :
  name = "read" ∨ name = "write" ∨ name = "edit" →
  p ∈ opsSet name (foldl recordToolCall fo content) ↔
  p ∈ opsSet name fo ∨ ∃ block, block ∈ content ∧ blockCalls name p block.
Proof.
  intros Hname. revert fo. induction content as [|b content IH]; intros fo; simpl.
  - split; [by left|]. intros [?|(? & Hin & _)]; [done|]. by apply elem_of_nil in Hin.
  - rewrite IH, elem_of_recordToolCall by done. split.
    + intros [[?|?]|(b' & ? & ?)]; [by left|right; exists b|right; exists b'];
        split; try done; by constructor.
    + intros [?|(b' & Hin & ?)]; [by left; left|].
      apply elem_of_cons in Hin as [->|Hin]; [by left; right|right; by exists b'].
Qed.

Lemma elem_of_extractFileOps name p fo msg :
  name = "read" ∨ name = "write" ∨ name = "edit" →
  p ∈ opsSet name (extractFileOpsFromMessage msg fo) ↔
  p ∈ opsSet name fo ∨ messageCalls name p msg.
Proof.
  intros Hname. unfold messageCalls.
  destruct msg as [c t|content ts|i c t|s f t|s k t|c0 c d de t|c o e ca tr f t];
    try (simpl; split; [by left|intros [?|(? & ? & ? & _)]; done]).
  simpl. rewrite elem_of_extract_blocks by done. split.
  - intros [?|?]; [by left|right]. by exists content, ts.
  - intros [?|(? & ? & ? & ?)]; [by left|right]. by simplify_eq.
Qed.

Lemma getMessageFromEntry_role e m :
  getMessageFromEntry e = Some m → role m ≠ "toolResult".
Proof.
  unfold getMessageFromEntry. destruct (entry_payload e); try discriminate.
  - destruct (String.eqb_spec (role message) "toolResult"); [discriminate|congruence].
  - intros [= <-]. discriminate.
  - intros [= <-]. discriminate.
  - intros [= <-]. discriminate.
Qed.

Section PrepareMore.
Variable estimateTokens : AgentMessage → Z.

Local Abbreviation step := (prepare_step estimateTokens).

(** Whatever an iteration decides, it records the file operations of the
    entry's message, and the messages it keeps are the earlier ones with
    or without that message. *)
Lemma prepare_step_shape budget e st :
  match getMessageFromEntry e with
  | None => step budget e st = Continue st
  | Some m =>
      ∃ st', (step budget e st = Continue st' ∨ step budget e st = Break st') ∧
        fileOps st' = extractFileOpsFromMessage m (fileOps st) ∧
        (messages st' = m :: messages st ∨ messages st' = messages st)
  end.
Proof.
  unfold prepare_step. destruct (getMessageFromEntry e) as [m|]; [|done].
  destruct (_ && (_ <? _ + _)); [destruct (_ && (10 * _ <? _))|];
    eexists; (split; [by (left + right)|]); simpl; auto.
Qed.

(** A budget that is not positive never stops the loop. *)
Lemma run_all_unlimited budget l st :
  budget ≤ 0 → is_Some (run_all (step budget) l st).
Proof.
  intros Hb. revert st. induction l as [|e l IH]; intros st; [by eexists|].
  cbn [run_all]. unfold prepare_step at 1.
  destruct (getMessageFromEntry e) as [m|]; [|apply IH].
  replace (0 <? budget) with false by (symmetry; apply Z.ltb_ge; lia).
  apply IH.
Qed.

(** The invariant of the loop on file operations: every recorded path
    comes from a call in an extractable message of [entries], and the
    calls of every kept message are recorded. *)
Lemma prepare_fileOps_invariant name p entries budget :
  name = "read" ∨ name = "write" ∨ name = "edit" →
  let r := prepareBranchEntries estimateTokens entries budget in
  (p ∈ opsSet name (fileOps r) →
     ∃ m, m ∈ omap getMessageFromEntry entries ∧ messageCalls name p m) ∧
  (∀ m, m ∈ messages r → messageCalls name p m → p ∈ opsSet name (fileOps r)).
Proof.
  intros Hname. unfold prepareBranchEntries.
  apply (for_each_invariant (λ st,
    (p ∈ opsSet name (fileOps st) →
       ∃ m, m ∈ omap getMessageFromEntry entries ∧ messageCalls name p m) ∧
    (∀ m, m ∈ messages st → messageCalls name p m → p ∈ opsSet name (fileOps st)))).
  - split.
    + destruct Hname as [->| [->| ->]]; intros Hin; by apply elem_of_empty in Hin.
    + intros m Hin. by apply elem_of_nil in Hin.
  - intros e st He [Hsound Hcover]. rewrite elem_of_reverse in He.
    pose proof (prepare_step_shape budget e st) as Hshape.
    destruct (getMessageFromEntry e) as [m|] eqn:Hm.
    + assert (m ∈ omap getMessageFromEntry entries) as Hin
        by (apply list_elem_of_omap; by exists e).
      destruct Hshape as (st' & Hstep & Hops & Hmsgs).
      assert ((p ∈ opsSet name (fileOps st') →
                 ∃ m, m ∈ omap getMessageFromEntry entries ∧ messageCalls name p m) ∧
              (∀ m, m ∈ messages st' → messageCalls name p m →
                 p ∈ opsSet name (fileOps st'))) as Hinv.
      { rewrite Hops. split.
        - intros [?|?]%elem_of_extractFileOps; [auto|eauto|done].
        - intros m' Hin' Hcalls. apply elem_of_extractFileOps; [done|].
          destruct Hmsgs as [Hmsgs|Hmsgs]; rewrite Hmsgs in Hin'.
          + apply elem_of_cons in Hin' as [->|Hin']; [by right|left; eauto].
          + left; eauto. }
      by destruct Hstep as [-> | ->].
    + by rewrite Hshape.
Qed.

(** X1.  A token budget that is zero or negative means no limit:
    [prepareBranchEntries] then keeps every extractable message of the
    entries, in their order, its total is the sum of their estimates, and
    the file operations are exactly those of the calls in these messages. *)
Theorem prepare_without_budget_keeps_everything entries tokenBudget :
  tokenBudget ≤ 0 →
  let r := prepareBranchEntries estimateTokens entries tokenBudget in
  messages r = omap getMessageFromEntry entries ∧
  totalTokens r = sum_tokens (estimateTokens <$> omap getMessageFromEntry entries) ∧
  ∀ name p, name = "read" ∨ name = "write" ∨ name = "edit" →
    (p ∈ opsSet name (fileOps r) ↔
     ∃ m, m ∈ omap getMessageFromEntry entries ∧ messageCalls name p m).
Proof.
  intros Hb r.
  destruct (run_all_unlimited tokenBudget (reverse entries)
              {| messages := []; fileOps := noFileOps; totalTokens := 0 |} Hb)
    as [st' Hrun].
  pose proof (run_all_for_each _ _ _ _ Hrun) as Hr. fold (prepareBranchEntries estimateTokens entries tokenBudget) in Hr.
  apply run_all_prepare in Hrun as (Hmsgs & Htot & _).
  rewrite reverse_involutive, app_nil_r in Hmsgs.
  rewrite cost_reverse in Htot. cbn [totalTokens] in Htot.
  assert (messages r = omap getMessageFromEntry entries) as Hall
    by (subst r; rewrite Hr; done).
  split_and!.
  - done.
  - subst r. rewrite Hr, Htot. lia.
  - intros name p Hname.
    destruct (prepare_fileOps_invariant name p entries tokenBudget Hname) as [Hsound Hcover].
    split; [done|]. intros (m & Hin & Hcalls). apply (Hcover m); [|done].
    fold r. by rewrite Hall.
Qed.

(** X2.  Whatever the budget, the messages [prepareBranchEntries] keeps
    are a suffix of the extractable messages of the entries: the most
    recent ones, without a gap and in chronological order.  No tool-result
    message is among them, and the reported total is the sum of their
    estimates. *)
Theorem prepare_keeps_most_recent_messages entries tokenBudget :
  let r := prepareBranchEntries estimateTokens entries tokenBudget in
  messages r `suffix_of` omap getMessageFromEntry entries ∧
  (∀ m, m ∈ messages r → role m ≠ "toolResult") ∧
  totalTokens r = sum_tokens (estimateTokens <$> messages r).
Proof.
  intros r.
  assert (messages r `suffix_of` omap getMessageFromEntry entries ∧
          totalTokens r = sum_tokens (estimateTokens <$> messages r)) as [Hsuffix Htotal].
  { subst r. unfold prepareBranchEntries.
    destruct (for_each_cases (step tokenBudget) (reverse entries)
                {| messages := []; fileOps := noFileOps; totalTokens := 0 |})
      as [Hrun|(l1 & e & l2 & s1 & Hsplit & Hrun & Hbrk)].
    - apply run_all_prepare in Hrun as (Hmsgs & Htot & _).
      rewrite reverse_involutive, app_nil_r in Hmsgs.
      rewrite cost_reverse in Htot. cbn [totalTokens] in Htot.
      rewrite Hmsgs, Htot. split; [done|lia].
    - apply run_all_prepare in Hrun as (Hmsgs & Htot & _).
      rewrite app_nil_r in Hmsgs. cbn [totalTokens] in Htot.
      rewrite Z.add_0_r, <- cost_reverse in Htot.
      assert (entries = reverse l2 ++ e :: reverse l1) as ->.
      { rewrite <- (reverse_involutive entries), Hsplit, reverse_app, reverse_cons.
        by rewrite <- app_assoc. }
      rewrite omap_app. cbn [omap list_omap].
      set (r := for_each _ _ _) in *. clearbody r.
      unfold prepare_step in Hbrk.
      destruct (getMessageFromEntry e) as [m|]; [|discriminate].
      destruct (_ && (_ <? _ + _)); [|discriminate].
      destruct (_ && (10 * _ <? _)); injection Hbrk as <-; cbn [messages totalTokens].
      + split.
        * rewrite Hmsgs. by apply suffix_app_r.
        * rewrite fmap_cons, sum_tokens_cons, Hmsgs, Htot. lia.
      + split.
        * rewrite Hmsgs. apply suffix_app_r. by apply suffix_cons_r.
        * by rewrite Hmsgs, Htot. }
  split_and!; [done| |done].
  intros m Hin. destruct Hsuffix as [older Hsuffix].
  assert (m ∈ omap getMessageFromEntry entries) as Hm
    by (rewrite Hsuffix; apply elem_of_app; by right).
  apply list_elem_of_omap in Hm as (e & _ & He).
  by apply getMessageFromEntry_role in He.
Qed.

(** X3.  The file operations [prepareBranchEntries] reports are sound and
    cover what it keeps: a path is recorded for a tool only if an
    extractable assistant message of the entries calls that tool with
    that path, and every such call in a kept message is recorded. *)
Theorem prepare_fileOps_sound_and_covering name p entries tokenBudget :
  name = "read" ∨ name = "write" ∨ name = "edit" →
  let r := prepareBranchEntries estimateTokens entries tokenBudget in
  (p ∈ opsSet name (fileOps r) →
     ∃ e content ts,
       e ∈ entries ∧ entry_payload e = MessageEntry (AssistantMessage content ts) ∧
       ∃ block, block ∈ content ∧ blockCalls name p block) ∧
  (∀ m, m ∈ messages r → messageCalls name p m → p ∈ opsSet name (fileOps r)).
Proof.
  intros Hname r.
  destruct (prepare_fileOps_invariant name p entries tokenBudget Hname) as [Hsound Hcover].
  split; [|done]. intros Hin.
  destruct (Hsound Hin) as (m & Hm & content & ts & -> & Hcalls).
  apply list_elem_of_omap in Hm as (e & He & Hget).
  exists e, content, ts. split_and!; [done| |done].
  unfold getMessageFromEntry in Hget.
  destruct (entry_payload e); try discriminate.
  - destruct (String.eqb _ _); [discriminate|congruence].
Qed.
End PrepareMore.

Lemma prepare_without_budget_keeps_everything_witness :
  let r := prepareBranchEntries Sample.estimate Sample.writeBranch 0 in
  messages r = omap getMessageFromEntry Sample.writeBranch ∧
  totalTokens r =
    sum_tokens (Sample.estimate <$> omap getMessageFromEntry Sample.writeBranch) ∧
  ∀ name p, name = "read" ∨ name = "write" ∨ name = "edit" →
    (p ∈ opsSet name (fileOps r) ↔
     ∃ m, m ∈ omap getMessageFromEntry Sample.writeBranch ∧ messageCalls name p m).
Proof.
  apply (prepare_without_budget_keeps_everything Sample.estimate Sample.writeBranch 0). lia.
Defined.

Lemma prepare_fileOps_sound_and_covering_witness :
  let r := prepareBranchEntries Sample.estimate Sample.writeBranch 100 in
  ("a.txt" ∈ opsSet "write" (fileOps r) →
     ∃ e content ts,
       e ∈ Sample.writeBranch ∧
       entry_payload e = MessageEntry (AssistantMessage content ts) ∧
       ∃ block, block ∈ content ∧ blockCalls "write" "a.txt" block) ∧
  (∀ m, m ∈ messages r → messageCalls "write" "a.txt" m →
     "a.txt" ∈ opsSet "write" (fileOps r)).
Proof.
  apply (prepare_fileOps_sound_and_covering Sample.estimate "write" "a.txt"
           Sample.writeBranch 100).
  right; left; reflexivity.
Defined.

(** ** The report and the generator, continued *)

Lemma string_or_nonempty x fallback :
  fallback ≠ EmptyString → string_or x fallback ≠ EmptyString.
Proof.
  intros Hf. unfold string_or. destruct x as [s|]; [|done].
  by destruct (String.eqb_spec s EmptyString).
Qed.

(** X4.  [formatFileOperations] returns the empty string exactly when no
    path was read, written or edited; any recorded path produces a
    report. *)
Theorem formatFileOperations_empty_iff (fileOps : FileOperations) :
  formatFileOperations fileOps = EmptyString ↔
  read fileOps = ∅ ∧ written fileOps = ∅ ∧ edited fileOps = ∅.
Proof.
  unfold formatFileOperations. rewrite <- length_modifiedFiles.
  pose proof (elem_of_readOnlyFiles fileOps) as Hro.
  pose proof (elem_of_modifiedFiles fileOps) as Hmod.
  destruct (readOnlyFiles fileOps) as [|r ro]; destruct (modifiedFiles fileOps) as [|f fs];
    cbn [length Nat.ltb Nat.leb app Nat.eqb].
  - split; [intros _|done].
    assert (∀ p, (p ∉ written fileOps) ∧ (p ∉ edited fileOps)) as Hnone.
    { intros p. split; intros Hin; apply (elem_of_nil p), Hmod; auto. }
    split_and!; apply leibniz_equiv; intros p; split;
      try (intros Hin; by apply elem_of_empty in Hin).
    + intros Hin. exfalso. apply (elem_of_nil p), Hro. split; [done|apply Hnone].
    + intros Hin. by apply Hnone in Hin.
    + intros Hin. by apply Hnone in Hin.
  - split; [discriminate|]. intros (_ & Hw & He). exfalso.
    assert (f ∈ written fileOps ∨ f ∈ edited fileOps) as [Hin|Hin] by (apply Hmod; left).
    + rewrite Hw in Hin. by apply elem_of_empty in Hin.
    + rewrite He in Hin. by apply elem_of_empty in Hin.
  - split; [discriminate|]. intros (Hr & _ & _). exfalso.
    assert (r ∈ read fileOps) as Hin by (apply Hro; left).
    rewrite Hr in Hin. by apply elem_of_empty in Hin.
  - split; [discriminate|]. intros (Hr & _ & _). exfalso.
    assert (r ∈ read fileOps) as Hin by (apply Hro; left).
    rewrite Hr in Hin. by apply elem_of_empty in Hin.
Qed.

(** X5.  [generateBranchSummary] calls the completion function at most
    once, and fills exactly one field of its result, decided by the stop
    reason of the response: [aborted: true] for [aborted], a non-empty
    [error] for [error], a non-empty [summary] otherwise.  Without a
    call the result is the fixed no-content summary. *)
Theorem generateBranchSummary_outcome
    (estimateTokens : AgentMessage → Z) (entries : list SessionEntry)
    (options : GenerateBranchSummaryOptions)
    (now : Z) (complete : CompleteRequest → AssistantResponse) :
  let ran := run now complete (generateBranchSummary estimateTokens entries options) in
  match ran.2 with
  | [] =>
      ran.1 = {| summary := Some "No content to summarize"; aborted := None; error := None |}
  | [request] =>
      req_model request = opt_model options ∧ req_maxTokens request = 2048 ∧
      let response := complete request in
      if String.eqb (stopReason response) "aborted" then
        ran.1 = {| summary := None; aborted := Some true; error := None |}
      else if String.eqb (stopReason response) "error" then
        summary ran.1 = None ∧ aborted ran.1 = None ∧
        ∃ message, error ran.1 = Some message ∧ message ≠ EmptyString
      else
        aborted ran.1 = None ∧ error ran.1 = None ∧
        ∃ text, summary ran.1 = Some text ∧ text ≠ EmptyString
  | _ => False
  end.
Proof.
  unfold generateBranchSummary.
  destruct (length _ =? 0)%nat; [done|].
  cbn [run]. set (request := {| req_maxTokens := 2048 |}).
  destruct (String.eqb (stopReason (complete request)) "aborted") eqn:Ha;
    [|destruct (String.eqb (stopReason (complete request)) "error") eqn:He];
    cbn [run fst snd]; split_and!; try done; cbn zeta; rewrite Ha; try done;
    rewrite He; cbn [summary aborted error]; split_and!; try done;
    eexists; (split; [done|]); by apply string_or_nonempty.
Qed.

(** ** Entry collection, continued *)

(** X6.  Without an old position there is nothing to collect: for an
    absent or empty [oldLeafId] the collector returns no entries and no
    common ancestor without consulting the store, and for an id the store
    cannot resolve it returns no entries. *)
Theorem collect_without_old_position (session : ReadonlySessionManager)
    (targetId : string) (fuel : nat) :
  (∀ oldLeafId, truthy oldLeafId = false →
     collectEntriesForBranchSummary fuel session oldLeafId targetId =
       Some {| entries := []; commonAncestorId := None |}) ∧
  (∀ oldLeafId, getEntry session oldLeafId = None →
     ∃ r, collectEntriesForBranchSummary (S fuel) session (Some oldLeafId) targetId = Some r ∧
          entries r = []).
Proof.
  split.
  - intros [id|] Hfalsy; [|done]. unfold collectEntriesForBranchSummary. by rewrite Hfalsy.
  - intros id Hnone. unfold collectEntriesForBranchSummary.
    destruct (negb (truthy (Some id))); [by eexists|].
    cbn [collectWalk]. destruct (_ && _); cbn [mbind option_bind]; [rewrite Hnone|];
      by eexists.
Qed.

Section CollectorMore.
Local Open Scope nat_scope.
Variable session : ReadonlySessionManager.

Hypothesis getEntry_id : ∀ id e, getEntry session id = Some e → entry_id e = id.
Hypothesis getEntry_empty : getEntry session EmptyString = None.

Lemma ancestor_path_empty_id p :
  ancestor_path session (Some EmptyString) p → p = [].
Proof. inversion 1; [done|congruence]. Qed.

(** X7.  Navigating to an entry on the old leaf's own path: when the path
    of the target starts with the target and the target is on the path
    of the old leaf, the common ancestor is the target itself and the
    entries are exactly those of the old path below the target, oldest
    first. *)
Theorem collect_to_entry_on_old_path (oldLeafId targetId : string)
    (target : SessionEntry) (targetRest : list SessionEntry) (fuel : nat) :
  ancestor_path session (Some oldLeafId) (getPath session oldLeafId) →
  getPath session targetId = target :: targetRest →
  entry_id target = targetId →
  targetId ∈ entry_id <$> getPath session oldLeafId →
  length (getPath session oldLeafId) < fuel →
  ∃ r found above,
    collectEntriesForBranchSummary fuel session (Some oldLeafId) targetId = Some r ∧
    commonAncestorId r = Some targetId ∧
    getPath session oldLeafId = reverse (entries r) ++ found :: above ∧
    entry_id found = targetId ∧
    (targetId ∉ entry_id <$> entries r).
Proof.
  intros Hpath Htarget Hid Hon Hfuel.
  assert (oldLeafId ≠ EmptyString) as Hne.
  { intros ->. apply ancestor_path_empty_id in Hpath. rewrite Hpath in Hon.
    by apply elem_of_nil in Hon. }
  unfold collectEntriesForBranchSummary.
  replace (truthy (Some oldLeafId)) with true
    by (symmetry; simpl; apply negb_true_iff; by apply String.eqb_neq).
  cbn [negb]. rewrite Htarget. unfold findCommonAncestor. cbn [for_each].
  rewrite bool_decide_eq_true_2 by (rewrite Hid; by apply elem_of_list_to_set).
  destruct (collectWalk_spec session getEntry_id getEntry_empty (Some (entry_id target))
              (Some oldLeafId) _ Hpath fuel [] Hfuel)
    as (pre & rest & Hsplit & Hwalk & Hpre & Hrest).
  rewrite Hwalk. cbn [mbind option_bind app].
  assert (targetId ∉ entry_id <$> pre) as Hnot.
  { intros (e & He & Hin)%list_elem_of_fmap.
    rewrite Forall_forall in Hpre. apply (Hpre e Hin). congruence. }
  destruct rest as [|found above].
  { exfalso. rewrite Hsplit, app_nil_r in Hon. done. }
  exists {| entries := reverse pre; commonAncestorId := Some (entry_id target) |}, found, above.
  cbn [entries commonAncestorId]. rewrite reverse_involutive.
  split_and!; [done|by rewrite Hid|done|congruence|].
  by rewrite fmap_reverse, elem_of_reverse.
Qed.

(** X8.  When no entry of the target's path is on the old leaf's path,
    there is no common ancestor and the whole old branch is collected,
    from its root to the old leaf. *)
Theorem collect_whole_branch_without_common_ancestor (oldLeafId targetId : string)
    (p : list SessionEntry) (fuel : nat) :
  ancestor_path session (Some oldLeafId) p →
  (∀ e, e ∈ getPath session targetId →
        entry_id e ∉ entry_id <$> getPath session oldLeafId) →
  length p < fuel →
  collectEntriesForBranchSummary fuel session (Some oldLeafId) targetId =
    Some {| entries := reverse p; commonAncestorId := None |}.
Proof.
  intros Hpath Hdisjoint Hfuel. unfold collectEntriesForBranchSummary.
  destruct (negb (truthy (Some oldLeafId))) eqn:Hfalsy.
  { apply negb_true_iff in Hfalsy. simpl in Hfalsy.
    apply negb_false_iff, String.eqb_eq in Hfalsy as ->.
    by rewrite (ancestor_path_empty_id p Hpath). }
  pose proof (findCommonAncestor_spec
                (list_to_set (entry_id <$> getPath session oldLeafId))
                (getPath session targetId)) as Hscan.
  destruct (findCommonAncestor _ _) as [c|].
  { exfalso. destruct Hscan as (pre & e & post & Hsplit & Hc & Hin & _).
    apply (Hdisjoint e).
    - rewrite Hsplit. apply elem_of_app. right. by left.
    - rewrite Hc. by apply elem_of_list_to_set in Hin. }
  destruct (collectWalk_spec session getEntry_id getEntry_empty None
              (Some oldLeafId) p Hpath fuel [] Hfuel)
    as (pre & rest & Hsplit & Hwalk & _ & Hrest).
  destruct rest as [|e rest]; [|done].
  rewrite Hwalk. cbn [mbind option_bind app]. by rewrite Hsplit, app_nil_r.
Qed.
End CollectorMore.

Lemma collect_to_entry_on_old_path_witness :
  ∃ r found above,
    collectEntriesForBranchSummary 4 Sample.session (Some "b") "a" = Some r ∧
    commonAncestorId r = Some "a" ∧
    getPath Sample.session "b" = reverse (entries r) ++ found :: above ∧
    entry_id found = "a" ∧
    ("a" ∉ entry_id <$> entries r).
Proof.
  apply (collect_to_entry_on_old_path Sample.session
           (sessionOf_getEntry_id Sample.tree) eq_refl "b" "a"
           (Sample.userEntry "a" (Some "r") "first") [Sample.userEntry "r" None "root"] 4
           sample_path_b eq_refl eq_refl).
  - vm_compute. right. left.
  - vm_compute. lia.
Defined.

(** In the sample tree an unknown target has an empty path, so the whole
    branch of [b] is collected. *)
Lemma collect_whole_branch_without_common_ancestor_witness :
  collectEntriesForBranchSummary 4 Sample.session (Some "b") "unknown" =
    Some {| entries := reverse (getPath Sample.session "b"); commonAncestorId := None |}.
Proof.
  apply (collect_whole_branch_without_common_ancestor Sample.session
           (sessionOf_getEntry_id Sample.tree) eq_refl "b" "unknown"
           (getPath Sample.session "b") 4 sample_path_b).
  - intros e Hin. vm_compute in Hin. by apply elem_of_nil in Hin.
  - vm_compute. lia.
Defined.

(** ** The hook runner, continued *)

Section HookMore.
Local Open Scope nat_scope.
Context {W : Type}.
Implicit Types (r : HookRunner W) (st : RunnerState W) (hook : LoadedHook W).

Lemma dispatchHandlers_nil i hook k (hs : list (Handler W)) :
  dispatchHandlers i hook k hs = [] ↔ hs = [].
Proof. by destruct hs. Qed.

(** [hasHandlers] answers whether the dispatch order of the event kind
    holds a handler. *)
Lemma hasHandlersIn_dispatchFrom eventType i (hks : list (LoadedHook W)) :
  hasHandlersIn eventType hks = false ↔ dispatchFrom eventType i hks = [].
Proof.
  revert i. induction hks as [|hook hks IH]; intros i; [done|].
  cbn [hasHandlersIn dispatchFrom].
  destruct (hook_handlers hook !! eventType) as [[|h hs]|]; cbn [default from_option id];
    [apply IH| |apply IH].
  simpl. split; done.
Qed.

Lemma emitToolCall_flat r ev st :
  emitToolCall r ev st =
  bind (forDispatch (toolCallBody ev (createContext r)) (dispatchOrder "tool_call" r) None)
    (λ f, match f with
          | Proceed result => ret result
          | Return result => ret result
          end) st.
Proof. unfold emitToolCall, bind. by rewrite forHooks_flat. Qed.

Lemma loop_trace_nil {St R : Type} (evOf : St → HookEvent) ctx obs
    (step : St → Outcome → Completion (Flow St R)) thrown (s : St) invs c :
  loop_trace (W := W) evOf ctx obs step thrown [] s invs c →
  invs = [] ∧ c = Normal (Proceed s).
Proof. by inversion 1. Qed.

(** X9.  [hasHandlers] predicts dispatch: [emit] calls a handler exactly
    when [hasHandlers] holds for the type of the event, and when it does
    not hold, [emit], [emitToolCall] and [emitContext] return absent at
    once, leaving the runner's state as it was. *)
Theorem hasHandlers_predicts_dispatch r (ev : HookEvent) (msgs : list AgentMessage) st :
  (∃ delta, trace (emit r ev st).2 = trace st ++ delta ∧
            (hasHandlers r (event_type ev) = true ↔ invocations delta ≠ [])) ∧
  (hasHandlers r (event_type ev) = false → emit r ev st = (Normal None, st)) ∧
  (hasHandlers r "tool_call" = false → emitToolCall r ev st = (Normal None, st)) ∧
  (hasHandlers r "context" = false → emitContext r msgs st = (Normal None, st)).
Proof.
  unfold hasHandlers. split_and!.
  - rewrite emit_flat. unfold bind.
    destruct (emit_loop r ev st) as (delta & Htr & Hloop & _).
    exists delta. split.
    { destruct (forDispatch _ _ None st) as [[[?|?]|?|] st']; done. }
    pose proof (hasHandlersIn_dispatchFrom (event_type ev) 0 (hooks r)) as Hiff.
    fold (dispatchOrder (event_type ev) r) in Hiff.
    destruct (dispatchOrder (event_type ev) r) as [|d ds].
    + apply loop_trace_nil in Hloop as [-> _].
      split; [|done]. intros Htrue. rewrite (proj2 Hiff eq_refl) in Htrue. done.
    + apply loop_trace_nonempty in Hloop. split.
      * intros _ Hnil. rewrite Hnil in Hloop. simpl in Hloop. lia.
      * intros _. destruct (hasHandlersIn _ _); [done|]. discriminate (proj1 Hiff eq_refl).
  - intros Hnone. apply (hasHandlersIn_dispatchFrom _ 0) in Hnone.
    rewrite emit_flat. unfold dispatchOrder. by rewrite Hnone.
  - intros Hnone. apply (hasHandlersIn_dispatchFrom _ 0) in Hnone.
    rewrite emitToolCall_flat. unfold dispatchOrder. by rewrite Hnone.
  - intros Hnone. apply (hasHandlersIn_dispatchFrom _ 0) in Hnone.
    rewrite emitContext_flat. unfold dispatchOrder. by rewrite Hnone.
Qed.

(** *** What [emit] returns *)

Lemma emitStep_result ev s inv v :
  emitStep ev s (inv_outcome inv) = Normal (Proceed v) ∨
  emitStep ev s (inv_outcome inv) = Normal (Return v) →
  v = from_option Some s (capturedResult ev inv).
Proof.
  unfold emitStep, capturedResult.
  destruct (inv_outcome inv) as [[res|]|err|]; simpl;
    try (intros [[=]|[=]]; done).
  - destruct (isSession ev); simpl.
    + destruct (cancel res); intros [[=]|[=]]; try done.
      by destruct (String.eqb _ _).
    + destruct (String.eqb _ _); intros [[=]|[=]]; done.
  - rewrite !andb_false_r. intros [[=]|[=]]; done.
Qed.

Lemma omap_capturedResult_cons ev inv invs s :
  from_option Some s (last (omap (capturedResult ev) (inv :: invs))) =
  from_option Some (from_option Some s (capturedResult ev inv))
    (last (omap (capturedResult ev) invs)).
Proof.
  cbn [omap list_omap]. destruct (capturedResult ev inv) as [x|]; [|done].
  rewrite last_cons. by destruct (last _).
Qed.

Lemma emit_trace_result ev ctx obs thrown (ds : list (Dispatch W)) s invs c :
  loop_trace (λ _, ev) ctx obs (emitStep ev) thrown ds s invs c →
  ∀ v, c = Normal (Proceed v) ∨ c = Normal (Return v) →
       v = from_option Some s (last (omap (capturedResult ev) invs)).
Proof.
  induction 1 as [s|d ds s inv Hof Hstop|d ds s inv s' invs c Hof Hstep Hloop IH
                  |d ds s inv e Hof Herr He]; intros v Hc.
  - by destruct Hc as [[= ->]|[=]].
  - rewrite omap_capturedResult_cons. by apply emitStep_result.
  - rewrite omap_capturedResult_cons, <- (emitStep_result ev s inv s') by by left.
    by apply IH.
  - by destruct Hc as [[=]|[=]].
Qed.

(** X10.  What [emit] returns is the result of the last handler call that
    returned one, and only session and tool_result events have results:
    for any other event type [emit] returns absent whatever the handlers
    return. *)
Theorem emit_returns_last_captured_result r (ev : HookEvent) st :
  ∃ delta,
    trace (emit r ev st).2 = trace st ++ delta ∧
    (∀ v, (emit r ev st).1 = Normal v →
          v = last (omap (capturedResult ev) (invocations delta))) ∧
    (isSession ev = false → event_type ev ≠ "tool_result" →
     ∀ v, (emit r ev st).1 = Normal v → v = None).
Proof.
  rewrite emit_flat. unfold bind.
  destruct (emit_loop r ev st) as (delta & Htr & Hloop & _).
  exists delta.
  pose proof (emit_trace_result _ _ _ _ _ _ _ _ Hloop) as Hres.
  destruct (forDispatch _ _ None st) as [c st'] eqn:Hrun. cbn [fst snd] in *.
  assert (∀ v, (let (c0, st0) :=
                  match c with
                  | Normal (Proceed result) | Normal (Return result) => ret result st'
                  | Abrupt err => (Abrupt err, st')
                  | Never => (Never, st')
                  end in c0) = Normal v →
               v = last (omap (capturedResult ev) (invocations delta))) as Hlast.
  { intros v Hv. destruct c as [[s|s]|err|]; try done; injection Hv as ->.
    - rewrite (Hres v) by by left. by destruct (last _).
    - rewrite (Hres v) by by right. by destruct (last _). }
  split_and!.
  - by destruct c as [[?|?]|?|].
  - intros v Hv. apply Hlast. by destruct c as [[?|?]|?|].
  - intros Hns Hnt v Hv. rewrite (Hlast v) by by destruct c as [[?|?]|?|].
    assert (∀ invs, omap (capturedResult ev) invs = []) as ->; [|done].
    intros invs. induction invs as [|inv invs IH]; [done|].
    cbn [omap list_omap]. rewrite IH. unfold capturedResult. rewrite Hns.
    destruct (String.eqb_spec (event_type ev) "tool_result"); [done|].
    by destruct (inv_outcome inv) as [[?|]|?|].
Qed.

(** *** How [emit] ends *)

Lemma emitObserves_Hung ms ev b :
  emitObserves ms ev b = Hung ↔ isBeforeCompact ev = true ∧ b = Late None.
Proof.
  unfold emitObserves. destruct (isBeforeCompact ev).
  - destruct b as [[?|?]|[[?|?]|]]; simpl; split; try done; by intros [_ [=]].
  - destruct b as [[?|?]|?]; simpl; split; try done; by intros [[=] _].
Qed.

Lemma emitStep_Never ev s o : emitStep ev s o = Never ↔ o = Hung.
Proof.
  unfold emitStep. destruct o as [v|err|]; [|done..].
  by destruct (_ && _).
Qed.

Lemma emit_trace_never ev ctx obs thrown (ds : list (Dispatch W)) s invs c :
  loop_trace (λ _, ev) ctx obs (emitStep ev) thrown ds s invs c →
  c = Never ↔ ∃ inv, inv ∈ invs ∧ obs (inv_behaviour inv) = Hung.
Proof.
  induction 1 as [s|d ds s inv Hof Hstop|d ds s inv s' invs c Hof Hstep Hloop IH
                  |d ds s inv e Hof Herr He].
  - split; [done|]. intros (inv & Hin & _). by apply elem_of_nil in Hin.
  - destruct Hof as (_ & _ & _ & _ & _ & Hout). rewrite emitStep_Never, Hout. split.
    + intros Hhung. exists inv. split; [by left|done].
    + intros (inv' & Hin & Hhung). by apply list_elem_of_singleton in Hin as ->.
  - destruct Hof as (_ & _ & _ & _ & _ & Hout). rewrite IH. split.
    + intros (inv' & Hin & Hhung). exists inv'. split; [by right|done].
    + intros (inv' & Hin & Hhung). apply elem_of_cons in Hin as [->|Hin]; [|by exists inv'].
      rewrite <- Hout in Hhung. rewrite Hhung in Hstep. done.
  - destruct Hof as (_ & _ & _ & _ & _ & Hout). split; [done|].
    intros (inv' & Hin & Hhung). apply list_elem_of_singleton in Hin as ->.
    apply hookErrorOf_Some in Herr as [err Herr]. congruence.
Qed.

(** X11.  How [emit] ends.  It fails to settle in one situation only: the
    event is a session event with reason [before_compact], which is
    dispatched without a timer, and a called handler never settles.  It
    rejects in one situation only: an error listener throws while the
    failure of the last handler called is reported, and then it rejects
    with what the listener threw.  In every other case, in particular for
    a timed event whenever no listener throws, it returns. *)
Theorem emit_settles_unless_untimed_handler_hangs r (ev : HookEvent) st :
  ∃ delta,
    trace (emit r ev st).2 = trace st ++ delta ∧
    ((emit r ev st).1 = Never ↔
     isBeforeCompact ev = true ∧
     ∃ inv, inv ∈ invocations delta ∧ inv_behaviour inv = Late None) ∧
    (∀ e, (emit r ev st).1 = Abrupt e →
          listenerThrows r e ∧
          ∃ inv, last (invocations delta) = Some inv ∧ is_Some (hookErrorOf inv)) ∧
    (isBeforeCompact ev = false → quietListeners r → ∃ v, (emit r ev st).1 = Normal v).
Proof.
  rewrite emit_flat. unfold bind.
  destruct (emit_loop r ev st) as (delta & Htr & Hloop & _).
  exists delta.
  pose proof (emit_trace_never _ _ _ _ _ _ _ _ Hloop) as Hnever.
  pose proof (λ err, emit_trace_abrupt _ _ _ _ _ _ _ _ err Hloop) as Habrupt.
  destruct (forDispatch _ _ None st) as [c st'] eqn:Hrun. cbn [fst snd] in *.
  assert (c = Never ↔
          isBeforeCompact ev = true ∧
          ∃ inv, inv ∈ invocations delta ∧ inv_behaviour inv = Late None) as Hiff.
  { rewrite Hnever. split.
    - intros (inv & Hin & [Hbc Hb]%emitObserves_Hung). split; [done|by exists inv].
    - intros (Hbc & inv & Hin & Hb). exists inv. split; [done|].
      by apply emitObserves_Hung. }
  split_and!.
  - by destruct c as [[?|?]|?|].
  - rewrite <- Hiff. by destruct c as [[?|?]|?|].
  - intros e He. apply Habrupt. destruct c as [[?|?]|?|]; unfold ret in He; simpl in He; congruence.
  - intros Hbc Hquiet. destruct c as [[v|v]|err|].
    + by exists v.
    + by exists v.
    + destruct (Habrupt err eq_refl) as [Hthrown _].
      by destruct (quietListeners_no_throw r Hquiet err).
    + destruct (proj1 Hiff eq_refl) as [Htrue _]. congruence.
Qed.

(** *** Tool-call events *)

Lemma toolCallBody_step ev ctx i hook k (h : Handler W) result st :
  ∃ inv,
    trace (toolCallBody ev ctx i hook k h result st).2 = trace st ++ [ObsInvoke inv] ∧
    scheduled (toolCallBody ev ctx i hook k h result st).2 = scheduled st ∧
    nextTimer (toolCallBody ev ctx i hook k h result st).2 = nextTimer st ∧
    invocationOf {| d_hook := i; d_loaded := hook; d_index := k; d_handler := h |}
      ev ctx awaitOutcome inv ∧
    (toolCallBody ev ctx i hook k h result st).1 = toolCallStep result (inv_outcome inv).
Proof.
  unfold toolCallBody, bind, awaitHandler, ret.
  destruct (h ev ctx (world st)) as [b w] eqn:Hh.
  exists {| inv_hook := i; inv_path := hook_path hook; inv_handler := k;
            inv_event := ev; inv_behaviour := b; inv_outcome := awaitOutcome b |}.
  assert (invocationOf {| d_hook := i; d_loaded := hook; d_index := k; d_handler := h |}
            ev ctx awaitOutcome
            {| inv_hook := i; inv_path := hook_path hook; inv_handler := k;
               inv_event := ev; inv_behaviour := b; inv_outcome := awaitOutcome b |}) as Hof.
  { unfold invocationOf. simpl. split_and!; try done. exists (world st). by rewrite Hh. }
  unfold toolCallStep. cbn [inv_outcome].
  destruct (awaitOutcome b) as [v|err|]; simpl; [|done..].
  by destruct (_ && _).
Qed.

(** The loop of [emitToolCall] records handler calls only, and touches
    no timer; no listener has a part in it. *)
Lemma toolCall_trace ev ctx (ds : list (Dispatch W)) s st :
  ∃ invs,
    trace (forDispatch (toolCallBody ev ctx) ds s st).2 = trace st ++ (ObsInvoke <$> invs) ∧
    scheduled (forDispatch (toolCallBody ev ctx) ds s st).2 = scheduled st ∧
    nextTimer (forDispatch (toolCallBody ev ctx) ds s st).2 = nextTimer st ∧
    loop_trace (λ _, ev) ctx awaitOutcome toolCallStep (λ _, False) ds s invs
      (forDispatch (toolCallBody ev ctx) ds s st).1.
Proof.
  revert s st. induction ds as [|d ds IH]; intros s st.
  - exists []. simpl. rewrite app_nil_r. split_and!; try done. constructor.
  - destruct d as [i hook k h]. simpl. unfold bind.
    destruct (toolCallBody_step ev ctx i hook k h s st)
      as (inv & Htr0 & Hsch0 & Hnext0 & Hof & Hstep).
    destruct (toolCallBody ev ctx i hook k h s st) as [c st'] eqn:Hb. cbn [fst snd] in *.
    destruct c as [[s'|v]|err|].
    + destruct (IH s' st') as (invs & Htr & Hsch & Hnext & Hloop).
      exists (inv :: invs). rewrite Htr, Hsch, Hnext, Htr0, Hsch0, Hnext0.
      rewrite <- app_assoc. split_and!; try done. by eapply loop_trace_next.
    + exists [inv]. simpl. split_and!; try done.
      rewrite Hstep. apply loop_trace_stop; [done|]. intros s'. by rewrite <- Hstep.
    + exists [inv]. simpl. split_and!; try done.
      rewrite Hstep. apply loop_trace_stop; [done|]. intros s'. by rewrite <- Hstep.
    + exists [inv]. simpl. split_and!; try done.
      rewrite Hstep. apply loop_trace_stop; [done|]. intros s'. by rewrite <- Hstep.
Qed.

(** In a loop without listeners, a call whose outcome ends the loop
    whatever the loop state is the last call, and decides how the loop
    completes. *)
Lemma loop_trace_stops_at {St R : Type} (evOf : St → HookEvent) ctx obs
    (step : St → Outcome → Completion (Flow St R)) (ds : list (Dispatch W)) s invs c
    (o : Outcome) (c0 : Completion (Flow St R)) :
  (∀ s, step s o = c0) → (∀ s', c0 ≠ Normal (Proceed s')) →
  loop_trace evOf ctx obs step (λ _, False) ds s invs c →
  ∀ n inv, invs !! n = Some inv → inv_outcome inv = o → c = c0 ∧ length invs = S n.
Proof.
  intros Hstep0 Hstop0.
  induction 1 as [s|d ds s inv Hof Hstop|d ds s inv s' invs c Hof Hstep Hloop IH
                  |d ds s inv e Hof Herr He];
    intros n inv' Hn Hout.
  - done.
  - destruct n as [|n]; [|done]. simpl in Hn. injection Hn as <-.
    by rewrite Hout, Hstep0.
  - destruct n as [|n]; simpl in Hn.
    + injection Hn as <-. rewrite Hout, Hstep0 in Hstep. by destruct (Hstop0 s').
    + destruct (IH n inv' Hn Hout) as [-> Hlen]. simpl. by rewrite Hlen.
  - done.
Qed.

(** X12.  [emitToolCall] does not isolate handlers.  It awaits each
    handler of the [tool_call] dispatch order without a timer and reports
    nothing to the error listeners: its trace holds handler calls only.
    A handler that throws is the last one called and its error reaches
    the caller; a handler that never settles keeps [emitToolCall] from
    completing; a handler that returns a result with [block] set is the
    last one called and that result is returned. *)
Theorem emitToolCall_propagates_failures r (ev : HookEvent) st :
  let res := emitToolCall r ev st in
  let order := dispatchOrder "tool_call" r in
  ∃ invs,
    trace res.2 = trace st ++ (ObsInvoke <$> invs) ∧
    scheduled res.2 = scheduled st ∧
    Forall2 (λ d inv, invocationOf d ev (createContext r) awaitOutcome inv)
      (take (length invs) order) invs ∧
    (∀ n inv err, invs !! n = Some inv → inv_outcome inv = Threw err →
                  res.1 = Abrupt err ∧ length invs = S n) ∧
    (∀ n inv, invs !! n = Some inv → inv_outcome inv = Hung →
              res.1 = Never ∧ length invs = S n) ∧
    (∀ n inv v, invs !! n = Some inv → inv_outcome inv = Returned (Some v) →
                block v = true → res.1 = Normal (Some v) ∧ length invs = S n).
Proof.
  intros res order. subst res. rewrite emitToolCall_flat. fold order. unfold bind.
  destruct (toolCall_trace ev (createContext r) order None st)
    as (invs & Htr & Hsch & _ & Hloop).
  exists invs.
  pose proof (loop_trace_calls _ _ _ _ _ _ _ _ _ Hloop) as Hcalls.
  pose proof (λ err, loop_trace_stops_at _ _ _ _ _ _ _ _ (Threw err) (Abrupt err)
                       (λ _, eq_refl) (λ _, ltac:(discriminate)) Hloop) as Hthrow.
  pose proof (loop_trace_stops_at _ _ _ _ _ _ _ _ Hung Never
                (λ _, eq_refl) (λ _, ltac:(discriminate)) Hloop) as Hhang.
  assert (∀ v, block v = true →
               ∀ n inv, invs !! n = Some inv → inv_outcome inv = Returned (Some v) →
                        (forDispatch (toolCallBody ev (createContext r)) order None st).1
                          = Normal (Return (Some v)) ∧ length invs = S n) as Hblock.
  { intros v Hv. eapply loop_trace_stops_at; [| |exact Hloop].
    - intros s. unfold toolCallStep. simpl. by rewrite Hv.
    - done. }
  destruct (forDispatch _ order None st) as [c st'] eqn:Hrun. cbn [fst snd] in *.
  split_and!.
  - by destruct c as [[?|?]|?|].
  - by destruct c as [[?|?]|?|].
  - eapply Forall2_impl; [exact Hcalls|]. by intros d inv [_ ?].
  - intros n inv err Hn Hout. by destruct (Hthrow err n inv Hn Hout) as [-> ?].
  - intros n inv Hn Hout. by destruct (Hhang n inv Hn Hout) as [-> ?].
  - intros n inv v Hn Hout Hv. by destruct (Hblock v Hv n inv Hn Hout) as [-> ?].
Qed.

End HookMore.

(** ** Timers *)

Section TimerAccounting.
Local Open Scope nat_scope.
Context {W : Type}.
Implicit Types (r : HookRunner W) (st : RunnerState W) (hook : LoadedHook W).

Lemma timersSet_app tr1 tr2 : timersSet (tr1 ++ tr2) = timersSet tr1 ++ timersSet tr2.
Proof. apply omap_app. Qed.

Lemma timersCleared_app tr1 tr2 :
  timersCleared (tr1 ++ tr2) = timersCleared tr1 ++ timersCleared tr2.
Proof. apply omap_app. Qed.

Lemma timersFired_app tr1 tr2 : timersFired (tr1 ++ tr2) = timersFired tr1 ++ timersFired tr2.
Proof. apply omap_app. Qed.

(** Reports to listeners show no timer. *)
Lemma reports_no_timer (err : HookError) (delta : list Obs) :
  (∀ o, o ∈ delta → ∃ l, o = ObsError l err) →
  timersSet delta = [] ∧ timersCleared delta = [] ∧ timersFired delta = [].
Proof.
  induction delta as [|o delta IH]; intros Hobs; [done|].
  destruct (Hobs o ltac:(left)) as [l ->].
  destruct IH as (Hs & Hc & Hf); [intros o Hin; apply Hobs; by right|].
  unfold timersSet, timersCleared, timersFired in *. simpl. done.
Qed.

Ltac notify_timers delta Htr Hinvs Hsch Hnext Hs Hc Hf :=
  match goal with
  | |- context [notify ?ls 0 ?herr ?s] =>
      destruct (notify_spec ls 0 herr s)
        as (delta & Htr & Hinvs & Hsch & Hnext & _ & Hobs & _ & _);
      destruct (reports_no_timer herr delta Hobs) as (Hs & Hc & Hf);
      destruct (notify ls 0 herr s) as [[[]|?|] ?]; cbn [fst snd] in *
  end.

Lemma elem_of_released (t n : nat) (timers : list nat) :
  t ∈ filter (λ t, t ≠ n) (n :: timers) → t ∈ timers.
Proof.
  intros [Hne Hin]%list_elem_of_filter. by apply elem_of_cons in Hin as [->|Hin].
Qed.

Lemma elem_of_fired (t n : nat) (P : nat → Prop) `{∀ t, Decision (P t)} (timers : list nat) :
  t ∈ filter (λ t, t ≠ n ∧ P t) (n :: timers) → t ∈ timers.
Proof.
  intros [[Hne _] Hin]%list_elem_of_filter. by apply elem_of_cons in Hin as [->|Hin].
Qed.

Lemma emitBody_timers r ev ctx i hook k (h : Handler W) result st :
  ∃ inv delta,
    trace (emitBody r ev ctx i hook k h result st).2 = trace st ++ delta ∧
    invocations delta = [inv] ∧
    timedPass (negb (isBeforeCompact ev)) (timeout r) st
      (emitBody r ev ctx i hook k h result st).2 inv delta.
Proof.
  destruct (h ev ctx (world st)) as [b w] eqn:Hh.
  pose (mk := λ o, {| inv_hook := i; inv_path := hook_path hook; inv_handler := k;
                      inv_event := ev; inv_behaviour := b; inv_outcome := o |}).
  unfold timedPass, emitBody, try_catch, bind, awaitHandler, raceHandler,
    createTimeout, clearTimeout, emitError, ret, fulfilledPrompt, rejectedPrompt, timedOut.
  destruct (isBeforeCompact ev) eqn:Hbc; simpl; rewrite Hh.
  - destruct (awaitOutcome b) as [v|err|] eqn:Ho; simpl.
    + exists (mk (Returned v)), [ObsInvoke (mk (Returned v))].
      destruct (_ && _); simpl; split_and!; try done; by left.
    + notify_timers delta Htr Hinvs Hsch Hnext Hs Hc Hf;
        (exists (mk (Threw err)), (ObsInvoke (mk (Threw err)) :: delta);
         rewrite Htr, Hsch, Hnext; simpl; rewrite <- app_assoc; simpl;
         split_and!; try done;
         [unfold invocations in *; simpl; by rewrite Hinvs | by left]).
    + exists (mk Hung), [ObsInvoke (mk Hung)]. split_and!; try done; by left.
  - destruct b as [[v|err]|late]; simpl.
    + exists (mk (Returned v)),
        [ObsTimerSet (nextTimer st) (timeout r); ObsInvoke (mk (Returned v));
         ObsTimerCleared (nextTimer st)].
      destruct (_ && _); simpl; rewrite <- !app_assoc; split_and!; try done;
        intros t Hin; left; by apply elem_of_released in Hin.
    + notify_timers delta Htr Hinvs Hsch Hnext Hs Hc Hf;
        (exists (mk (Threw err)),
           (ObsTimerSet (nextTimer st) (timeout r) :: ObsInvoke (mk (Threw err)) :: delta);
         rewrite Htr, Hsch, Hnext; simpl; rewrite <- !app_assoc; simpl;
         split_and!; try done;
         [unfold invocations in *; simpl; by rewrite Hinvs
         |unfold timersSet in *; simpl; by rewrite Hs
         |intros t [->|Hin]%elem_of_cons; [by right|by left]]).
    + notify_timers delta Htr Hinvs Hsch Hnext Hs Hc Hf;
        (exists (mk (Threw (timeoutError (timeout r)))),
           (ObsTimerSet (nextTimer st) (timeout r) :: ObsTimerFired (nextTimer st)
            :: ObsInvoke (mk (Threw (timeoutError (timeout r)))) :: delta);
         rewrite Htr, Hsch, Hnext; simpl; rewrite <- !app_assoc; simpl;
         split_and!; try done;
         [unfold invocations in *; simpl; by rewrite Hinvs
         |unfold timersSet in *; simpl; by rewrite Hs
         |unfold timersFired in *; simpl; by rewrite Hf
         |intros t Hin; left; by apply elem_of_fired in Hin]).
Qed.

Lemma contextBody_timers r ctx i hook k (h : Handler W) (s : list AgentMessage * bool) st :
  ∃ inv delta,
    trace (contextBody r ctx i hook k h s st).2 = trace st ++ delta ∧
    invocations delta = [inv] ∧
    timedPass true (timeout r) st (contextBody r ctx i hook k h s st).2 inv delta.
Proof.
  set (ev := contextEvent s.1).
  destruct (h ev ctx (world st)) as [b w] eqn:Hh.
  pose (mk := λ o, {| inv_hook := i; inv_path := hook_path hook; inv_handler := k;
                      inv_event := ev; inv_behaviour := b; inv_outcome := o |}).
  unfold timedPass, contextBody, try_catch, bind, raceHandler, createTimeout, clearTimeout,
    emitError, ret, fulfilledPrompt, rejectedPrompt, timedOut.
  fold ev. simpl. rewrite Hh.
  destruct b as [[v|err]|late]; simpl.
  - exists (mk (Returned v)),
      [ObsTimerSet (nextTimer st) (timeout r); ObsInvoke (mk (Returned v));
       ObsTimerCleared (nextTimer st)].
    destruct v as [res|]; [destruct (result_messages res)|]; simpl;
      rewrite <- !app_assoc; split_and!; try done;
      intros t Hin; left; by apply elem_of_released in Hin.
  - notify_timers delta Htr Hinvs Hsch Hnext Hs Hc Hf;
      (exists (mk (Threw err)),
         (ObsTimerSet (nextTimer st) (timeout r) :: ObsInvoke (mk (Threw err)) :: delta);
       rewrite Htr, Hsch, Hnext; simpl; rewrite <- !app_assoc; simpl;
       split_and!; try done;
       [unfold invocations in *; simpl; by rewrite Hinvs
       |unfold timersSet in *; simpl; by rewrite Hs
       |intros t [->|Hin]%elem_of_cons; [by right|by left]]).
  - notify_timers delta Htr Hinvs Hsch Hnext Hs Hc Hf;
      (exists (mk (Threw (timeoutError (timeout r)))),
         (ObsTimerSet (nextTimer st) (timeout r) :: ObsTimerFired (nextTimer st)
          :: ObsInvoke (mk (Threw (timeoutError (timeout r)))) :: delta);
       rewrite Htr, Hsch, Hnext; simpl; rewrite <- !app_assoc; simpl;
       split_and!; try done;
       [unfold invocations in *; simpl; by rewrite Hinvs
       |unfold timersSet in *; simpl; by rewrite Hs
       |unfold timersFired in *; simpl; by rewrite Hf
       |intros t Hin; left; by apply elem_of_fired in Hin]).
Qed.

(** A loop of timed passes: the calls take fresh timers in order, the
    timers cleared are those of the calls whose handler fulfilled in time,
    the timers fired are those of the late calls, and only timers of
    calls whose handler rejected in time are added to the schedule. *)
Lemma forDispatch_timers {St R : Type}
    (body : nat → LoadedHook W → nat → Handler W → St → Async W (Flow St R))
    (timed : bool) (ms : N) :
  (∀ i hook k h s st, ∃ inv delta,
      trace (body i hook k h s st).2 = trace st ++ delta ∧
      invocations delta = [inv] ∧
      timedPass timed ms st (body i hook k h s st).2 inv delta) →
  ∀ ds s st, ∃ delta,
    let invs := invocations delta in
    let st' := (forDispatch body ds s st).2 in
    trace st' = trace st ++ delta ∧
    timersSet delta =
      (if timed then (λ t, (t, ms)) <$> seq (nextTimer st) (length invs) else []) ∧
    timersCleared delta = (if timed then timersOf fulfilledPrompt (nextTimer st) invs else []) ∧
    timersFired delta = (if timed then timersOf timedOut (nextTimer st) invs else []) ∧
    (∀ t, t ∈ scheduled st' →
          t ∈ scheduled st ∨
          (timed = true ∧ t ∈ timersOf rejectedPrompt (nextTimer st) invs)).
Proof.
  intros Hbody ds. induction ds as [|d ds IH]; intros s st.
  - exists []. simpl. rewrite app_nil_r. destruct timed; split_and!; try done; by left.
  - destruct d as [i hook k h]. simpl. unfold bind.
    destruct (Hbody i hook k h s st)
      as (inv & delta & Htr & Hinvs & Hnext & Hset & Hclr & Hfired & Hsch).
    destruct (body i hook k h s st) as [c st'] eqn:Hb. cbn [fst snd] in *.
    assert (∃ delta0,
              trace st' = trace st ++ delta0 ∧
              timersSet delta0 =
                (if timed then (λ t, (t, ms)) <$> seq (nextTimer st) (length (invocations delta0))
                 else []) ∧
              timersCleared delta0 =
                (if timed then timersOf fulfilledPrompt (nextTimer st) (invocations delta0)
                 else []) ∧
              timersFired delta0 =
                (if timed then timersOf timedOut (nextTimer st) (invocations delta0) else []) ∧
              (∀ t, t ∈ scheduled st' →
                    t ∈ scheduled st ∨
                    (timed = true ∧
                     t ∈ timersOf rejectedPrompt (nextTimer st) (invocations delta0))))
      as Hstop.
    { exists delta. rewrite Hinvs, Hset, Hclr, Hfired. cbn [timersOf length seq fmap list_fmap].
      rewrite !app_nil_r. destruct timed; cbn [andb]; split_and!; try done.
      - intros t Hin. destruct (Hsch t Hin) as [?|[Hrej ->]]; [by left|right].
        split; [done|]. cbn [andb] in Hrej. rewrite Hrej. by left.
      - intros t Hin. destruct (Hsch t Hin) as [?|[[=] _]]. by left. }
    destruct c as [[s'|v]|err|]; [|exact Hstop..].
    destruct (IH s' st') as (delta' & Htr' & Hset' & Hclr' & Hfired' & Hsch').
    exists (delta ++ delta'). cbn zeta in *.
    rewrite Htr', Htr, <- app_assoc, invocations_app, Hinvs,
      timersSet_app, timersCleared_app, timersFired_app,
      Hset, Hclr, Hfired, Hset', Hclr', Hfired', Hnext.
    destruct timed; cbn [andb app length seq fmap list_fmap timersOf]; split_and!; try done.
    + intros t Hin. destruct (Hsch' t Hin) as [Hin'|[_ Hin']].
      * destruct (Hsch t Hin') as [?|[Hrej ->]]; [by left|right].
        split; [done|]. apply elem_of_app. left. cbn [andb] in Hrej. rewrite Hrej. by left.
      * right. split; [done|]. apply elem_of_app. right. by rewrite Hnext in Hin'.
    + intros t Hin. destruct (Hsch' t Hin) as [Hin'|[[=] _]].
      destruct (Hsch t Hin') as [?|[[=] _]]. by left.
Qed.

(** X13.  Timer accounting for [emit].  Every timed call sets one fresh
    timer with the runner's delay.  [emit] clears exactly the timers of
    the calls whose handler fulfilled in time, and the timers that settle
    a race by firing are those of the late calls: the timer of a call
    whose handler rejected in time is never cleared, and such timers are
    the only ones [emit] adds to the schedule.  A [before_compact]
    emission sets no timer. *)
Theorem emit_timer_accounting r (ev : HookEvent) st :
  ∃ delta,
    let invs := invocations delta in
    let first := nextTimer st in
    trace (emit r ev st).2 = trace st ++ delta ∧
    timersSet delta =
      (if isBeforeCompact ev then []
       else (λ t, (t, timeout r)) <$> seq first (length invs)) ∧
    timersCleared delta =
      (if isBeforeCompact ev then [] else timersOf fulfilledPrompt first invs) ∧
    timersFired delta =
      (if isBeforeCompact ev then [] else timersOf timedOut first invs) ∧
    (∀ t, t ∈ scheduled (emit r ev st).2 →
          t ∈ scheduled st ∨
          (isBeforeCompact ev = false ∧ t ∈ timersOf rejectedPrompt first invs)).
Proof.
  rewrite emit_flat. unfold bind.
  destruct (forDispatch_timers (emitBody r ev (createContext r))
              (negb (isBeforeCompact ev)) (timeout r)
              (emitBody_timers r ev (createContext r))
              (dispatchOrder (event_type ev) r) None st)
    as (delta & Htr & Hset & Hclr & Hfired & Hsch).
  exists delta. cbn zeta in *.
  destruct (forDispatch _ _ None st) as [c st'] eqn:Hrun. cbn [fst snd] in *.
  assert (∀ t, t ∈ scheduled st' →
               t ∈ scheduled st ∨
               (isBeforeCompact ev = false ∧
                t ∈ timersOf rejectedPrompt (nextTimer st) (invocations delta))) as Hsch'.
  { intros t Hin. destruct (Hsch t Hin) as [?|[Hbc ?]]; [by left|right].
    split; [|done]. by apply negb_true_iff. }
  rewrite Hset, Hclr, Hfired.
  destruct (isBeforeCompact ev); cbn [negb]; destruct c as [[?|?]|?|]; by split_and!.
Qed.

(** X14.  Timer accounting for [emitContext]: every call is timed and
    sets one fresh timer with the runner's delay; the timers cleared are
    exactly those of the calls whose handler fulfilled in time, the timers
    that settle a race by firing are those of the late calls, and the
    timer of a call whose handler rejected in time is never cleared: such
    timers are the only ones [emitContext] adds to the schedule. *)
Theorem emitContext_timer_accounting r (msgs : list AgentMessage) st :
  ∃ delta,
    let invs := invocations delta in
    let first := nextTimer st in
    trace (emitContext r msgs st).2 = trace st ++ delta ∧
    timersSet delta = (λ t, (t, timeout r)) <$> seq first (length invs) ∧
    timersCleared delta = timersOf fulfilledPrompt first invs ∧
    timersFired delta = timersOf timedOut first invs ∧
    (∀ t, t ∈ scheduled (emitContext r msgs st).2 →
          t ∈ scheduled st ∨ t ∈ timersOf rejectedPrompt first invs).
Proof.
  rewrite emitContext_flat. unfold bind.
  destruct (forDispatch_timers (contextBody r (createContext r)) true (timeout r)
              (contextBody_timers r (createContext r))
              (dispatchOrder "context" r) (msgs, false) st)
    as (delta & Htr & Hset & Hclr & Hfired & Hsch).
  exists delta. cbn zeta in *.
  destruct (forDispatch _ _ (msgs, false) st) as [c st'] eqn:Hrun. cbn [fst snd] in *.
  assert (∀ t, t ∈ scheduled st' →
               t ∈ scheduled st ∨
               t ∈ timersOf rejectedPrompt (nextTimer st) (invocations delta)) as Hsch'.
  { intros t Hin. destruct (Hsch t Hin) as [?|[_ ?]]; [by left|by right]. }
  rewrite Hset, Hclr, Hfired.
  destruct c as [[[? ?]|?]|?|]; by split_and!.
Qed.
End TimerAccounting.

(** The timer of the first call, whose handler rejects, is left behind;
    it has fired by the time the timer of the stalling second call fires,
    and the timer of the third call, whose handler rejects too, is the
    one on the schedule when [emit] returns. *)
Example emit_timers_sample :
  let r := Sample.runnerWith
             [Sample.hookWith "first" "session"
                [Sample.rejecting "boom"; Sample.stalling; Sample.rejecting "again"]] in
  let res := emit r (Sample.sessionEvent "before_branch") Sample.idle in
  scheduled res.2 = [2%nat] ∧
  timersCleared (trace res.2) = [] ∧
  timersFired (trace res.2) = [1%nat].
Proof. vm_compute. done. Qed.

Example emitContext_timers_sample :
  let r := Sample.runnerWith
             [Sample.hookWith "first" "context" [Sample.rejecting "boom"; Sample.stalling]] in
  scheduled (emitContext r [] Sample.idle).2 = [].
Proof. vm_compute. done. Qed.
(** ** Commands and renderers *)

Section RegistryFacts.
Context {W C : Type}.
Variable registry : LoadedHook W → list (string * C).

Lemma mapGet_elem_of (m : list (string * C)) key c :
  mapGet m key = Some c → (key, c) ∈ m.
Proof.
  unfold mapGet. destruct (List.find _ m) as [[k v]|] eqn:Hfind; [|done].
  intros [= <-]. apply find_some in Hfind as [Hin Hkey].
  apply String.eqb_eq in Hkey. simpl in Hkey. subst k. by apply list_elem_of_In.
Qed.

Lemma firstRegistered_spec (hks : list (LoadedHook W)) (name : string) :
  match firstRegistered registry hks name with
  | Some found =>
      ∃ before hook after,
        hks = before ++ hook :: after ∧
        mapGet (registry hook) name = Some found ∧
        Forall (λ h, mapGet (registry h) name = None) before
  | None => Forall (λ h, mapGet (registry h) name = None) hks
  end.
Proof.
  induction hks as [|hook hks IH]; cbn [firstRegistered]; [constructor|].
  destruct (mapGet (registry hook) name) as [c|] eqn:Hget.
  - by exists [], hook, hks.
  - destruct (firstRegistered registry hks name) as [c|].
    + destruct IH as (before & hook' & after & -> & Hget' & Hnone).
      exists (hook :: before), hook', after. split_and!; try done. by constructor.
    + by constructor.
Qed.

(** X15.  [getCommand] and [getMessageRenderer] answer from the first
    hook, in load order, that registers the name: a later hook's entry
    under the same name is never returned, the answer is absent exactly
    when no hook registers the name, and a command that is returned is
    among those [getRegisteredCommands] lists. *)
Theorem getCommand_first_hook_wins (r : HookRunner W) (name : string) :
  match getCommand registry r name with
  | Some command =>
      (∃ before hook after,
         hooks r = before ++ hook :: after ∧
         mapGet (registry hook) name = Some command ∧
         Forall (λ h, mapGet (registry h) name = None) before) ∧
      command ∈ getRegisteredCommands registry r
  | None => Forall (λ h, mapGet (registry h) name = None) (hooks r)
  end ∧
  getMessageRenderer registry r name = getCommand registry r name.
Proof.
  split; [|reflexivity]. unfold getCommand, getRegisteredCommands.
  pose proof (firstRegistered_spec (hooks r) name) as Hspec.
  destruct (firstRegistered registry (hooks r) name) as [c|]; [|done].
  split; [done|]. destruct Hspec as (before & hook & after & Hsplit & Hget & _).
  apply list_elem_of_bind. exists hook. split.
  - apply list_elem_of_fmap. exists (name, c). split; [done|by apply mapGet_elem_of].
  - rewrite Hsplit. apply elem_of_app. right. by left.
Qed.
End RegistryFacts.

(** ** Message transformation *)

Lemma transformMessage_role m m' :
  transformMessage m = Some m' →
  (role m' = "user" ∨ role m' = "assistant" ∨ role m' = "toolResult") ∧
  transformMessage m' = Some m'.
Proof.
  destruct m as [c t|c t|i c t|s f t|s k t|ty [c|c] d de t|c o e ca tr f t]; simpl;
    intros [= <-]; simpl; auto.
Qed.

Lemma transformMessage_dropped m :
  transformMessage m = None ↔ role m = "branchSummary" ∨ role m = "compactionSummary".
Proof.
  destruct m as [c t|c t|i c t|s f t|s k t|ty [c|c] d de t|c o e ca tr f t]; simpl;
    split; try done; try (by intros [[=]|[=]]); auto.
Qed.

(** X16.  [messageTransformer] works message by message and keeps the
    order.  A user, assistant or tool-result message passes through
    unchanged; a bash execution becomes a user message holding its
    rendering as one text block, a hook message a user message holding
    its content as blocks, each with the timestamp of the original; a
    branch-summary or compaction-summary message is dropped.  So the
    output holds messages of the three roles the model understands and
    nothing else, and transforming a second time changes nothing. *)
Theorem messageTransformer_yields_llm_messages (msgs more : list AgentMessage) :
  messageTransformer (msgs ++ more) = messageTransformer msgs ++ messageTransformer more ∧
  (∀ m, role m = "user" ∨ role m = "assistant" ∨ role m = "toolResult" →
        messageTransformer [m] = [m]) ∧
  (∀ m, role m = "branchSummary" ∨ role m = "compactionSummary" →
        messageTransformer [m] = []) ∧
  (∀ command output exitCode cancelled truncated fullOutputPath ts,
     messageTransformer
       [BashExecutionMessage command output exitCode cancelled truncated fullOutputPath ts] =
     [UserMessage
        (ContentBlocks
           [TextContent
              (bashExecutionToText command output exitCode cancelled truncated fullOutputPath)])
        ts]) ∧
  (∀ customType content display details ts,
     messageTransformer [HookMessage customType content display details ts] =
     [UserMessage
        (ContentBlocks match content with
                       | ContentString s => [TextContent s]
                       | ContentBlocks blocks => blocks
                       end) ts]) ∧
  (∀ m, m ∈ messageTransformer msgs →
        role m = "user" ∨ role m = "assistant" ∨ role m = "toolResult") ∧
  (∀ m, isBashExecutionMessage m || isHookMessage m = true →
        ∃ content ts, transformMessage m = Some (UserMessage content ts)) ∧
  length (messageTransformer msgs) =
    length (filter (λ m, ¬ (role m = "branchSummary" ∨ role m = "compactionSummary")) msgs) ∧
  messageTransformer (messageTransformer msgs) = messageTransformer msgs.
Proof.
  unfold messageTransformer. split_and!.
  - apply omap_app.
  - intros m Hm.
    destruct m as [c t|c t|i c t|s f t|s k t|ty c d de t|c o e ca tr f t];
      try done; destruct Hm as [Hm|[Hm|Hm]]; discriminate.
  - intros m Hm.
    destruct m as [c t|c t|i c t|s f t|s k t|ty c d de t|c o e ca tr f t];
      try done; destruct Hm as [Hm|Hm]; discriminate.
  - done.
  - intros customType [s|blocks] display details ts; done.
  - intros m (m0 & _ & Hm)%list_elem_of_omap. by destruct (transformMessage_role _ _ Hm).
  - intros m Hm.
    destruct m as [c t|c t|i c t|s f t|s k t|ty [c|c] d de t|c o e ca tr f t];
      try discriminate; simpl; eauto.
  - induction msgs as [|m msgs IH]; [done|]. cbn [omap list_omap].
    pose proof (transformMessage_dropped m) as Hdrop.
    destruct (transformMessage m) as [m'|].
    + rewrite filter_cons_True; [simpl; by rewrite IH|].
      intros Hr. by apply Hdrop in Hr.
    + rewrite filter_cons_False; [done|].
      intros Hr. apply Hr. by apply Hdrop.
  - induction msgs as [|m msgs IH]; [done|]. cbn [omap list_omap].
    destruct (transformMessage m) as [m'|] eqn:Hm; [|done].
    cbn [omap list_omap]. apply transformMessage_role in Hm as [_ ->]. by rewrite IH.
Qed.

(** ** The transcript *)

Lemma join_nonempty sep part parts :
  part ≠ EmptyString → join sep (part :: parts) ≠ EmptyString.
Proof.
  unfold join. destruct part as [|a part]; [done|]. intros _.
  destruct parts; simpl; discriminate.
Qed.

(** The line a message contributes to the transcript, if any. *)
Lemma transcript_line_textless msgs :
  Forall (λ m, messageText m = EmptyString) msgs →
  omap (λ msg,
     let text := messageText msg in
     if String.eqb text EmptyString then None else Some (role msg +:+ ": " +:+ text))
   msgs = [].
Proof.
  induction 1 as [|m msgs Hm _ IH]; [done|].
  cbn [omap list_omap]. cbn zeta. rewrite Hm. simpl. exact IH.
Qed.

(** X17.  The transcript [messagesToText] builds is empty exactly when
    every message is without text, as tool results, bash executions and
    assistant turns holding only tool calls are; and messages without
    text leave no trace in the transcript of the others. *)
Theorem messagesToText_skips_textless (msgs : list AgentMessage) :
  (messagesToText msgs = EmptyString ↔ Forall (λ m, messageText m = EmptyString) msgs) ∧
  (∀ skipped, Forall (λ m, messageText m = EmptyString) skipped →
     messagesToText (skipped ++ msgs) = messagesToText msgs ∧
     messagesToText (msgs ++ skipped) = messagesToText msgs) ∧
  (∀ m, role m = "toolResult" ∨ role m = "bashExecution" → messageText m = EmptyString).
Proof.
  split_and!.
  - split.
    + unfold messagesToText. induction msgs as [|m msgs IH]; [by constructor|].
      cbn [omap list_omap]. cbn zeta.
      destruct (String.eqb_spec (messageText m) EmptyString) as [Hm|Hm].
      * intros Hrest. constructor; [done|by apply IH].
      * intros Hempty. exfalso. revert Hempty. apply join_nonempty.
        by destruct (role m).
    + intros Hall. unfold messagesToText. by rewrite transcript_line_textless.
  - intros skipped Hskipped. unfold messagesToText.
    rewrite !omap_app, transcript_line_textless by done.
    by rewrite app_nil_r.
  - intros m [Hm|Hm]; by destruct m as [[?|?] ?|? ?|? ? ?|? ? ?|? ? ?|? [?|?] ? ? ?|? ? ? ? ? ? ?].
Qed.

(** ** Error reports *)

Section HookReports.
Local Open Scope nat_scope.
Context {W : Type}.
Implicit Types (r : HookRunner W) (st : RunnerState W) (hook : LoadedHook W).

Lemma dispatchHandlers_loaded i hook k (hs : list (Handler W)) d :
  d ∈ dispatchHandlers i hook k hs → d_loaded d = hook.
Proof.
  revert k. induction hs as [|h hs IH]; intros k; simpl.
  - intros Hin. by apply elem_of_nil in Hin.
  - intros [->|Hin]%elem_of_cons; [done|by eapply IH].
Qed.

Lemma dispatchFrom_loaded eventType i (hks : list (LoadedHook W)) d :
  d ∈ dispatchFrom eventType i hks → d_loaded d ∈ hks.
Proof.
  revert i. induction hks as [|hook hks IH]; intros i; simpl.
  - intros Hin. by apply elem_of_nil in Hin.
  - intros [Hin|Hin]%elem_of_app.
    + apply dispatchHandlers_loaded in Hin as ->. by left.
    + right. by eapply IH.
Qed.

(** X19.  Every error [emit] reports to a listener names a loaded hook
    and the type of the emitted event: its [hookPath] is among
    [getHookPaths] and its [event] is the event's type. *)
Theorem emit_reports_name_loaded_hooks r (ev : HookEvent) st :
  ∃ delta,
    trace (emit r ev st).2 = trace st ++ delta ∧
    ∀ l e, l < length (errorListeners r) → e ∈ deliveries l delta →
           hookPath e ∈ getHookPaths r ∧ event e = event_type ev.
Proof.
  rewrite emit_flat. unfold bind.
  destruct (emit_loop r ev st) as (delta & Htr & Hloop & Hdel & _).
  exists delta.
  pose proof (loop_trace_calls _ _ _ _ _ _ _ _ _ Hloop) as Hcalls.
  destruct (forDispatch _ _ None st) as [c st'] eqn:Hrun. cbn [fst snd] in *.
  split; [by destruct c as [[?|?]|?|]|].
  intros l e Hl He. destruct (Hdel l Hl) as [later Hpre].
  assert (e ∈ omap hookErrorOf (invocations delta)) as He'
    by (rewrite Hpre; apply elem_of_app; by left).
  clear He. rename He' into He.
  apply list_elem_of_omap in He as (inv & Hin & Herr).
  apply list_elem_of_lookup in Hin as [n Hn].
  destruct (Forall2_lookup_r _ _ _ _ _ Hcalls Hn) as (d & Hd & _ & Hof).
  destruct Hof as (_ & Hpath & _ & Hev & _).
  apply lookup_take_Some in Hd as [Hd _].
  apply list_elem_of_lookup_2, dispatchFrom_loaded in Hd.
  unfold hookErrorOf in Herr. destruct (inv_outcome inv); try discriminate.
  injection Herr as <-. cbn [hookPath event]. split.
  - rewrite Hpath. unfold getHookPaths. by apply list_elem_of_fmap_2.
  - by rewrite Hev.
Qed.
End HookReports.

(** ** Further samples *)

(** Both hooks register [deploy]: the first hook's command is found, the
    second hook's one is listed and out of reach. *)
Example getCommand_sample :
  let r := Sample.runnerWith [Demo.plainHook "first"; Demo.plainHook "second"] in
  getCommand Demo.commands r "deploy" = Some "deploy from first" ∧
  getCommand Demo.commands r "status" = Some "status from second" ∧
  getCommand Demo.commands r "missing" = None ∧
  getRegisteredCommands Demo.commands r =
    ["deploy from first"; "deploy from second"; "status from second"].
Proof. vm_compute. done. Qed.

(** A result returned for a [turn_start] event is not handed on. *)
Example emit_discards_result_sample :
  let r := Sample.runnerWith
             [Sample.hookWith "hook" "turn_start" [Sample.returning (Some Demo.blockResult)]] in
  hasHandlers r "turn_start" = true ∧ hasHandlers r "session" = false ∧
  (emit r Demo.turnEvent Sample.idle).1 = Normal None.
Proof. vm_compute. done. Qed.

(** A blocking result ends the tool-call dispatch. *)
Example emitToolCall_block_sample :
  let r := Sample.runnerWith
             [Sample.hookWith "hook" "tool_call"
                [Sample.returning (Some Demo.blockResult); Sample.rejecting "not reached"]] in
  let res := emitToolCall r Demo.toolCallEvent Sample.idle in
  res.1 = Normal (Some Demo.blockResult) ∧ length (invocations (trace res.2)) = 1%nat.
Proof. vm_compute. done. Qed.

Example bashExecutionToText_sample :
  bashExecutionToText "ls" EmptyString (Some 2) true true None =
    "Ran " +:+ BACKTICK +:+ "ls" +:+ BACKTICK +:+ LF +:+ "(no output)" +:+ LF +:+ LF +:+
    "(command cancelled)" ∧
  bashExecutionToText "ls" "a" (Some (-1)) false true (Some "/tmp/full") =
    "Ran " +:+ BACKTICK +:+ "ls" +:+ BACKTICK +:+ LF +:+
    BACKTICK +:+ BACKTICK +:+ BACKTICK +:+ LF +:+ "a" +:+ LF +:+
    BACKTICK +:+ BACKTICK +:+ BACKTICK +:+ LF +:+ LF +:+
    "Command exited with code -1" +:+ LF +:+ LF +:+
    "[Output truncated. Full output: /tmp/full]".
Proof. vm_compute. done. Qed.

Example messageTransformer_sample :
  messageTransformer
    [BashExecutionMessage "ls" EmptyString None false false None 5;
     BranchSummaryMessage "summary" "from" 6;
     HookMessage "note" (ContentString "remember") true None 7;
     UserMessage (ContentString "hi") 8] =
  [UserMessage
     (ContentBlocks
        [TextContent ("Ran " +:+ BACKTICK +:+ "ls" +:+ BACKTICK +:+ LF +:+ "(no output)")]) 5;
   UserMessage (ContentBlocks [TextContent "remember"]) 7;
   UserMessage (ContentString "hi") 8].
Proof. vm_compute. done. Qed.

(** ** The message transformer of the web interface example *)

Lemma webui_pushAttachment_app content attachment :
  WebUi.pushAttachment content attachment = content ++ WebUi.pushAttachment [] attachment.
Proof.
  unfold WebUi.pushAttachment.
  destruct (String.eqb _ "image"); [done|].
  destruct (_ && _); [done|by rewrite app_nil_r].
Qed.

Lemma webui_foldl_pushAttachment content attachments :
  foldl WebUi.pushAttachment content attachments =
  content ++ foldl WebUi.pushAttachment [] attachments.
Proof.
  revert content. induction attachments as [|a attachments IH]; intros content; simpl.
  - by rewrite app_nil_r.
  - rewrite IH, (IH (WebUi.pushAttachment [] a)), (webui_pushAttachment_app content a).
    by rewrite app_assoc.
Qed.

Lemma webui_pushAttachment_length attachment :
  length (WebUi.pushAttachment [] attachment) =
  if WebUi.convertible attachment then 1%nat else 0%nat.
Proof.
  unfold WebUi.pushAttachment, WebUi.convertible.
  destruct (String.eqb _ "image"); [done|].
  by destruct (_ && _).
Qed.

(** X20.  [convertAttachments] turns the attachments into content blocks
    one by one, in order: converting a concatenation gives the
    concatenation of the conversions, and the result has one block for
    each image and each document with extracted text, and none for any
    other attachment. *)
Theorem webui_convertAttachments_blocks (attachments more : list WebUi.Attachment) :
  WebUi.convertAttachments (attachments ++ more) =
    WebUi.convertAttachments attachments ++ WebUi.convertAttachments more ∧
  length (WebUi.convertAttachments attachments) =
    length (filter (λ a, WebUi.convertible a = true) attachments).
Proof.
  unfold WebUi.convertAttachments. split.
  - by rewrite foldl_app, webui_foldl_pushAttachment.
  - induction attachments as [|a attachments IH]; [done|]. simpl.
    rewrite webui_foldl_pushAttachment, length_app, IH, webui_pushAttachment_length.
    destruct (WebUi.convertible a) eqn:Ha.
    + by rewrite filter_cons_True.
    + rewrite filter_cons_False; [done|]. by rewrite Ha.
Qed.

Lemma webui_convertFrom_roles clock k msgs :
  Forall (λ m, WebUi.kept m = true) msgs →
  Forall (λ m, WebUi.role m = "user" ∨ WebUi.role m = "assistant" ∨
               WebUi.role m = "toolResult") (WebUi.convertFrom clock k msgs) ∧
  length (WebUi.convertFrom clock k msgs) = length msgs.
Proof.
  intros Hkept. revert k. induction Hkept as [|m msgs Hm _ IH]; intros k;
    [split; [constructor|done]|].
  destruct m; try discriminate; cbn [WebUi.convertFrom];
    first [ destruct (IH k) as [Hroles Hlen];
            split; [constructor; [simpl; auto|done]|simpl; by rewrite Hlen]
          | destruct (IH (S k)) as [Hroles Hlen];
            split; [constructor; [simpl; auto|done]|simpl; by rewrite Hlen] ].
Qed.

Lemma webui_convertFrom_fixed clock k msgs :
  Forall (λ m, WebUi.role m = "user" ∨ WebUi.role m = "assistant" ∨
               WebUi.role m = "toolResult") msgs →
  List.filter WebUi.kept msgs = msgs ∧ WebUi.convertFrom clock k msgs = msgs.
Proof.
  induction 1 as [|m msgs Hm _ [IHf IHc]]; [done|].
  destruct m; try (destruct Hm as [Hm|[Hm|Hm]]; discriminate);
    simpl; by rewrite IHf, IHc.
Qed.

Lemma webui_kept_not_artifact m :
  WebUi.kept m = bool_decide (WebUi.role m ≠ "artifact").
Proof. by destruct m. Qed.

(** X21.  [customMessageTransformer] yields only messages with role user,
    assistant or toolResult, one for each input message that is not an
    artifact, in order; artifacts never reach the model.  Whatever the
    clock reads, transforming the result again changes nothing. *)
Theorem webui_customMessageTransformer_yields_llm_messages
    (clock clock' : nat → Z) (msgs : list WebUi.AgentMessage) :
  let out := WebUi.customMessageTransformer clock msgs in
  Forall (λ m, WebUi.role m = "user" ∨ WebUi.role m = "assistant" ∨
               WebUi.role m = "toolResult") out ∧
  length out = length (filter (λ m, WebUi.role m ≠ "artifact") msgs) ∧
  WebUi.customMessageTransformer clock' out = out.
Proof.
  intros out. subst out. unfold WebUi.customMessageTransformer.
  assert (Forall (λ m, WebUi.kept m = true) (List.filter WebUi.kept msgs)) as Hkept.
  { apply Forall_forall. intros m Hin. apply list_elem_of_In in Hin.
    by apply filter_In in Hin as [_ ?]. }
  destruct (webui_convertFrom_roles clock 0 _ Hkept) as [Hroles Hlen].
  split_and!.
  - done.
  - rewrite Hlen. clear. induction msgs as [|m msgs IH]; [done|].
    rewrite filter_cons. cbn [List.filter]. rewrite webui_kept_not_artifact.
    destruct (decide (WebUi.role m ≠ "artifact")) as [Hr|Hr].
    + rewrite bool_decide_eq_true_2 by done. simpl. by rewrite IH.
    + by rewrite bool_decide_eq_false_2 by done.
  - destruct (webui_convertFrom_fixed clock' 0 _ Hroles) as [-> ->]. done.
Qed.

Example webui_customMessageTransformer_sample :
  WebUi.customMessageTransformer (λ k, 100 + Z.of_nat k)
    [WebUi.SystemNotificationMessage "saved" "default" "2024";
     WebUi.ArtifactMessage "create" "a.html" None None "2024";
     WebUi.UserMessageWithAttachments (WebUi.ContentText "see") 7
       (Some [{| WebUi.attachment_type := "image"; WebUi.attachment_content := "data";
                 WebUi.mimeType := "image/png"; WebUi.fileName := "p.png";
                 WebUi.extractedText := None |};
              {| WebUi.attachment_type := "document"; WebUi.attachment_content := "raw";
                 WebUi.mimeType := "text/plain"; WebUi.fileName := "empty.txt";
                 WebUi.extractedText := Some EmptyString |}]);
     WebUi.SystemNotificationMessage "done" "default" "2024"] =
  [WebUi.UserMessage (WebUi.ContentText "<system>saved</system>") 100;
   WebUi.UserMessage
     (WebUi.ContentArray [WebUi.Text "see"; WebUi.Image "data" "image/png"]) 7;
   WebUi.UserMessage (WebUi.ContentText "<system>done</system>") 101].
Proof. vm_compute. done. Qed.

(** ** What [emitToolCall] returns *)

Section ToolCallResult.
Context {W : Type}.

Lemma toolCallStep_result s inv v :
  toolCallStep s (inv_outcome inv) = Normal (Proceed v) ∨
  toolCallStep s (inv_outcome inv) = Normal (Return v) →
  v = from_option Some s (returnedResult inv).
Proof.
  unfold toolCallStep, returnedResult.
  destruct (inv_outcome inv) as [[res|]|err|]; simpl; try (intros [[=]|[=]]; done).
  destruct (block res); intros [[=]|[=]]; done.
Qed.

Lemma omap_returnedResult_cons inv invs s :
  from_option Some s (last (omap returnedResult (inv :: invs))) =
  from_option Some (from_option Some s (returnedResult inv))
    (last (omap returnedResult invs)).
Proof.
  cbn [omap list_omap]. destruct (returnedResult inv) as [x|]; [|done].
  rewrite last_cons. by destruct (last _).
Qed.

Lemma toolCall_trace_result ev ctx obs thrown (ds : list (Dispatch W)) s invs c :
  loop_trace (λ _, ev) ctx obs toolCallStep thrown ds s invs c →
  ∀ v, c = Normal (Proceed v) ∨ c = Normal (Return v) →
       v = from_option Some s (last (omap returnedResult invs)).
Proof.
  induction 1 as [s|d ds s inv Hof Hstop|d ds s inv s' invs c Hof Hstep Hloop IH
                  |d ds s inv e Hof Herr He]; intros v Hc.
  - by destruct Hc as [[= ->]|[=]].
  - rewrite omap_returnedResult_cons. by apply toolCallStep_result.
  - rewrite omap_returnedResult_cons, <- (toolCallStep_result s inv s') by by left.
    by apply IH.
  - by destruct Hc as [[=]|[=]].
Qed.

(** X22.  When [emitToolCall] completes it returns the result of the last
    handler call that returned one, and absent when no handler returned a
    result. *)
Theorem emitToolCall_returns_last_result (r : HookRunner W) (ev : HookEvent)
    (st : RunnerState W) :
  ∃ invs,
    trace (emitToolCall r ev st).2 = trace st ++ (ObsInvoke <$> invs) ∧
    ∀ v, (emitToolCall r ev st).1 = Normal v → v = last (omap returnedResult invs).
Proof.
  rewrite emitToolCall_flat. unfold bind.
  destruct (toolCall_trace ev (createContext r) (dispatchOrder "tool_call" r) None st)
    as (invs & Htr & _ & _ & Hloop).
  exists invs.
  pose proof (toolCall_trace_result _ _ _ _ _ _ _ _ Hloop) as Hres.
  destruct (forDispatch _ _ None st) as [c st'] eqn:Hrun. cbn [fst snd] in *.
  split; [by destruct c as [[?|?]|?|]|].
  intros v Hv. destruct c as [[s|s]|err|]; try done; injection Hv as ->.
  - rewrite (Hres v) by by left. by destruct (last _).
  - rewrite (Hres v) by by right. by destruct (last _).
Qed.
End ToolCallResult.
